(** * FSM-Visualizer: the automata engine, embedded and verified

    A shallow embedding of the Python sources under [src]:

    - [models/automaton.py], [models/dfa.py], [models/nfa.py],
      [models/pda.py], [models/mealy_moore.py]: the automaton classes;
    - [algorithms/regex_parser.py]: the recursive-descent regex parser;
    - [algorithms/thompson.py]: Thompson's construction;
    - [algorithms/subset_construction.py], [algorithms/minimization.py],
      [algorithms/conversions.py]: the transformations;
    - [visualization/simulator.py]: the simulation functions;
    - [parsers/text_parser.py]: the loader of the text format.

    Conventions of the embedding:

    - Python objects are mutable and methods may raise: a method that
      mutates or raises is a computation in a state-and-exception monad over
      the object it is called on; a method that only reads is a function.
    - A [str] is a sequence of Unicode code points, a [dict] used as a map
      is a [gmap], a [set] or [frozenset] is a [gset].  Where the source
      iterates over a dict or a set, the model iterates over [elements];
      the properties below do not depend on that order.
    - A [while] loop or a recursion that is not structural takes fuel and
      answers [Timeout] (or [None]) when it runs out.  The parser and the
      ε-closure of [models/nfa.py] run on fuel that is proved sufficient;
      the other loops take their fuel as an argument.
    - An attribute that no class defines raises [AttributeError] where it is
      looked up, as in Python.
    - The interpreter's recursion limit and memory are not modelled. *)

From Stdlib Require Import NArith Ascii String.
From stdpp Require Import gmap strings list pretty.

Local Open Scope N_scope.
Local Open Scope nat_scope.
Local Open Scope list_scope.

(** ** Python strings *)

(** A character is a Unicode code point; a Python [str] is a list of them.
    Iterating a [str] yields one-character strings, written [[c]]. *)
Abbreviation char := N (only parsing).
Abbreviation str := (list N) (only parsing).

(** An ASCII literal as a Python [str]. *)
Definition py (s : string) : str :=
  (λ a : ascii, N_of_ascii a) <$> list_ascii_of_string s.

Module Ch.
Definition space : char := 32%N.      (* ' ' *)
Definition lparen : char := 40%N.     (* '(' *)
Definition rparen : char := 41%N.     (* ')' *)
Definition star : char := 42%N.       (* '*' *)
Definition plus : char := 43%N.       (* '+' *)
Definition backslash : char := 92%N.  (* '\\' *)
Definition e : char := 101%N.         (* 'e' *)
Definition bar : char := 124%N.       (* '|' *)
Definition epsilon : char := 949%N.   (* 'ε', U+03B5 *)
End Ch.

(** The reserved symbol ['ε'], a one-character [str]. *)
Definition EPS : str := [Ch.epsilon].

(** ** Exceptions and the method monad *)

(** The exceptions the modelled code raises.  A [ValueError] keeps the data
    its message is formatted from. *)
Inductive value_error : Type :=
| ExpectedRParen (pos : nat)
    (* f"Expected ')' at position {self.pos}" *)
| UnexpectedChar (c : option char) (pos : nat)
    (* f"Unexpected character '{char}' at position {self.pos}" *)
| DfaTransitionExists (from_state symbol : str)
    (* f"DFA transition already exists: {from_state} --{symbol}--> ..." *)
| MealyNeedsOutput
    (* "Mealy machine transitions must have output" *)
| StateDoesNotExist (state : str).
    (* f"State '{state}' does not exist" *)

Inductive exn : Type :=
| ValueError (v : value_error)
| AttributeError (attr : string)
    (* '...' object has no attribute '<attr>' *)
| TypeError (callee kw : string)
    (* <callee>() got an unexpected keyword argument '<kw>' *)
| KeyError
| StopIteration.

(** What running a piece of code gives: a value, a raised exception, or,
    for the fuelled loops, no answer within the fuel. *)
Inductive outcome (A : Type) : Type :=
| Ok (a : A)
| Raise (e : exn)
| Timeout.
Arguments Ok {A} a.
Arguments Raise {A} e.
Arguments Timeout {A}.

(** A computation over a mutable object of type [S]: the outcome and the
    object as the computation leaves it (mutations made before a [raise]
    stay). *)
Definition M (S A : Type) : Type := S → outcome A * S.

Definition ret {S A} (a : A) : M S A := λ s, (Ok a, s).
Definition raise {S A} (e : exn) : M S A := λ s, (Raise e, s).
Definition timeout {S A} : M S A := λ s, (Timeout, s).
Definition bind {S A B} (c : M S A) (k : A → M S B) : M S B :=
  λ s, match c s with
       | (Ok a, s') => k a s'
       | (Raise e, s') => (Raise e, s')
       | (Timeout, s') => (Timeout, s')
       end.
Definition get {S} : M S S := λ s, (Ok s, s).
Definition gets {S A} (f : S → A) : M S A := λ s, (Ok (f s), s).
Definition modify {S} (f : S → S) : M S unit := λ s, (Ok tt, f s).

Declare Scope py_scope.
Delimit Scope py_scope with py.
Notation "x <- c ; k" := (bind c (λ x, k))
  (at level 20, c at level 100, k at level 200, only parsing) : py_scope.
Notation "' pat <- c ; k" := (bind c (λ x, match x with pat => k end))
  (at level 20, pat pattern, c at level 100, k at level 200, only parsing)
  : py_scope.
Notation "c >> k" := (bind c (λ _, k))
  (at level 100, k at level 200, only parsing, right associativity) : py_scope.
Local Open Scope py_scope.
Set Warnings "-clear-no-such-hyp".

(** [for x in xs: body x] *)
Fixpoint for_each {S A} (xs : list A) (body : A → M S unit) : M S unit :=
  match xs with
  | [] => ret tt
  | x :: xs' => body x >> for_each xs' body
  end.

(** [for x in xs: acc = body acc x] *)
Fixpoint fold_each {S A B} (xs : list A) (acc : B) (body : B → A → M S B)
    : M S B :=
  match xs with
  | [] => ret acc
  | x :: xs' => acc' <- body acc x ; fold_each xs' acc' body
  end.

(** ** [algorithms/regex_parser.py] *)

(** [RegexNode]: the [type] tag with the fields each tag uses. *)
Inductive RegexNode : Type :=
| CHAR (value : char)
| EPSILON
| CONCAT (left right : RegexNode)
| OR (left right : RegexNode)
| STAR (left : RegexNode)
| PLUS (left : RegexNode).

(** [RegexParser]: the text (spaces removed) and the cursor. *)
Record RegexParser : Type := mkParser { regex : str; pos : nat }.

Module Parser.

(** [RegexParser.__init__]: [regex.replace(' ', '')], cursor at 0. *)
Definition init (text : str) : RegexParser :=
  mkParser (filter (λ c, c ≠ Ch.space) text) 0.

Definition peek : M RegexParser (option char) :=
  gets (λ p, regex p !! pos p).

Definition consume : M RegexParser (option char) :=
  λ p, match regex p !! pos p with
       | Some c => (Ok (Some c), mkParser (regex p) (S (pos p)))
       | None => (Ok None, p)
       end.

(** [char in ')|'], [char in '*+'], [char in ')|*+'] for a one-character
    string. *)
Definition in_rparen_bar (c : char) : bool :=
  bool_decide (c = Ch.rparen) || bool_decide (c = Ch.bar).
Definition in_star_plus (c : char) : bool :=
  bool_decide (c = Ch.star) || bool_decide (c = Ch.plus).
Definition in_reserved (c : char) : bool :=
  in_rparen_bar c || in_star_plus c.

(** [nodes[0]] folded with [CONCAT] over [nodes[1:]]. *)
Definition concat_tree (first : RegexNode) (rest : list RegexNode) : RegexNode :=
  foldl CONCAT first rest.

(** The [while char and char in '*+'] loop of [parse_star].  [n] is
    fuel: every call and every loop iteration spends one unit. *)
Fixpoint parse_star_loop (n : nat) (node : RegexNode) (c : option char)
    : M RegexParser RegexNode :=
  match n with
  | 0 => timeout
  | S n =>
      match c with
      | Some c' =>
          if in_star_plus c' then
            op <- consume ;
            let node' := if bool_decide (op = Some Ch.star)
                         then STAR node else PLUS node in
            c'' <- peek ;
            parse_star_loop n node' c''
          else ret node
      | None => ret node
      end
  end.

(** The four mutually recursive methods, with the [while] loops of
    [parse_or] and [parse_concat]. *)
Fixpoint parse_or (n : nat) : M RegexParser RegexNode :=
  match n with
  | 0 => timeout
  | S n =>
      left <- parse_concat n ;
      parse_or_loop n left
  end
with parse_or_loop (n : nat) (left : RegexNode) : M RegexParser RegexNode :=
  match n with
  | 0 => timeout
  | S n =>
      c <- peek ;
      if bool_decide (c = Some Ch.bar) then
        consume >>
        right <- parse_concat n ;
        parse_or_loop n (OR left right)
      else ret left
  end
with parse_concat (n : nat) : M RegexParser RegexNode :=
  match n with
  | 0 => timeout
  | S n =>
      nodes <- parse_concat_loop n [] ;
      match nodes with
      | [] => ret EPSILON
      | first :: rest => ret (concat_tree first rest)
      end
  end
with parse_concat_loop (n : nat) (nodes : list RegexNode)
    : M RegexParser (list RegexNode) :=
  match n with
  | 0 => timeout
  | S n =>
      c <- peek ;
      match c with
      | Some c' =>
          if in_rparen_bar c' then ret nodes
          else
            node <- parse_star n ;
            parse_concat_loop n (nodes ++ [node])
      | None => ret nodes
      end
  end
with parse_star (n : nat) : M RegexParser RegexNode :=
  match n with
  | 0 => timeout
  | S n =>
      node <- parse_base n ;
      c <- peek ;
      parse_star_loop n node c
  end
with parse_base (n : nat) : M RegexParser RegexNode :=
  match n with
  | 0 => timeout
  | S n =>
      c <- peek ;
      p <- get ;
      if bool_decide (c = Some Ch.lparen) then
        consume >>
        node <- parse_or n ;
        c2 <- peek ;
        if bool_decide (c2 = Some Ch.rparen) then
          consume >> ret node
        else
          p2 <- get ;
          raise (ValueError (ExpectedRParen (pos p2)))
      else if bool_decide (c = Some Ch.epsilon)
              || (bool_decide (c = Some Ch.backslash)
                  && bool_decide (regex p !! (pos p + 1) = Some Ch.e)) then
        (if bool_decide (c = Some Ch.backslash) then
           consume >> consume >> ret tt
         else
           consume >> ret tt) >>
        ret EPSILON
      else
        match c with
        | Some c' =>
            if negb (in_reserved c') then
              consume >> ret (CHAR c')
            else raise (ValueError (UnexpectedChar c (pos p)))
        | None => raise (ValueError (UnexpectedChar c (pos p)))
        end
  end.

(** Fuel that always suffices (see [ParserFacts.parse_regex_post]): five
    calls separate one consumed character from the next. *)
Definition fuel (p : RegexParser) : nat := 5 * (length (regex p) - pos p) + 5.

(** [RegexParser.parse] *)
Definition parse : M RegexParser RegexNode :=
  p <- get ; parse_or (fuel p).

End Parser.

(** [parse_regex(regex)]: the parser object is local to the call, so only
    the outcome is observable. *)
Definition parse_regex (text : str) : outcome RegexNode :=
  match text with
  | [] => Ok EPSILON
  | _ => fst (Parser.parse (Parser.init text))
  end.

(** ** [models/automaton.py] *)

Record State : Type := mkState {
  name : str;
  is_accept : bool;
  is_start : bool;
}.

Record Transition : Type := mkTransition {
  from_state : str;
  to_state : str;
  symbol : str;
  output : option str;
}.

(** The messages of the [validate] methods, with the data each is
    formatted from. *)
Inductive validation : Type :=
| NoStatesDefined                       (* "No states defined" *)
| NoStartStateDefined                   (* "No start state defined" *)
| StartStateNotInStates (q : str)       (* f"Start state '{...}' not in states" *)
| TransitionFromUndefined (q : str)     (* f"Transition from undefined state '{...}'" *)
| TransitionToUndefined (q : str)       (* f"Transition to undefined state '{...}'" *)
| Valid                                 (* "Valid" *)
| NonDeterministic (q symbol : str)     (* f"Non-deterministic transition: {..} --{..}-->" *)
| ValidDFA                              (* "Valid DFA" *)
| NoOutputDefined (q : str)             (* f"State '{...}' has no output defined" *)
| ValidMoore.                           (* "Valid Moore machine" *)

(** The fields of the base class [Automaton], with the fields [own] that a
    subclass adds in its [__init__].  [states] is the dict from names to
    [State] objects. *)
Record Automaton (X : Type) : Type := mkAutomaton {
  states : gmap str State;
  alphabet : gset str;
  start_state : option str;
  accept_states : gset str;
  transitions : list Transition;
  own : X;
}.
Arguments mkAutomaton {X}.
Arguments states {X}.
Arguments alphabet {X}.
Arguments start_state {X}.
Arguments accept_states {X}.
Arguments transitions {X}.
Arguments own {X}.

Module Automaton.
Section methods.
Context {X : Type}.
Implicit Type a : Automaton X.

Definition set_states (f : gmap str State → gmap str State) a : Automaton X :=
  mkAutomaton (f (states a)) (alphabet a) (start_state a) (accept_states a)
              (transitions a) (own a).
Definition set_alphabet (f : gset str → gset str) a : Automaton X :=
  mkAutomaton (states a) (f (alphabet a)) (start_state a) (accept_states a)
              (transitions a) (own a).
Definition set_start_state (s : option str) a : Automaton X :=
  mkAutomaton (states a) (alphabet a) s (accept_states a)
              (transitions a) (own a).
Definition set_accept_states (f : gset str → gset str) a : Automaton X :=
  mkAutomaton (states a) (alphabet a) (start_state a) (f (accept_states a))
              (transitions a) (own a).
Definition set_transitions (f : list Transition → list Transition) a : Automaton X :=
  mkAutomaton (states a) (alphabet a) (start_state a) (accept_states a)
              (f (transitions a)) (own a).
Definition set_own (f : X → X) a : Automaton X :=
  mkAutomaton (states a) (alphabet a) (start_state a) (accept_states a)
              (transitions a) (f (own a)).

(** [Automaton.__init__] *)
Definition new_automaton (x : X) : Automaton X :=
  mkAutomaton ∅ ∅ None ∅ [] x.

(** [Automaton.add_state(name, is_accept=False, is_start=False)] *)
Definition add_state (name : str) (is_accept is_start : bool)
    : M (Automaton X) State :=
  let state := mkState name is_accept is_start in
  modify (set_states <[name := state]>) >>
  (if is_accept then modify (set_accept_states (λ s, s ∪ {[name]}))
   else ret tt) >>
  (if is_start then modify (set_start_state (Some name)) else ret tt) >>
  ret state.

(** [Automaton.add_transition(from_state, to_state, symbol, output=None)] *)
Definition add_transition (from_state to_state symbol : str)
    (output : option str) : M (Automaton X) unit :=
  (if bool_decide (symbol ≠ EPS)
   then modify (set_alphabet (λ s, s ∪ {[symbol]})) else ret tt) >>
  modify (set_transitions (λ l, l ++ [mkTransition from_state to_state symbol output])).

(** [Automaton.get_state_count] *)
Definition get_state_count a : nat := size (states a).

(** [Automaton.get_transition_count] *)
Definition get_transition_count a : nat := length (transitions a).

(** The [for trans in self.transitions] loop of [Automaton.validate]. *)
Fixpoint validate_transitions a (l : list Transition) : bool * validation :=
  match l with
  | [] => (true, Valid)
  | trans :: l =>
      if bool_decide (from_state trans ∉ dom (states a)) then
        (false, TransitionFromUndefined (from_state trans))
      else if bool_decide (to_state trans ∉ dom (states a)) then
        (false, TransitionToUndefined (to_state trans))
      else validate_transitions a l
  end.

(** [Automaton.validate] *)
Definition validate a : bool * validation :=
  if bool_decide (states a = ∅) then (false, NoStatesDefined)
  else
    match start_state a with
    | None => (false, NoStartStateDefined)
    | Some q =>
        if bool_decide (q ∉ dom (states a)) then (false, StartStateNotInStates q)
        else validate_transitions a (transitions a)
    end.
End methods.
End Automaton.
Import Automaton.

(** ** [models/dfa.py] *)

(** [DFA]: [_transition_table : Dict[Tuple[str, str], str]]. *)
Definition DFA : Type := Automaton (gmap (str * str) str).

Module DFA.
Definition new : DFA := new_automaton ∅.

(** [DFA.add_transition] *)
Definition add_transition (from_state to_state symbol : str)
    (output : option str) : M DFA unit :=
  let key := (from_state, symbol) in
  self <- get ;
  if bool_decide (key ∈ dom (own self)) then
    raise (ValueError (DfaTransitionExists from_state symbol))
  else
    Automaton.add_transition from_state to_state symbol output >>
    modify (set_own <[key := to_state]>).

(** [DFA.get_next_state] *)
Definition get_next_state (self : DFA) (current_state symbol : str)
    : option str :=
  own self !! (current_state, symbol).

(** The [for symbol in input_string] loop of [DFA.accepts]. *)
Fixpoint accepts_from (self : DFA) (current_state : str) (input : str) : bool :=
  match input with
  | [] => bool_decide (current_state ∈ accept_states self)
  | c :: input' =>
      match get_next_state self current_state [c] with
      | None => false
      | Some next_state => accepts_from self next_state input'
      end
  end.

(** [DFA.accepts] *)
Definition accepts (self : DFA) (input_string : str) : bool :=
  match start_state self with
  | None => false
  | Some q => accepts_from self q input_string
  end.

Definition REJECT : str := py "REJECT".

Fixpoint steps_from (self : DFA) (current_state : str) (input : str)
    : list (str * str * str) :=
  match input with
  | [] => []
  | c :: input' =>
      match get_next_state self current_state [c] with
      | None => [(current_state, [c], REJECT)]
      | Some next_state =>
          (current_state, [c], next_state) :: steps_from self next_state input'
      end
  end.

(** [DFA.simulate_step_by_step] *)
Definition simulate_step_by_step (self : DFA) (input_string : str)
    : list (str * str * str) :=
  match start_state self with
  | None => []
  | Some q => steps_from self q input_string
  end.

(** [DFA.get_transition_function]: the nested dictionary. *)
Definition get_transition_function (self : DFA) : gmap str (gmap str str) :=
  foldl (λ result '((from_state, symbol), to_state),
           <[from_state := <[symbol := to_state]> (default ∅ (result !! from_state))]> result)
        ∅ (map_to_list (own self)).

(** The [for trans in self.transitions] loop of [DFA.validate]. *)
Fixpoint check_determinism (seen : gset (str * str)) (l : list Transition)
    : bool * validation :=
  match l with
  | [] => (true, ValidDFA)
  | trans :: l =>
      let key := (from_state trans, symbol trans) in
      if bool_decide (key ∈ seen) then
        (false, NonDeterministic (from_state trans) (symbol trans))
      else check_determinism (seen ∪ {[key]}) l
  end.

(** [DFA.validate] *)
Definition validate (self : DFA) : bool * validation :=
  let '(is_valid, msg) := Automaton.validate self in
  if negb is_valid then (false, msg)
  else check_determinism ∅ (transitions self).

(** [DFA.is_complete] *)
Definition is_complete (self : DFA) : bool :=
  forallb (λ state,
             forallb (λ symbol, bool_decide ((state, symbol) ∈ dom (own self)))
                     (elements (alphabet self)))
          (elements (dom (states self))).
End DFA.

(** ** [models/nfa.py] *)

(** [NFA]: [_transition_table : defaultdict(set)].  [EpsilonNFA] adds no
    field. *)
Definition NFA : Type := Automaton (gmap (str * str) (gset str)).
Definition EpsilonNFA : Type := NFA.

Module NFA.
Definition new : NFA := new_automaton ∅.

(** [NFA.add_transition]: [self._transition_table[key].add(to_state)] on
    a [defaultdict(set)]. *)
Definition add_transition (from_state to_state symbol : str)
    (output : option str) : M NFA unit :=
  Automaton.add_transition from_state to_state symbol output >>
  modify (set_own (λ t,
    <[(from_state, symbol) := default ∅ (t !! (from_state, symbol)) ∪ {[to_state]}]> t)).

(** [NFA.get_next_states]: [self._transition_table.get(key, set())] *)
Definition get_next_states (self : NFA) (current_state symbol : str)
    : gset str :=
  default ∅ (own self !! (current_state, symbol)).

(** [next_states = set(); for state in current_states:
     next_states.update(self.get_next_states(state, symbol))] *)
Definition move (self : NFA) (current_states : gset str) (symbol : str)
    : gset str :=
  foldl (λ next_states state, next_states ∪ get_next_states self state symbol)
        ∅ (elements current_states).

Fixpoint accepts_from (self : NFA) (current_states : gset str) (input : str)
    : bool :=
  match input with
  | [] => bool_decide (current_states ∩ accept_states self ≠ ∅)
  | c :: input' =>
      let next_states := move self current_states [c] in
      if bool_decide (next_states = ∅) then false
      else accepts_from self next_states input'
  end.

(** [NFA.accepts] *)
Definition accepts (self : NFA) (input_string : str) : bool :=
  match start_state self with
  | None => false
  | Some q => accepts_from self {[q]} input_string
  end.

Fixpoint steps_from (self : NFA) (current_states : gset str) (input : str)
    : list (gset str * str * gset str) :=
  match input with
  | [] => []
  | c :: input' =>
      let next_states := move self current_states [c] in
      (current_states, [c], next_states)
      :: (if bool_decide (next_states = ∅) then []
          else steps_from self next_states input')
  end.

(** [NFA.simulate_step_by_step] *)
Definition simulate_step_by_step (self : NFA) (input_string : str)
    : list (gset str * str * gset str) :=
  match start_state self with
  | None => []
  | Some q => steps_from self {[q]} input_string
  end.

(** [NFA.get_transition_function]: [list(to_states)] for each key. *)
Definition get_transition_function (self : NFA) : gmap str (gmap str (list str)) :=
  foldl (λ result '((from_state, symbol), to_states),
           <[from_state := <[symbol := elements (to_states : gset str)]>
                             (default ∅ (result !! from_state))]> result)
        ∅ (map_to_list (own self)).
End NFA.

Module EpsilonNFA.
Definition new : EpsilonNFA := NFA.new.

(** One pass of the [for next_state in epsilon_transitions] loop. *)
Definition visit (acc : gset str * list str) (next_state : str)
    : gset str * list str :=
  let '(closure, queue) := acc in
  if bool_decide (next_state ∉ closure)
  then (closure ∪ {[next_state]}, queue ++ [next_state])
  else (closure, queue).

(** The [while queue] loop of [EpsilonNFA.epsilon_closure]; [n] is fuel. *)
Fixpoint closure_loop (n : nat) (self : EpsilonNFA)
    (closure : gset str) (queue : list str) : option (gset str) :=
  match queue with
  | [] => Some closure
  | state :: queue' =>
      match n with
      | 0 => None
      | S n =>
          let epsilon_transitions := NFA.get_next_states self state EPS in
          let '(closure', queue'') :=
            foldl visit (closure, queue') (elements epsilon_transitions) in
          closure_loop n self closure' queue''
      end
  end.

(** Every state enters the queue at most once after the initial ones, and
    only targets of transitions enter it: this fuel suffices (see
    [EpsilonNFAFacts.epsilon_closure_total]). *)
Definition all_targets (self : EpsilonNFA) : gset str :=
  ⋃ ((map_to_list (own self)).*2).
Definition closure_fuel (self : EpsilonNFA) (states : gset str) : nat :=
  size states + size (all_targets self).

(** [EpsilonNFA.epsilon_closure] *)
Definition epsilon_closure (self : EpsilonNFA) (states : gset str)
    : option (gset str) :=
  closure_loop (closure_fuel self states) self states (elements states).

Fixpoint accepts_from (self : EpsilonNFA) (current_states : gset str)
    (input : str) : option bool :=
  match input with
  | [] => Some (bool_decide (current_states ∩ accept_states self ≠ ∅))
  | c :: input' =>
      let next_states := NFA.move self current_states [c] in
      if bool_decide (next_states = ∅) then Some false
      else
        match epsilon_closure self next_states with
        | Some current_states' => accepts_from self current_states' input'
        | None => None
        end
  end.

(** [EpsilonNFA.accepts]; [None] when a closure loop runs out of fuel. *)
Definition accepts (self : EpsilonNFA) (input_string : str) : option bool :=
  match start_state self with
  | None => Some false
  | Some q =>
      match epsilon_closure self {[q]} with
      | Some current_states => accepts_from self current_states input_string
      | None => None
      end
  end.

Fixpoint steps_from (self : EpsilonNFA) (current_states : gset str)
    (input : str) : option (list (gset str * str * gset str)) :=
  match input with
  | [] => Some []
  | c :: input' =>
      let next_states := NFA.move self current_states [c] in
      match epsilon_closure self next_states with
      | Some next_states_with_epsilon =>
          let step := (current_states, [c], next_states_with_epsilon) in
          if bool_decide (next_states_with_epsilon = ∅) then Some [step]
          else (step ::.) <$> steps_from self next_states_with_epsilon input'
      | None => None
      end
  end.

(** [EpsilonNFA.simulate_step_by_step] *)
Definition simulate_step_by_step (self : EpsilonNFA) (input_string : str)
    : option (list (gset str * str * gset str)) :=
  match start_state self with
  | None => Some []
  | Some q =>
      match epsilon_closure self {[q]} with
      | Some current_states => steps_from self current_states input_string
      | None => None
      end
  end.

(** [EpsilonNFA.get_all_epsilon_transitions] *)
Definition get_all_epsilon_transitions (self : EpsilonNFA) : list (str * str) :=
  (λ trans, (from_state trans, to_state trans))
    <$> filter (λ trans, symbol trans = EPS) (transitions self).
End EpsilonNFA.

(** ** [models/pda.py] *)

Record PDATransition : Type := mkPDATransition {
  pda_from_state : str;
  pda_to_state : str;
  input_symbol : str;      (* can be 'ε' *)
  stack_pop : str;
  stack_push : list str;   (* top first *)
}.

Record PDAConfiguration : Type := mkPDAConfiguration {
  state : str;
  remaining_input : str;
  stack : list str;        (* top of stack at index 0 *)
}.

Record PDAFields : Type := mkPDAFields {
  stack_alphabet : gset str;
  start_stack_symbol : str;
  _pda_transitions : list PDATransition;
}.

Definition PDA : Type := Automaton PDAFields.

Module PDA.
(** [PDA.__init__]: the start stack symbol defaults to ['Z']. *)
Definition new : PDA := new_automaton (mkPDAFields ∅ (py "Z") []).

(** [''.join(stack_push) if stack_push else 'ε'] *)
Definition push_label (stack_push : list str) : str :=
  match stack_push with
  | [] => EPS
  | _ => concat stack_push
  end.

(** [PDA.add_pda_transition] *)
Definition add_pda_transition (from_state to_state input_symbol stack_pop : str)
    (stack_push : list str) : M PDA unit :=
  modify (set_own (λ f,
    mkPDAFields
      (foldl (λ acc symbol, if bool_decide (symbol ≠ EPS)
                            then acc ∪ {[symbol]} else acc)
             (stack_alphabet f ∪ {[stack_pop]}) stack_push)
      (start_stack_symbol f) (_pda_transitions f))) >>
  (if bool_decide (input_symbol ≠ EPS)
   then modify (set_alphabet (λ s, s ∪ {[input_symbol]})) else ret tt) >>
  modify (set_own (λ f,
    mkPDAFields (stack_alphabet f) (start_stack_symbol f)
      (_pda_transitions f
       ++ [mkPDATransition from_state to_state input_symbol stack_pop stack_push]))) >>
  let label := input_symbol ++ py "," ++ stack_pop ++ py "/" ++ push_label stack_push in
  Automaton.add_transition from_state to_state label None.

(** [PDA.get_applicable_transitions(state, input_symbol, stack_top)] *)
Definition get_applicable_transitions (self : PDA) (state : str)
    (input_symbol' stack_top : option str) : list PDATransition :=
  filter (λ trans,
            pda_from_state trans = state
            ∧ Some (stack_pop trans) = stack_top
            ∧ (Some (input_symbol trans) = input_symbol'
               ∨ input_symbol trans = EPS))
         (_pda_transitions (own self)).

(** [config.remaining_input[0] if config.remaining_input else None] and
    [config.stack[0] if config.stack else None] *)
Definition current_symbol (config : PDAConfiguration) : option str :=
  match remaining_input config with
  | [] => None
  | c :: _ => Some [c]
  end.
Definition stack_top (config : PDAConfiguration) : option str :=
  head (stack config).

(** The configuration after [trans]: pop, push [stack_push] in reverse
    onto the front (skipping ['ε']), consume one input character unless
    the transition is an ε-transition. *)
Definition apply_transition (config : PDAConfiguration) (trans : PDATransition)
    : PDAConfiguration :=
  let new_stack :=
    foldl (λ new_stack symbol,
             if bool_decide (symbol ≠ EPS) then symbol :: new_stack
             else new_stack)
          (tail (stack config)) (reverse (stack_push trans)) in
  let new_input :=
    if bool_decide (input_symbol trans ≠ EPS)
    then tail (remaining_input config)
    else remaining_input config in
  mkPDAConfiguration (pda_to_state trans) new_input new_stack.

(** [config.state in self.accept_states and not config.remaining_input] *)
Definition accepting (self : PDA) (config : PDAConfiguration) : bool :=
  bool_decide (state config ∈ accept_states self)
  && bool_decide (remaining_input config = []).

Definition config_key (config : PDAConfiguration) : str * str * list str :=
  (state config, remaining_input config, stack config).

(** The [while queue] loop of [PDA.accepts]: breadth-first search with a
    visited set.  The source puts no bound on it; [n] is the number of
    iterations the model runs before it answers [Timeout]. *)
Fixpoint accepts_loop (n : nat) (self : PDA)
    (queue : list PDAConfiguration) (visited : gset (str * str * list str))
    : outcome bool :=
  match queue with
  | [] => Ok false
  | config :: queue =>
      match n with
      | 0 => Timeout
      | S n =>
          if bool_decide (config_key config ∈ visited) then
            accepts_loop n self queue visited
          else
            let visited := visited ∪ {[config_key config]} in
            if accepting self config then Ok true
            else
              match stack_top config with
              | None => accepts_loop n self queue visited
              | Some top =>
                  let transitions :=
                    get_applicable_transitions self (state config)
                      (current_symbol config) (Some top) in
                  accepts_loop n self
                    (queue ++ (apply_transition config <$> transitions))
                    visited
              end
      end
  end.

Definition initial_config (self : PDA) (q : str) (input_string : str)
    : PDAConfiguration :=
  mkPDAConfiguration q input_string [start_stack_symbol (own self)].

(** [PDA.accepts], run for at most [n] iterations of its loop. *)
Definition accepts (n : nat) (self : PDA) (input_string : str) : outcome bool :=
  match start_state self with
  | None => Ok false
  | Some q => accepts_loop n self [initial_config self q input_string] ∅
  end.

(** The [for _ in range(max_steps)] loop of [simulate_step_by_step]; it
    returns the entries appended to [path]. *)
Fixpoint path_from (max_steps : nat) (self : PDA) (config : PDAConfiguration)
    : list (PDAConfiguration * option PDATransition) :=
  match max_steps with
  | 0 => []
  | S max_steps =>
      if accepting self config then []
      else
        match stack_top config with
        | None => []
        | Some top =>
            match get_applicable_transitions self (state config)
                    (current_symbol config) (Some top) with
            | [] => []
            | trans :: _ =>
                let config' := apply_transition config trans in
                (config', Some trans) :: path_from max_steps self config'
            end
        end
  end.

(** [PDA.simulate_step_by_step(input_string, max_steps=100)] *)
Definition simulate_step_by_step (self : PDA) (input_string : str)
    (max_steps : nat) : list (PDAConfiguration * option PDATransition) :=
  match start_state self with
  | None => []
  | Some q =>
      let initial := initial_config self q input_string in
      (initial, None) :: path_from max_steps self initial
  end.
End PDA.

(** ** [models/mealy_moore.py] *)

(** [MealyMachine]: [output_alphabet] and
    [_transition_table : (state, input) -> (next_state, output)]. *)
Record MealyFields : Type := mkMealyFields {
  mealy_output_alphabet : gset str;
  mealy_table : gmap (str * str) (str * str);
}.
Definition MealyMachine : Type := Automaton MealyFields.

Module MealyMachine.
Definition new : MealyMachine := new_automaton (mkMealyFields ∅ ∅).

(** [MealyMachine.add_transition] *)
Definition add_transition (from_state to_state symbol : str)
    (output : option str) : M MealyMachine unit :=
  match output with
  | None => raise (ValueError MealyNeedsOutput)
  | Some out =>
      Automaton.add_transition from_state to_state symbol output >>
      modify (set_own (λ f,
        mkMealyFields (mealy_output_alphabet f ∪ {[out]})
                      (<[(from_state, symbol) := (to_state, out)]> (mealy_table f))))
  end.

Definition get_next_state_and_output (self : MealyMachine)
    (current_state symbol : str) : option (str * str) :=
  mealy_table (own self) !! (current_state, symbol).

Fixpoint process_from (self : MealyMachine) (current_state : str)
    (outputs : list str) (input : str) : bool * list str :=
  match input with
  | [] => (true, outputs)
  | c :: input' =>
      match get_next_state_and_output self current_state [c] with
      | None => (false, outputs)
      | Some (next_state, output) =>
          process_from self next_state (outputs ++ [output]) input'
      end
  end.

(** [MealyMachine.process_input] *)
Definition process_input (self : MealyMachine) (input_string : str)
    : bool * list str :=
  match start_state self with
  | None => (false, [])
  | Some q => process_from self q [] input_string
  end.

Definition ERROR : str := py "ERROR".

Fixpoint steps_from (self : MealyMachine) (current_state : str) (input : str)
    : list (str * str * str * str) :=
  match input with
  | [] => []
  | c :: input' =>
      match get_next_state_and_output self current_state [c] with
      | None => [(current_state, [c], ERROR, ERROR)]
      | Some (next_state, output) =>
          (current_state, [c], output, next_state)
          :: steps_from self next_state input'
      end
  end.

(** [MealyMachine.simulate_step_by_step] *)
Definition simulate_step_by_step (self : MealyMachine) (input_string : str)
    : list (str * str * str * str) :=
  match start_state self with
  | None => []
  | Some q => steps_from self q input_string
  end.

(** [MealyMachine.accepts] *)
Definition accepts (self : MealyMachine) (input_string : str) : bool :=
  fst (process_input self input_string).

(** [MealyMachine.get_transition_function]: the inner dictionary
    [{'next_state': ..., 'output': ...}] as a pair. *)
Definition get_transition_function (self : MealyMachine)
    : gmap str (gmap str (str * str)) :=
  foldl (λ result '((from_state, symbol), (to_state, output)),
           <[from_state := <[symbol := (to_state, output)]>
                             (default ∅ (result !! from_state))]> result)
        ∅ (map_to_list (mealy_table (own self))).
End MealyMachine.

(** [MooreMachine]: [output_alphabet], [state_outputs] and
    [_transition_table : (state, input) -> next_state]. *)
Record MooreFields : Type := mkMooreFields {
  moore_output_alphabet : gset str;
  state_outputs : gmap str str;
  moore_table : gmap (str * str) str;
}.
Definition MooreMachine : Type := Automaton MooreFields.

Module MooreMachine.
Definition new : MooreMachine := new_automaton (mkMooreFields ∅ ∅ ∅).

(** [MooreMachine.set_state_output] *)
Definition set_state_output (state output : str) : M MooreMachine unit :=
  self <- get ;
  if bool_decide (state ∉ dom (states self)) then
    raise (ValueError (StateDoesNotExist state))
  else
    modify (set_own (λ f,
      mkMooreFields (moore_output_alphabet f ∪ {[output]})
                    (<[state := output]> (state_outputs f))
                    (moore_table f))).

(** [MooreMachine.add_transition]: the output argument is ignored. *)
Definition add_transition (from_state to_state symbol : str)
    (output : option str) : M MooreMachine unit :=
  Automaton.add_transition from_state to_state symbol None >>
  modify (set_own (λ f,
    mkMooreFields (moore_output_alphabet f) (state_outputs f)
                  (<[(from_state, symbol) := to_state]> (moore_table f)))).

Definition get_next_state (self : MooreMachine) (current_state symbol : str)
    : option str :=
  moore_table (own self) !! (current_state, symbol).

(** [self.state_outputs.get(state, "")] *)
Definition output_of (self : MooreMachine) (state : str) : str :=
  default [] (state_outputs (own self) !! state).

Fixpoint process_from (self : MooreMachine) (current_state : str)
    (outputs : list str) (input : str) : bool * list str :=
  match input with
  | [] => (true, outputs)
  | c :: input' =>
      match get_next_state self current_state [c] with
      | None => (false, outputs)
      | Some next_state =>
          process_from self next_state
            (outputs ++ [output_of self next_state]) input'
      end
  end.

(** [MooreMachine.process_input] *)
Definition process_input (self : MooreMachine) (input_string : str)
    : bool * list str :=
  match start_state self with
  | None => (false, [])
  | Some q => process_from self q [output_of self q] input_string
  end.

Definition ERROR : str := py "ERROR".

Fixpoint steps_from (self : MooreMachine) (current_state : str) (input : str)
    : list (str * str * str * str) :=
  match input with
  | [] => []
  | c :: input' =>
      match get_next_state self current_state [c] with
      | None => [(current_state, [c], ERROR, ERROR)]
      | Some next_state =>
          (current_state, [c], next_state, output_of self next_state)
          :: steps_from self next_state input'
      end
  end.

(** [MooreMachine.simulate_step_by_step] *)
Definition simulate_step_by_step (self : MooreMachine) (input_string : str)
    : list (str * str * str * str) :=
  match start_state self with
  | None => []
  | Some q => steps_from self q input_string
  end.

(** [MooreMachine.accepts] *)
Definition accepts (self : MooreMachine) (input_string : str) : bool :=
  fst (process_input self input_string).

(** [MooreMachine.get_state_output] *)
Definition get_state_output (self : MooreMachine) (state : str) : option str :=
  state_outputs (own self) !! state.

(** [MooreMachine.get_transition_function] *)
Definition get_transition_function (self : MooreMachine) : gmap str (gmap str str) :=
  foldl (λ result '((from_state, symbol), to_state),
           <[from_state := <[symbol := to_state]> (default ∅ (result !! from_state))]> result)
        ∅ (map_to_list (moore_table (own self))).

(** The [for state_name in self.states] loop of [MooreMachine.validate]. *)
Fixpoint check_outputs (self : MooreMachine) (l : list str) : bool * validation :=
  match l with
  | [] => (true, ValidMoore)
  | state_name :: l =>
      if bool_decide (state_name ∉ dom (state_outputs (own self))) then
        (false, NoOutputDefined state_name)
      else check_outputs self l
  end.

(** [MooreMachine.validate].  The source walks [self.states] in insertion
    order, the model in the order of [elements]: when several states have
    no output, the message may name another of them; the verdict is the
    same. *)
Definition validate (self : MooreMachine) : bool * validation :=
  let '(is_valid, msg) := Automaton.validate self in
  if negb is_valid then (false, msg)
  else check_outputs self (elements (dom (states self))).
End MooreMachine.

(** ** [visualization/simulator.py] *)

(** [SimulationResult]; [Step] is the type of the entries of [steps]. *)
Record SimulationResult (Step : Type) : Type := mkSimulationResult {
  accepted : bool;
  steps : list Step;
  final_output : option (list str);
}.
Arguments mkSimulationResult {Step}.
Arguments accepted {Step}.
Arguments steps {Step}.
Arguments final_output {Step}.

Module Simulator.
Definition _simulate_dfa (dfa : DFA) (input_string : str)
    : SimulationResult (str * str * str) :=
  let steps := DFA.simulate_step_by_step dfa input_string in
  let accepted := DFA.accepts dfa input_string in
  mkSimulationResult accepted steps None.

Definition _simulate_nfa (nfa : NFA) (input_string : str)
    : SimulationResult (gset str * str * gset str) :=
  let steps := NFA.simulate_step_by_step nfa input_string in
  let accepted := NFA.accepts nfa input_string in
  mkSimulationResult accepted steps None.

(** [None] when a closure loop runs out of fuel. *)
Definition _simulate_epsilon_nfa (enfa : EpsilonNFA) (input_string : str)
    : option (SimulationResult (gset str * str * gset str)) :=
  match EpsilonNFA.simulate_step_by_step enfa input_string with
  | Some steps =>
      match EpsilonNFA.accepts enfa input_string with
      | Some accepted => Some (mkSimulationResult accepted steps None)
      | None => None
      end
  | None => None
  end.

(** [pda.simulate_step_by_step] runs with its default [max_steps=100];
    [n] bounds the loop of [pda.accepts]. *)
Definition _simulate_pda (n : nat) (pda : PDA) (input_string : str)
    : outcome (SimulationResult (PDAConfiguration * option PDATransition)) :=
  let steps := PDA.simulate_step_by_step pda input_string 100 in
  match PDA.accepts n pda input_string with
  | Ok accepted => Ok (mkSimulationResult accepted steps None)
  | Raise e => Raise e
  | Timeout => Timeout
  end.

Definition _simulate_mealy (mealy : MealyMachine) (input_string : str)
    : SimulationResult (str * str * str * str) :=
  let steps := MealyMachine.simulate_step_by_step mealy input_string in
  let '(success, outputs) := MealyMachine.process_input mealy input_string in
  mkSimulationResult success steps (Some outputs).

Definition _simulate_moore (moore : MooreMachine) (input_string : str)
    : SimulationResult (str * str * str * str) :=
  let steps := MooreMachine.simulate_step_by_step moore input_string in
  let '(success, outputs) := MooreMachine.process_input moore input_string in
  mkSimulationResult success steps (Some outputs).
End Simulator.

(** ** [algorithms/thompson.py] *)

Record ThompsonFragment : Type := mkFragment {
  frag_start : str;
  frag_accept : str;
}.

Module Thompson.
(** The variables [build_fragment] and [new_state] close over: the
    automaton under construction and [state_counter[0]]. *)
Record env : Type := mkEnv { nfa : EpsilonNFA; state_counter : nat }.

(** A method of the automaton, called on [nfa]. *)
Definition on_nfa {A} (c : M EpsilonNFA A) : M env A :=
  λ e, let '(o, nfa') := c (nfa e) in (o, mkEnv nfa' (state_counter e)).

(** [f"q{n}"] *)
Definition state_name (n : nat) : str := py ("q" +:+ pretty n).

(** [new_state()] *)
Definition new_state : M env str :=
  modify (λ e, mkEnv (nfa e) (S (state_counter e))) >>
  gets (λ e, state_name (state_counter e)).

(** [nfa.states[q].is_accept = False]: a [KeyError] when [q] is no key. *)
Definition clear_accept_flag (q : str) : M EpsilonNFA unit :=
  self <- get ;
  match states self !! q with
  | Some st =>
      modify (set_states <[q := mkState (name st) false (is_start st)]>)
  | None => raise KeyError
  end.

(** [nfa.states[q].is_start = True] *)
Definition set_start_flag (q : str) : M EpsilonNFA unit :=
  self <- get ;
  match states self !! q with
  | Some st =>
      modify (set_states <[q := mkState (name st) (is_accept st) true]>)
  | None => raise KeyError
  end.

(** [nfa.accept_states.discard(q)] *)
Definition discard_accept (q : str) : M EpsilonNFA unit :=
  modify (set_accept_states (λ s, s ∖ {[q]})).

(** [start = new_state(); accept = new_state(); nfa.add_state(start);
     nfa.add_state(accept, is_accept=True)] *)
Definition new_pair : M env (str * str) :=
  start <- new_state ;
  accept <- new_state ;
  on_nfa (add_state start false false) >>
  on_nfa (add_state accept true false) >>
  ret (start, accept).

(** [build_fragment(node)] *)
Fixpoint build_fragment (node : RegexNode) : M env ThompsonFragment :=
  match node with
  | EPSILON =>
      '(start, accept) <- new_pair ;
      on_nfa (NFA.add_transition start accept EPS None) >>
      ret (mkFragment start accept)
  | CHAR value =>
      '(start, accept) <- new_pair ;
      on_nfa (NFA.add_transition start accept [value] None) >>
      ret (mkFragment start accept)
  | CONCAT node_left node_right =>
      left_frag <- build_fragment node_left ;
      right_frag <- build_fragment node_right ;
      on_nfa (clear_accept_flag (frag_accept left_frag)) >>
      on_nfa (discard_accept (frag_accept left_frag)) >>
      on_nfa (NFA.add_transition (frag_accept left_frag)
                                 (frag_start right_frag) EPS None) >>
      ret (mkFragment (frag_start left_frag) (frag_accept right_frag))
  | OR node_left node_right =>
      left_frag <- build_fragment node_left ;
      right_frag <- build_fragment node_right ;
      '(start, accept) <- new_pair ;
      on_nfa (clear_accept_flag (frag_accept left_frag)) >>
      on_nfa (clear_accept_flag (frag_accept right_frag)) >>
      on_nfa (discard_accept (frag_accept left_frag)) >>
      on_nfa (discard_accept (frag_accept right_frag)) >>
      on_nfa (NFA.add_transition start (frag_start left_frag) EPS None) >>
      on_nfa (NFA.add_transition start (frag_start right_frag) EPS None) >>
      on_nfa (NFA.add_transition (frag_accept left_frag) accept EPS None) >>
      on_nfa (NFA.add_transition (frag_accept right_frag) accept EPS None) >>
      ret (mkFragment start accept)
  | STAR node_left =>
      inner_frag <- build_fragment node_left ;
      '(start, accept) <- new_pair ;
      on_nfa (clear_accept_flag (frag_accept inner_frag)) >>
      on_nfa (discard_accept (frag_accept inner_frag)) >>
      on_nfa (NFA.add_transition start (frag_start inner_frag) EPS None) >>
      on_nfa (NFA.add_transition start accept EPS None) >>
      on_nfa (NFA.add_transition (frag_accept inner_frag)
                                 (frag_start inner_frag) EPS None) >>
      on_nfa (NFA.add_transition (frag_accept inner_frag) accept EPS None) >>
      ret (mkFragment start accept)
  | PLUS node_left =>
      inner_frag <- build_fragment node_left ;
      '(start, accept) <- new_pair ;
      on_nfa (clear_accept_flag (frag_accept inner_frag)) >>
      on_nfa (discard_accept (frag_accept inner_frag)) >>
      on_nfa (NFA.add_transition start (frag_start inner_frag) EPS None) >>
      on_nfa (NFA.add_transition (frag_accept inner_frag)
                                 (frag_start inner_frag) EPS None) >>
      on_nfa (NFA.add_transition (frag_accept inner_frag) accept EPS None) >>
      ret (mkFragment start accept)
  end.

(** The body of [thompson_construction] after parsing. *)
Definition construct (ast : RegexNode) : M env unit :=
  fragment <- build_fragment ast ;
  on_nfa (modify (set_start_state (Some (frag_start fragment)))) >>
  on_nfa (set_start_flag (frag_start fragment)).
End Thompson.

(** [thompson_construction(regex)] *)
Definition thompson_construction (regex : str) : outcome EpsilonNFA :=
  match parse_regex regex with
  | Ok ast =>
      match Thompson.construct ast (Thompson.mkEnv EpsilonNFA.new 0) with
      | (Ok _, e) => Ok (Thompson.nfa e)
      | (Raise ex, _) => Raise ex
      | (Timeout, _) => Timeout
      end
  | Raise ex => Raise ex
  | Timeout => Timeout
  end.

(** ** [algorithms/subset_construction.py] *)

(** [stack.pop()]: the last element and the list without it. *)
Definition pop_last {A} (l : list A) : option (A * list A) :=
  match reverse l with
  | [] => None
  | x :: l' => Some (x, reverse l')
  end.

(** [any(s in accept for s in subset)] *)
Definition any_in {K : Type} `{Countable K} (subset accept : gset K) : bool :=
  bool_decide (set_Exists (λ s, s ∈ accept) subset).

Module SubsetConstruction.

(** [nfa.get_transitions(state, symbol)].  The attributes of an [NFA] are
    those of [models/nfa.py] ([add_transition], [get_next_states],
    [accepts], [simulate_step_by_step], [get_transition_function], and for
    an [EpsilonNFA] also [epsilon_closure], [get_all_epsilon_transitions])
    and of [models/automaton.py] ([add_state], [validate],
    [get_state_count], [get_transition_count] and the five fields).  None is
    [get_transitions], and no class defines [__getattr__]: the lookup
    raises before the call. *)
Definition get_transitions {St K : Type} (nfa : NFA) (state : K) (symbol : str)
    : M St (gset str) :=
  raise (AttributeError "get_transitions").

(** One pass of [for next_state in ...: if next_state not in closure]. *)
Definition visit (acc : gset str * list str) (next_state : str)
    : gset str * list str :=
  let '(closure, stack) := acc in
  if bool_decide (next_state ∉ closure)
  then (closure ∪ {[next_state]}, stack ++ [next_state])
  else (closure, stack).

(** The [while stack] loop of [epsilon_closure]; [n] is fuel. *)
Fixpoint closure_loop {St : Type} (n : nat) (nfa : EpsilonNFA)
    (closure : gset str) (stack : list str) : M St (gset str) :=
  match pop_last stack with
  | None => ret closure
  | Some (state, stack) =>
      match n with
      | 0 => timeout
      | S n =>
          targets <- get_transitions nfa state EPS ;
          let '(closure, stack) := foldl visit (closure, stack) (elements targets) in
          closure_loop n nfa closure stack
      end
  end.

(** [epsilon_closure(nfa, states)].  A state is pushed at most once after
    the initial ones, which bounds the loop. *)
Definition epsilon_closure {St : Type} (nfa : EpsilonNFA) (states0 : gset str)
    : M St (gset str) :=
  closure_loop (S (EpsilonNFA.closure_fuel nfa states0)) nfa states0
               (elements states0).

(** [next_states = set(); for s in subset:
     next_states.update(nfa.get_transitions(s, symbol))] *)
Definition move {St K : Type} `{Countable K} (nfa : NFA) (subset : gset K)
    (symbol : str) : M St (gset str) :=
  fold_each (elements subset) ∅ (λ next_states s,
    targets <- get_transitions nfa s symbol ;
    ret (next_states ∪ targets)).

(** The body of [epsilon_nfa_to_nfa], run on the new [nfa = NFA()]. *)
Definition epsilon_nfa_to_nfa_body (enfa : EpsilonNFA) : M NFA unit :=
  let names := elements (dom (states enfa)) in
  for_each names (λ state, add_state state false false >> ret tt) >>
  modify (set_start_state (start_state enfa)) >>
  for_each names (λ state,
    e_closure <- epsilon_closure enfa {[state]} ;
    (if any_in e_closure (accept_states enfa)
     then modify (set_accept_states (λ s, s ∪ {[state]})) else ret tt) >>
    for_each (elements (alphabet enfa)) (λ symbol,
      if bool_decide (symbol = EPS) then ret tt
      else
        next_states <- move enfa e_closure symbol ;
        if bool_decide (next_states ≠ ∅) then
          final_states <- epsilon_closure enfa next_states ;
          for_each (elements final_states) (λ target,
            NFA.add_transition state target symbol None)
        else ret tt)).

(** [epsilon_nfa_to_nfa(enfa)] *)
Definition epsilon_nfa_to_nfa (enfa : EpsilonNFA) : outcome NFA :=
  match epsilon_nfa_to_nfa_body enfa NFA.new with
  | (Ok _, nfa) => Ok nfa
  | (Raise e, _) => Raise e
  | (Timeout, _) => Timeout
  end.

(** The variables of [nfa_to_dfa] that [get_dfa_state] closes over.  A
    subset is a [frozenset]; the start subset [{nfa.start_state}] holds
    [None] when no start state is set. *)
Record env : Type := mkEnv {
  dfa : DFA;
  state_map : gmap (gset (option str)) str;
  state_counter : nat;
}.

Definition on_dfa {A} (c : M DFA A) : M env A :=
  λ e, let '(o, dfa') := c (dfa e) in
       (o, mkEnv dfa' (state_map e) (state_counter e)).

(** [f"q{n}"] *)
Definition state_name (n : nat) : str := py ("q" +:+ pretty n).

(** [get_dfa_state(nfa_states)] *)
Definition get_dfa_state (nfa : NFA) (nfa_states : gset (option str))
    : M env str :=
  e <- get ;
  (if bool_decide (nfa_states ∉ dom (state_map e)) then
     let counter := S (state_counter e) in
     let dfa_state := state_name counter in
     modify (λ e, mkEnv (dfa e) (<[nfa_states := dfa_state]> (state_map e)) counter) >>
     on_dfa (add_state dfa_state false false) >>
     (if any_in nfa_states (set_map Some (accept_states nfa))
      then on_dfa (modify (set_accept_states (λ s, s ∪ {[dfa_state]})))
      else ret tt)
   else ret tt) >>
  e <- get ;
  match state_map e !! nfa_states with
  | Some dfa_state => ret dfa_state
  | None => raise KeyError
  end.

(** The [while queue] loop of [nfa_to_dfa]; [n] is fuel. *)
Fixpoint dfa_loop (n : nat) (nfa : NFA)
    (queue : list (gset (option str))) (processed : gset (gset (option str)))
    : M env unit :=
  match queue with
  | [] => ret tt
  | current_set :: queue =>
      match n with
      | 0 => timeout
      | S n =>
          if bool_decide (current_set ∈ processed) then
            dfa_loop n nfa queue processed
          else
            let processed := processed ∪ {[current_set]} in
            current_dfa_state <- get_dfa_state nfa current_set ;
            queue <- fold_each (elements (alphabet nfa)) queue (λ queue symbol,
              next_states <- move nfa current_set symbol ;
              if bool_decide (next_states ≠ ∅) then
                let next_state_set : gset (option str) := set_map Some next_states in
                next_dfa_state <- get_dfa_state nfa next_state_set ;
                on_dfa (DFA.add_transition current_dfa_state next_dfa_state symbol None) >>
                if bool_decide (next_state_set ∉ processed)
                then ret (queue ++ [next_state_set])
                else ret queue
              else ret queue) ;
            dfa_loop n nfa queue processed
      end
  end.

(** [nfa_to_dfa(nfa)], with [n] iterations of fuel for its loop. *)
Definition nfa_to_dfa (n : nat) (nfa : NFA) : outcome DFA :=
  let start_state_set : gset (option str) := {[start_state nfa]} in
  let body : M env unit :=
    q <- get_dfa_state nfa start_state_set ;
    on_dfa (modify (set_start_state (Some q))) >>
    dfa_loop n nfa [start_state_set] ∅ in
  match body (mkEnv DFA.new ∅ 0) with
  | (Ok _, e) => Ok (dfa e)
  | (Raise ex, _) => Raise ex
  | (Timeout, _) => Timeout
  end.
End SubsetConstruction.

(** ** [algorithms/minimization.py] *)

Module Minimization.

(** [dfa.get_transition(state, symbol)].  The attributes of a [DFA] are
    those of [models/dfa.py] ([add_transition], [get_next_state], [accepts],
    [simulate_step_by_step], [get_transition_function], [validate],
    [is_complete]) and of [models/automaton.py].  None is [get_transition]:
    the lookup raises before the call. *)
Definition get_transition {St K : Type} (dfa : DFA) (state : K) (symbol : str)
    : M St (option str) :=
  raise (AttributeError "get_transition").

(** Truth value of an [Optional[str]]: [None] and [''] are false. *)
Definition truthy (s : option str) : bool :=
  match s with
  | Some (_ :: _) => true
  | _ => false
  end.

(** The [while stack] loop of [find_reachable_states]; [n] is fuel.  The
    stack starts as [[dfa.start_state]], which is [None] when no start
    state is set. *)
Fixpoint reachable_loop {St : Type} (n : nat) (dfa : DFA)
    (reachable : gset (option str)) (stack : list (option str))
    : M St (gset (option str)) :=
  match pop_last stack with
  | None => ret reachable
  | Some (state, stack) =>
      match n with
      | 0 => timeout
      | S n =>
          if bool_decide (state ∈ reachable) then
            reachable_loop n dfa reachable stack
          else
            let reachable := reachable ∪ {[state]} in
            stack <- fold_each (elements (alphabet dfa)) stack (λ stack symbol,
              next_state <- get_transition dfa state symbol ;
              if truthy next_state && bool_decide (next_state ∉ reachable)
              then ret (stack ++ [next_state])
              else ret stack) ;
            reachable_loop n dfa reachable stack
      end
  end.

(** [find_reachable_states(dfa)] *)
Definition find_reachable_states {St : Type} (n : nat) (dfa : DFA)
    : M St (gset (option str)) :=
  reachable_loop n dfa ∅ [start_state dfa].

(** [partition_idx]: the index of the first block holding [next_state],
    [-1] when there is none. *)
Fixpoint partition_index (all_partitions : list (gset (option str)))
    (next_state : option str) (i : Z) : Z :=
  match all_partitions with
  | [] => (-1)%Z
  | p :: ps =>
      if bool_decide (next_state ∈ p) then i
      else partition_index ps next_state (i + 1)%Z
  end.

(** [signatures[sig].add(state)] on a dict in insertion order. *)
Fixpoint add_signature (signatures : list (list Z * gset (option str)))
    (sig : list Z) (state : option str) : list (list Z * gset (option str)) :=
  match signatures with
  | [] => [(sig, {[state]})]
  | (sig', group) :: rest =>
      if bool_decide (sig' = sig) then (sig', group ∪ {[state]}) :: rest
      else (sig', group) :: add_signature rest sig state
  end.

(** [split_partition(dfa, partition, all_partitions)]; [sorted] gives the
    alphabet in one fixed order, as [elements] does. *)
Definition split_partition {St : Type} (dfa : DFA) (partition : gset (option str))
    (all_partitions : list (gset (option str)))
    : M St (list (gset (option str))) :=
  if bool_decide (size partition ≤ 1) then ret [partition]
  else
    signatures <- fold_each (elements partition) [] (λ signatures state,
      sig <- fold_each (elements (alphabet dfa)) [] (λ sig symbol,
        next_state <- get_transition dfa state symbol ;
        ret (sig ++ [partition_index all_partitions next_state 0%Z])) ;
      ret (add_signature signatures sig state)) ;
    ret (signatures.*2).

(** One [for partition in partitions] pass of the refinement. *)
Definition refine_pass {St : Type} (dfa : DFA) (partitions : list (gset (option str)))
    : M St (bool * list (gset (option str))) :=
  fold_each partitions (false, []) (λ '(changed, new_partitions) partition,
    split <- split_partition dfa partition partitions ;
    if bool_decide (1 < length split)
    then ret (true, new_partitions ++ split)
    else ret (changed, new_partitions ++ [partition])).

(** The [while changed] loop; [n] is fuel. *)
Fixpoint refine_loop {St : Type} (n : nat) (dfa : DFA)
    (partitions : list (gset (option str))) : M St (list (gset (option str))) :=
  match n with
  | 0 => timeout
  | S n =>
      '(changed, partitions) <- refine_pass dfa partitions ;
      if changed : bool then refine_loop n dfa partitions
      else ret partitions
  end.

(** The variables of [build_minimized_dfa]. *)
Record env : Type := mkEnv {
  minimized : DFA;
  state_map : gmap (option str) str;
  added_transitions : gset (str * str);
}.

Definition on_minimized {A} (c : M DFA A) : M env A :=
  λ e, let '(o, dfa') := c (minimized e) in
       (o, mkEnv dfa' (state_map e) (added_transitions e)).

(** [state_map[state]] *)
Definition lookup_state (state : option str) : M env str :=
  e <- get ;
  match state_map e !! state with
  | Some rep => ret rep
  | None => raise KeyError
  end.

(** [next(iter(partition))] *)
Definition first_of (partition : gset (option str)) : M env (option str) :=
  match elements partition with
  | state :: _ => ret state
  | [] => raise StopIteration
  end.

(** [f"q{i}"] *)
Definition state_name (i : nat) : str := py ("q" +:+ pretty i).

(** The body of [build_minimized_dfa]. *)
Definition build_body (original_dfa : DFA) (partitions : list (gset (option str)))
    : M env unit :=
  for_each (imap (λ i partition, (i, partition)) partitions) (λ '(i, partition),
    let rep := state_name i in
    on_minimized (add_state rep false false) >>
    for_each (elements partition) (λ state,
      modify (λ e, mkEnv (minimized e) (<[state := rep]> (state_map e))
                         (added_transitions e)) >>
      if bool_decide (state ∈ (set_map Some (accept_states original_dfa) : gset (option str)))
      then on_minimized (modify (set_accept_states (λ s, s ∪ {[rep]})))
      else ret tt)) >>
  (start <- lookup_state (start_state original_dfa) ;
   on_minimized (modify (set_start_state (Some start)))) >>
  for_each partitions (λ partition,
    first <- first_of partition ;
    rep_state <- lookup_state first ;
    sample_state <- first_of partition ;
    for_each (elements (alphabet original_dfa)) (λ symbol,
      next_state <- get_transition original_dfa sample_state symbol ;
      if truthy next_state then
        next_rep <- lookup_state next_state ;
        e <- get ;
        if bool_decide ((rep_state, symbol) ∉ added_transitions e) then
          on_minimized (DFA.add_transition rep_state next_rep symbol None) >>
          modify (λ e, mkEnv (minimized e) (state_map e)
                             (added_transitions e ∪ {[(rep_state, symbol)]}))
        else ret tt
      else ret tt)).

(** [build_minimized_dfa(original_dfa, partitions)] *)
Definition build_minimized_dfa (original_dfa : DFA)
    (partitions : list (gset (option str))) : outcome DFA :=
  match build_body original_dfa partitions (mkEnv DFA.new ∅ ∅) with
  | (Ok _, e) => Ok (minimized e)
  | (Raise ex, _) => Raise ex
  | (Timeout, _) => Timeout
  end.

(** [minimize_dfa(dfa)], with fuel [n] for each of its loops. *)
Definition minimize_dfa (n : nat) (dfa : DFA) : outcome DFA :=
  let partitions_of : M unit (list (gset (option str))) :=
    reachable <- find_reachable_states n dfa ;
    let accept : gset (option str) := set_map Some (accept_states dfa) in
    let accept_states := accept ∩ reachable in
    let non_accept_states := reachable ∖ accept in
    let partitions :=
      (if bool_decide (accept_states ≠ ∅) then [accept_states] else [])
      ++ (if bool_decide (non_accept_states ≠ ∅) then [non_accept_states] else []) in
    refine_loop n dfa partitions in
  match partitions_of tt with
  | (Ok partitions, _) => build_minimized_dfa dfa partitions
  | (Raise ex, _) => Raise ex
  | (Timeout, _) => Timeout
  end.
End Minimization.

(** ** [algorithms/conversions.py] *)

Module Conversions.

(** [mealy.output_function] and [moore.output_function]: [MealyMachine]
    keeps outputs in [_transition_table] and [MooreMachine] in
    [state_outputs]; no class defines [output_function], so looking the
    attribute up raises. *)
Definition output_function {St K V : Type} `{Countable K} : M St (gmap K V) :=
  raise (AttributeError "output_function").

(** [machine.transitions.items()]: [Automaton.transitions] is a list, and
    a list has no [items]. *)
Definition transitions_items {St : Type} (l : list Transition)
    : M St (list (str * str * str)) :=
  raise (AttributeError "items").

(** [moore.add_state(moore_state, output=...)]:
    [MooreMachine.add_state(name, is_accept, is_start)] takes no [output]. *)
Definition add_state_output {St : Type} (name : str) (output : option str)
    : M St unit :=
  raise (TypeError "add_state" "output").

(** The variables of [mealy_to_moore]. *)
Record env : Type := mkEnv {
  moore : MooreMachine;
  state_map : gmap (option str * option str) str;
}.

Definition on_moore {A} (c : M MooreMachine A) : M env A :=
  λ e, let '(o, m') := c (moore e) in (o, mkEnv m' (state_map e)).

Definition set_state_map (key : option str * option str) (moore_state : str)
    : M env unit :=
  modify (λ e, mkEnv (moore e) (<[key := moore_state]> (state_map e))).

(** [state_map[key]] *)
Definition lookup_state (key : option str * option str) : M env str :=
  e <- get ;
  match state_map e !! key with
  | Some moore_state => ret moore_state
  | None => raise KeyError
  end.

(** [machine.output_function[key]] *)
Definition output_at {St : Type} (key : str * str) : M St str :=
  f <- output_function ;
  match (f : gmap (str * str) str) !! key with
  | Some output => ret output
  | None => raise KeyError
  end.

(** [for symbol in alphabet: if (state, symbol) in mealy.output_function:
      out = mealy.output_function[(state, symbol)]; break] *)
Fixpoint first_output {St : Type} (symbols : list str) (state : option str)
    : M St (option str) :=
  match symbols with
  | [] => ret None
  | symbol :: symbols =>
      f <- output_function ;
      if bool_decide ((state, symbol) ∈ dom (f : gmap (option str * str) str))
      then
        f <- output_function ;
        match (f : gmap (option str * str) str) !! (state, symbol) with
        | Some output => ret (Some output)
        | None => raise KeyError
        end
      else first_output symbols state
  end.

(** The body of [mealy_to_moore]. *)
Definition mealy_to_moore_body (mealy : MealyMachine) : M env unit :=
  let symbols := elements (alphabet mealy) in
  for_each (elements (dom (states mealy))) (λ state,
    outputs <- fold_each symbols (∅ : gset str) (λ outputs symbol,
      f <- output_function ;
      if bool_decide ((state, symbol) ∈ dom (f : gmap (str * str) str)) then
        output <- output_at (state, symbol) ;
        ret (outputs ∪ {[output]})
      else ret outputs) ;
    if bool_decide (outputs = ∅) then
      let moore_state := state in
      add_state_output moore_state None >>
      set_state_map (Some state, None) moore_state
    else
      for_each (elements outputs) (λ output,
        let moore_state := state ++ py "_" ++ output in
        add_state_output moore_state (Some output) >>
        set_state_map (Some state, Some output) moore_state)) >>
  (start_output <- first_output symbols (start_state mealy) ;
   start <- lookup_state (start_state mealy, start_output) ;
   on_moore (modify (set_start_state (Some start)))) >>
  items <- transitions_items (transitions mealy) ;
  for_each items (λ '(from_state, symbol, to_state),
    f <- output_function ;
    let output := (f : gmap (str * str) str) !! (from_state, symbol) in
    next_output <- first_output symbols (Some to_state) ;
    moore_from <- lookup_state (Some from_state, output) ;
    moore_to <- lookup_state (Some to_state, next_output) ;
    on_moore (MooreMachine.add_transition moore_from moore_to symbol None)).

(** [mealy_to_moore(mealy)] *)
Definition mealy_to_moore (mealy : MealyMachine) : outcome MooreMachine :=
  match mealy_to_moore_body mealy (mkEnv MooreMachine.new ∅) with
  | (Ok _, e) => Ok (moore e)
  | (Raise ex, _) => Raise ex
  | (Timeout, _) => Timeout
  end.

(** The body of [moore_to_mealy], run on the new [mealy = MealyMachine()]. *)
Definition moore_to_mealy_body (moore : MooreMachine) : M MealyMachine unit :=
  for_each (elements (dom (states moore))) (λ state,
    add_state state false false >> ret tt) >>
  modify (set_start_state (start_state moore)) >>
  items <- transitions_items (transitions moore) ;
  for_each items (λ '(from_state, symbol, to_state),
    MealyMachine.add_transition from_state to_state symbol None >>
    f <- output_function ;
    let output := (f : gmap str str) !! to_state in
    (* mealy.output_function[(from_state, symbol)] = output *)
    g <- output_function ;
    let _ := <[(from_state, symbol) := output]> (g : gmap (str * str) (option str)) in
    ret tt).

(** [moore_to_mealy(moore)] *)
Definition moore_to_mealy (moore : MooreMachine) : outcome MealyMachine :=
  match moore_to_mealy_body moore MealyMachine.new with
  | (Ok _, mealy) => Ok mealy
  | (Raise ex, _) => Raise ex
  | (Timeout, _) => Timeout
  end.
End Conversions.

(** ** [parsers/text_parser.py] *)

Module TextParser.
(** The exceptions [parse_text_automaton] can raise. *)
Inductive text_error : Type :=
| InvalidTransitionFormat (line : str)
    (* ValueError(f"Invalid transition format: {line}") *)
| TypeNotSpecified
    (* ValueError("Automaton type not specified") *)
| UnknownType (automaton_type : str)
    (* ValueError(f"Unknown automaton type: {automaton_type}") *)
| TooManyArguments (cls : string)
    (* TypeError: __init__() takes 1 positional argument but 6 were given,
       from the call of <cls> *)
| StrHasNoAdd
    (* AttributeError: 'str' object has no attribute 'add' *)
| IndexOutOfRange
    (* IndexError: list index out of range *)
| CannotUnpack.
    (* ValueError: not enough values to unpack *)

(** What a call gives: the automaton returned or the exception raised. *)
Inductive result : Type :=
| Returned (automaton : DFA + NFA)
| Raised (e : text_error).

(** A value of the [transitions] dict: a state name where the line was
    read as a DFA transition, a set of names otherwise. *)
Inductive target : Type :=
| Single (to_state : str)
| Several (to_states : gset str).

(** The local variables of [parse_text_automaton]. *)
Record locals : Type := mkLocals {
  automaton_type : option str;
  states : gset str;
  alphabet : gset str;
  start_state : option str;
  accept_states : gset str;
  transitions : gmap (str * str) target;
  in_transitions : bool;
}.

(** [s.startswith(prefix)] and [sub in s] *)
Definition startswith (prefix s : str) : bool :=
  bool_decide (take (length prefix) s = prefix).
Fixpoint contains (sub s : str) : bool :=
  startswith sub s
  || match s with
     | [] => false
     | _ :: s' => contains sub s'
     end.

(** [s.split(sep, maxsplit)] for a separator that is not empty: [skip]
    characters of a separator just found are still to be passed, [cur] is
    the piece being read, in reverse, and [left] the splits still
    allowed. *)
Fixpoint split_go (sep : str) (left : option nat) (skip : nat) (cur : str)
    (s : str) : list str :=
  match s with
  | [] => [reverse cur]
  | c :: s' =>
      match skip with
      | S k => split_go sep left k cur s'
      | 0 =>
          if bool_decide (left ≠ Some 0) && startswith sep s then
            reverse cur :: split_go sep (pred <$> left) (length sep - 1) [] s'
          else split_go sep left 0 (c :: cur) s'
      end
  end.
Definition split (sep : str) (maxsplit : option nat) (s : str) : list str :=
  split_go sep maxsplit 0 [] s.

(** [DFA(states, alphabet, transitions, start_state, accept_states)], and
    the same call of [NFA] and [EpsilonNFA]: the [__init__] of these
    classes takes no argument besides [self]. *)
Definition construct (cls : string) (states alphabet : gset str)
    (transitions : gmap (str * str) target) (start_state : option str)
    (accept_states : gset str) : result :=
  Raised (TooManyArguments cls).

Section parse.
(** [str.strip], [str.lower] and [str.upper] follow the Unicode tables of
    the interpreter; they are parameters of the model. *)
Variables (strip lower upper : str → str).

(** [line.split(':', 1)[1]] *)
Definition after_colon (line : str) : option str :=
  split (py ":") (Some 1) line !! 1.

(** [set(s.strip() for s in line.split(':', 1)[1].split(','))] *)
Definition names_after_colon (line : str) : option (gset str) :=
  (λ rest, list_to_set (strip <$> split (py ",") None rest)) <$> after_colon line.

(** The branch [elif in_transitions and '->' in line]. *)
Definition read_transition (st : locals) (line : str) : text_error + locals :=
  let parts := split (py "->") None line in
  match parts !! 0, parts !! 1 with
  | Some part0, Some part1 =>
      let from_part := strip part0 in
      let to_state := strip part1 in
      if contains (py ",") from_part then
        match strip <$> split (py ",") (Some 1) from_part with
        | [from_state; symbol] =>
            let key := (from_state, symbol) in
            if bool_decide (automaton_type st = Some (py "DFA")) then
              inr (mkLocals (automaton_type st) (states st) (alphabet st)
                     (start_state st) (accept_states st)
                     (<[key := Single to_state]> (transitions st))
                     (in_transitions st))
            else
              match default (Several ∅) (transitions st !! key) with
              | Several to_states =>
                  inr (mkLocals (automaton_type st) (states st) (alphabet st)
                         (start_state st) (accept_states st)
                         (<[key := Several (to_states ∪ {[to_state]})]>
                            (transitions st))
                         (in_transitions st))
              | Single _ => inl StrHasNoAdd
              end
        | _ => inl CannotUnpack
        end
      else inl (InvalidTransitionFormat line)
  | _, _ => inl IndexOutOfRange
  end.

(** The body of [for line in lines]. *)
Definition read_line (st : locals) (line : str) : text_error + locals :=
  if startswith (py "#") line then inr st
  else if startswith (py "type:") (lower line) then
    match after_colon line with
    | Some rest =>
        inr (mkLocals (Some (upper (strip rest))) (states st) (alphabet st)
               (start_state st) (accept_states st) (transitions st)
               (in_transitions st))
    | None => inl IndexOutOfRange
    end
  else if startswith (py "states:") (lower line) then
    match names_after_colon line with
    | Some names =>
        inr (mkLocals (automaton_type st) names (alphabet st)
               (start_state st) (accept_states st) (transitions st)
               (in_transitions st))
    | None => inl IndexOutOfRange
    end
  else if startswith (py "alphabet:") (lower line) then
    match names_after_colon line with
    | Some names =>
        inr (mkLocals (automaton_type st) (states st) names
               (start_state st) (accept_states st) (transitions st)
               (in_transitions st))
    | None => inl IndexOutOfRange
    end
  else if startswith (py "start:") (lower line) then
    match after_colon line with
    | Some rest =>
        inr (mkLocals (automaton_type st) (states st) (alphabet st)
               (Some (strip rest)) (accept_states st) (transitions st)
               (in_transitions st))
    | None => inl IndexOutOfRange
    end
  else if startswith (py "accept:") (lower line) then
    match names_after_colon line with
    | Some names =>
        inr (mkLocals (automaton_type st) (states st) (alphabet st)
               (start_state st) names (transitions st)
               (in_transitions st))
    | None => inl IndexOutOfRange
    end
  else if startswith (py "transitions:") (lower line) then
    inr (mkLocals (automaton_type st) (states st) (alphabet st)
           (start_state st) (accept_states st) (transitions st) true)
  else if in_transitions st && contains (py "->") line then
    read_transition st line
  else inr st.

Fixpoint read_lines (st : locals) (lines : list str) : text_error + locals :=
  match lines with
  | [] => inr st
  | line :: lines =>
      match read_line st line with
      | inr st' => read_lines st' lines
      | inl e => inl e
      end
  end.

(** [parse_text_automaton(text)] *)
Definition parse_text_automaton (text : str) : result :=
  let lines :=
    filter (λ line, line ≠ []) (strip <$> split [10%N] None text) in
  match read_lines (mkLocals None ∅ ∅ None ∅ ∅ false) lines with
  | inl e => Raised e
  | inr st =>
      match automaton_type st with
      | None | Some [] => Raised TypeNotSpecified
      | Some automaton_type =>
          if bool_decide (automaton_type = py "DFA") then
            construct "DFA" (states st) (alphabet st) (transitions st)
                      (start_state st) (accept_states st)
          else if bool_decide (automaton_type = py "NFA") then
            construct "NFA" (states st) (alphabet st) (transitions st)
                      (start_state st) (accept_states st)
          else if bool_decide (automaton_type = py "ENFA")
                  || bool_decide (automaton_type = py "EPSILON-NFA") then
            construct "EpsilonNFA" (states st) (alphabet st) (transitions st)
                      (start_state st) (accept_states st)
          else Raised (UnknownType automaton_type)
      end
  end.
End parse.
End TextParser.

(** ** Vocabulary for the properties *)

(** [post c s Q E]: from [s], [c] answers within its fuel, with [Q] on a
    returned value and [E] on a raised exception. *)
Definition post {S A} (c : M S A) (s : S)
    (Q : A → S → Prop) (E : exn → S → Prop) : Prop :=
  match c s with
  | (Ok a, s') => Q a s'
  | (Raise e, s') => E e s'
  | (Timeout, _) => False
  end.

Module ParserSpec.
Import Parser.

(** The cursor is within the text; what is left to read. *)
Definition wf (p : RegexParser) : Prop := pos p ≤ length (regex p).
Definition rem (p : RegexParser) : nat := length (regex p) - pos p.

(** The cursor only moves forward, within the text, and the text stays. *)
Definition adv (strict : bool) (p p' : RegexParser) : Prop :=
  regex p' = regex p ∧ pos p ≤ pos p' ∧ wf p' ∧ (strict = true → pos p < pos p').

(** The two [raise] sites, with what is under the reported position. *)
Definition syntax_error (text : str) (e : exn) : Prop :=
  (∃ i, e = ValueError (ExpectedRParen i) ∧ text !! i ≠ Some Ch.rparen)
  ∨ (∃ c i, e = ValueError (UnexpectedChar (Some c) i)
            ∧ in_star_plus c = true ∧ text !! i = Some c).

(** Where [parse_concat] calls [parse_star]: on a character other than
    [')'] and ['|']. *)
Definition at_base (p : RegexParser) : Prop :=
  ∃ c, regex p !! pos p = Some c ∧ in_rparen_bar c = false.

(** A parsing method answers within its fuel, advances the cursor, and
    raises only one of the two syntax errors. *)
Definition parse_post (strict : bool) {A} (c : M RegexParser A) (p : RegexParser) : Prop :=
  post c p (λ _ p', adv strict p p') (λ e _, syntax_error (regex p) e).

Definition parse_spec (n : nat) : Prop :=
  (∀ p, wf p → 5 * rem p + 5 ≤ n → parse_post false (parse_or n) p)
  ∧ (∀ p left, wf p → 5 * rem p + 4 ≤ n → parse_post false (parse_or_loop n left) p)
  ∧ (∀ p, wf p → 5 * rem p + 4 ≤ n → parse_post false (parse_concat n) p)
  ∧ (∀ p nodes, wf p → 5 * rem p + 3 ≤ n → parse_post false (parse_concat_loop n nodes) p)
  ∧ (∀ p, wf p → 5 * rem p + 2 ≤ n → at_base p → parse_post true (parse_star n) p)
  ∧ (∀ p, wf p → 5 * rem p + 1 ≤ n → at_base p → parse_post true (parse_base n) p).

(** The same cursor over the text followed by [')'] and [t]. *)
Definition ext (t : str) (p : RegexParser) : RegexParser :=
  mkParser (regex p ++ Ch.rparen :: t) (pos p).

(** [c'] on the extended text returns what [c] returns on the text. *)
Definition ext_ok (t : str) {A} (strict : bool) (c c' : M RegexParser A)
    (p : RegexParser) : Prop :=
  ∀ a p', c p = (Ok a, p') → adv strict p p' ∧ c' (ext t p) = (Ok a, ext t p').

Definition ext_spec (t : str) (n m : nat) : Prop :=
  (∀ p, wf p → ext_ok t false (parse_or n) (parse_or m) p)
  ∧ (∀ p left, wf p →
       ext_ok t false (parse_or_loop n left) (parse_or_loop m left) p)
  ∧ (∀ p, wf p → ext_ok t false (parse_concat n) (parse_concat m) p)
  ∧ (∀ p nodes, wf p →
       ext_ok t false (parse_concat_loop n nodes) (parse_concat_loop m nodes) p)
  ∧ (∀ p, wf p → ext_ok t true (parse_star n) (parse_star m) p)
  ∧ (∀ p, wf p → ext_ok t true (parse_base n) (parse_base m) p).
End ParserSpec.

Module ParserScanSpec.
Import Parser.

(** What is left of the text at the cursor. *)
Definition unread (p : RegexParser) : str := drop (pos p) (regex p).

(** A reading of the text from left to right, up to the first [')'] that
    closes no ['(']: [depth] counts the ['('] read and not yet closed, and
    [base] tells that a base expression is due (at the beginning, after a
    ['('] and after a ['|']).  The text is malformed when a ['*'] or a
    ['+'] stands where a base expression is due, or when it ends with a
    ['('] still open. *)
Fixpoint malformed (depth : nat) (base : bool) (text : str) : bool :=
  match text with
  | [] => negb (bool_decide (depth = 0))
  | c :: text' =>
      if bool_decide (c = Ch.lparen) then malformed (S depth) true text'
      else if bool_decide (c = Ch.rparen) then
        match depth with
        | 0 => false
        | S depth' => malformed depth' false text'
        end
      else if bool_decide (c = Ch.bar) then malformed depth true text'
      else if in_star_plus c then base || malformed depth false text'
      else malformed depth false text'
  end.

(** Where the loops of the parser stop: at the end of the text or at a
    character of the given kind. *)
Definition stops_at (kind : char → bool) (text : str) : Prop :=
  match text with
  | [] => True
  | c :: _ => kind c = true
  end.

Definition is_rparen (c : char) : bool := bool_decide (c = Ch.rparen).
Definition not_star_plus (c : char) : bool := negb (in_star_plus c).

(** A parsing method that returns has read a part of the text that is not
    malformed, and one that raises has met what makes the text malformed;
    [stop] is where the method stops when it returns. *)
Definition scans {A} (base : bool) (stop : char → bool)
    (c : M RegexParser A) (p : RegexParser) : Prop :=
  match c p with
  | (Ok _, p') =>
      stops_at stop (unread p')
      ∧ ∀ depth, malformed depth base (unread p) = malformed depth false (unread p')
  | (Raise _, _) => ∀ depth, malformed depth base (unread p) = true
  | (Timeout, _) => True
  end.

Definition scan_spec (n : nat) : Prop :=
  (∀ p, scans true is_rparen (parse_or n) p)
  ∧ (∀ p left, stops_at in_rparen_bar (unread p) →
       scans false is_rparen (parse_or_loop n left) p)
  ∧ (∀ p, scans true in_rparen_bar (parse_concat n) p)
  ∧ (∀ p nodes base, base = true ∨ stops_at not_star_plus (unread p) →
       scans base in_rparen_bar (parse_concat_loop n nodes) p)
  ∧ (∀ p, ParserSpec.at_base p → scans true not_star_plus (parse_star n) p)
  ∧ (∀ p, ParserSpec.at_base p → scans true (λ _, true) (parse_base n) p).
End ParserScanSpec.

Module EpsilonNFASpec.
Import EpsilonNFA.

(** What is left to do: the queue, and the targets not yet in the closure. *)
Definition todo (T : gset str) (acc : gset str * list str) : nat :=
  length acc.2 + size (T ∖ acc.1).
End EpsilonNFASpec.

Module ThompsonSpec.
Import Thompson.

(** Every state name was handed out by [new_state], no state carries the
    start flag yet, and accept states are states. *)
Record inv (e : env) : Prop := mkInv {
  inv_names : ∀ q, q ∈ dom (states (nfa e)) →
              ∃ i, 1 ≤ i ≤ state_counter e ∧ q = state_name i;
  inv_accept : accept_states (nfa e) ⊆ dom (states (nfa e));
  inv_start : ∀ q st, states (nfa e) !! q = Some st → is_start st = false;
}.

(** What [build_fragment] leaves behind, from [e] to [e']. *)
Definition built (e : env) (frag : ThompsonFragment) (e' : env) : Prop :=
  inv e'
  ∧ state_counter e ≤ state_counter e'
  ∧ dom (states (nfa e)) ⊆ dom (states (nfa e'))
  ∧ frag_start frag ∈ dom (states (nfa e'))
  ∧ frag_accept frag ∈ dom (states (nfa e'))
  ∧ (∃ j, state_counter e < j ≤ state_counter e' ∧ frag_accept frag = state_name j)
  ∧ accept_states (nfa e') = accept_states (nfa e) ∪ {[frag_accept frag]}.

(** The parts of the environment the invariant speaks of. *)
Definition same_view (e e' : env) : Prop :=
  state_counter e' = state_counter e
  ∧ dom (states (nfa e')) = dom (states (nfa e))
  ∧ accept_states (nfa e') = accept_states (nfa e).

(** Exactly one state carries the start flag, and it is the start state. *)
Definition one_start (a : EpsilonNFA) : Prop :=
  ∃ q, start_state a = Some q
       ∧ is_Some (states a !! q)
       ∧ ∀ q' st, states a !! q' = Some st → (is_start st = true ↔ q' = q).

(** The accept-state set is a singleton, and its member is a state. *)
Definition one_accept (a : EpsilonNFA) : Prop :=
  ∃ q, accept_states a = {[q]} ∧ is_Some (states a !! q).
End ThompsonSpec.

Module PDASpec.
(** [pda = PDA(); pda.add_state("q0", is_start=True);
     pda.add_pda_transition("q0", "q0", "ε", "Z", ["Z", "Z"])]:
    one state, no accept state, and an ε-transition that replaces the
    stack top [Z] by [Z Z]. *)
Definition push_loop : PDA :=
  snd ((add_state (py "q0") false true >>
        PDA.add_pda_transition (py "q0") (py "q0") EPS (py "Z") [py "Z"; py "Z"])
         PDA.new).

(** The configurations of [push_loop] on the empty input: [k] symbols
    [Z] on the stack. *)
Definition push_config (k : nat) : PDAConfiguration :=
  mkPDAConfiguration (py "q0") [] (replicate k (py "Z")).
End PDASpec.

Module PDAExamples.
(** A PDA for the words aⁿbⁿ with n ≥ 1: it pushes an [A] for each [a],
    pops one for each [b], and moves to the accept state when the start
    symbol is uncovered again. *)
Definition anbn : PDA :=
  snd ((add_state (py "q0") false true >>
        add_state (py "q1") false false >>
        add_state (py "q2") true false >>
        PDA.add_pda_transition (py "q0") (py "q0") (py "a") (py "Z") [py "A"; py "Z"] >>
        PDA.add_pda_transition (py "q0") (py "q0") (py "a") (py "A") [py "A"; py "A"] >>
        PDA.add_pda_transition (py "q0") (py "q1") (py "b") (py "A") [] >>
        PDA.add_pda_transition (py "q1") (py "q1") (py "b") (py "A") [] >>
        PDA.add_pda_transition (py "q1") (py "q2") EPS (py "Z") [py "Z"])
         PDA.new).

(** A PDA whose first transition is an ε-loop on the start state and
    whose second transition leads to the accept state. *)
Definition detour : PDA :=
  snd ((add_state (py "q0") false true >>
        add_state (py "q1") true false >>
        PDA.add_pda_transition (py "q0") (py "q0") EPS (py "Z") [py "Z"] >>
        PDA.add_pda_transition (py "q0") (py "q1") EPS (py "Z") [py "Z"])
         PDA.new).
End PDAExamples.

(** ** Machines of the test suite *)

Module Tests.
(** The object a sequence of calls leaves behind. *)
Definition built_by {St A : Type} (c : M St A) (s : St) : St := snd (c s).

(** [tests/test_subset_construction.py], [test_nfa_to_dfa_simple]. *)
Definition nfa_simple : NFA :=
  built_by (add_state (py "q0") false true >>
            add_state (py "q1") false false >>
            add_state (py "q2") true false >>
            NFA.add_transition (py "q0") (py "q1") (py "a") None >>
            NFA.add_transition (py "q0") (py "q1") (py "b") None >>
            NFA.add_transition (py "q1") (py "q2") (py "a") None) NFA.new.

(** [tests/test_minimization.py], [test_minimize_already_minimal]. *)
Definition dfa_minimal : DFA :=
  built_by (add_state (py "q0") false true >>
            add_state (py "q1") true false >>
            DFA.add_transition (py "q0") (py "q1") (py "a") None >>
            DFA.add_transition (py "q1") (py "q0") (py "a") None) DFA.new.

(** [tests/test_conversions.py], [test_conversion_roundtrip]. *)
Definition mealy_roundtrip : MealyMachine :=
  built_by (add_state (py "S0") false true >>
            add_state (py "S1") false false >>
            MealyMachine.add_transition (py "S0") (py "S1") (py "a") (Some (py "0")) >>
            MealyMachine.add_transition (py "S1") (py "S0") (py "b") (Some (py "1")))
           MealyMachine.new.

(** [tests/test_conversions.py], [test_moore_to_mealy_simple], without its
    transitions on ["1"]. *)
Definition moore_simple : MooreMachine :=
  built_by (add_state (py "A") false true >>
            add_state (py "B") false false >>
            MooreMachine.set_state_output (py "A") (py "x") >>
            MooreMachine.set_state_output (py "B") (py "y") >>
            MooreMachine.add_transition (py "A") (py "B") (py "0") None >>
            MooreMachine.add_transition (py "B") (py "A") (py "0") None) MooreMachine.new.

(** A PDA whose start state accepts. *)
Definition pda_accepting : PDA :=
  built_by (add_state (py "q0") true true) PDA.new.
End Tests.

(** ** Vocabulary for the further properties *)

Module RegexSpec.
(** The characters of the [CHAR] nodes of an AST. *)
Fixpoint chars (node : RegexNode) : list char :=
  match node with
  | CHAR value => [value]
  | EPSILON => []
  | CONCAT l r | OR l r => chars l ++ chars r
  | STAR l | PLUS l => chars l
  end.

(** The strings an AST denotes. *)
Inductive matches : RegexNode → str → Prop :=
| matches_char c : matches (CHAR c) [c]
| matches_epsilon : matches EPSILON []
| matches_concat l r w1 w2 :
    matches l w1 → matches r w2 → matches (CONCAT l r) (w1 ++ w2)
| matches_or_l l r w : matches l w → matches (OR l r) w
| matches_or_r l r w : matches r w → matches (OR l r) w
| matches_star_nil l : matches (STAR l) []
| matches_star_cons l w1 w2 :
    matches l w1 → matches (STAR l) w2 → matches (STAR l) (w1 ++ w2)
| matches_plus l w1 w2 :
    matches l w1 → matches (STAR l) w2 → matches (PLUS l) (w1 ++ w2).
End RegexSpec.

Module ParserCharsSpec.
Import Parser RegexSpec.

(** A character of the text that is none of the reserved ones. *)
Definition ordinary (text : str) (c : char) : Prop :=
  c ∈ text ∧ c ∉ [Ch.lparen; Ch.rparen; Ch.bar; Ch.star; Ch.plus; Ch.epsilon].

Definition plain (text : str) (node : RegexNode) : Prop :=
  Forall (ordinary text) (chars node).

(** What the parsing methods return holds only such characters, and the
    text stays. *)
Definition plain_spec (n : nat) : Prop :=
  (∀ p a p', parse_or n p = (Ok a, p') → regex p' = regex p ∧ plain (regex p) a)
  ∧ (∀ p left a p', parse_or_loop n left p = (Ok a, p') → plain (regex p) left →
       regex p' = regex p ∧ plain (regex p) a)
  ∧ (∀ p a p', parse_concat n p = (Ok a, p') → regex p' = regex p ∧ plain (regex p) a)
  ∧ (∀ p nodes a p', parse_concat_loop n nodes p = (Ok a, p') →
       Forall (plain (regex p)) nodes →
       regex p' = regex p ∧ Forall (plain (regex p)) a)
  ∧ (∀ p a p', parse_star n p = (Ok a, p') → regex p' = regex p ∧ plain (regex p) a)
  ∧ (∀ p a p', parse_base n p = (Ok a, p') → regex p' = regex p ∧ plain (regex p) a).
End ParserCharsSpec.

Module ApiSpec.
(** The objects a program obtains from a constructor through the public
    methods that add states and transitions. *)
Inductive dfa_built : DFA → Prop :=
| dfa_new : dfa_built DFA.new
| dfa_add_state d name is_accept is_start :
    dfa_built d → dfa_built (snd (add_state name is_accept is_start d))
| dfa_add_transition d from_state to_state symbol output :
    dfa_built d →
    dfa_built (snd (DFA.add_transition from_state to_state symbol output d)).

Inductive nfa_built : NFA → Prop :=
| nfa_new : nfa_built NFA.new
| nfa_add_state n name is_accept is_start :
    nfa_built n → nfa_built (snd (add_state name is_accept is_start n))
| nfa_add_transition n from_state to_state symbol output :
    nfa_built n →
    nfa_built (snd (NFA.add_transition from_state to_state symbol output n)).

Inductive mealy_built : MealyMachine → Prop :=
| mealy_new : mealy_built MealyMachine.new
| mealy_add_state m name is_accept is_start :
    mealy_built m → mealy_built (snd (add_state name is_accept is_start m))
| mealy_add_transition m from_state to_state symbol output :
    mealy_built m →
    mealy_built (snd (MealyMachine.add_transition from_state to_state symbol output m)).

Inductive moore_built : MooreMachine → Prop :=
| moore_new : moore_built MooreMachine.new
| moore_add_state m name is_accept is_start :
    moore_built m → moore_built (snd (add_state name is_accept is_start m))
| moore_set_state_output m state output :
    moore_built m → moore_built (snd (MooreMachine.set_state_output state output m))
| moore_add_transition m from_state to_state symbol output :
    moore_built m →
    moore_built (snd (MooreMachine.add_transition from_state to_state symbol output m)).

(** The key of a transition in the transition tables. *)
Definition key (trans : Transition) : str * str := (from_state trans, symbol trans).

(** The input symbols on the transitions list, ['ε'] left out. *)
Definition symbols (l : list Transition) : gset str :=
  list_to_set (filter (λ s, s ≠ EPS) (symbol <$> l)).

(** The transition added last for a key. *)
Definition last_for (l : list Transition) (q s : str) : option Transition :=
  last (filter (λ trans, key trans = (q, s)) l).
(** What the public methods keep: the table agrees with the transitions
    list, and the alphabet holds the symbols on it. *)
Definition dfa_inv (d : DFA) : Prop :=
  (∀ q s t, own d !! (q, s) = Some t ↔ ∃ o, mkTransition q t s o ∈ transitions d)
  ∧ NoDup (key <$> transitions d)
  ∧ alphabet d = symbols (transitions d).

Definition nfa_inv (n : NFA) : Prop :=
  (∀ q s t, t ∈ NFA.get_next_states n q s
            ↔ ∃ o, mkTransition q t s o ∈ transitions n)
  ∧ alphabet n = symbols (transitions n).

Definition mealy_inv (m : MealyMachine) : Prop :=
  ∀ q s t o, MealyMachine.get_next_state_and_output m q s = Some (t, o)
             ↔ last_for (transitions m) q s = Some (mkTransition q t s (Some o)).

Definition moore_inv (m : MooreMachine) : Prop :=
  (∀ q s t, MooreMachine.get_next_state m q s = Some t
            ↔ last_for (transitions m) q s = Some (mkTransition q t s None))
  ∧ dom (state_outputs (own m)) ⊆ dom (states m).
End ApiSpec.

Module RunSpec.
(** An ['ε'] transition of the table. *)
Definition eps_step (self : NFA) (q t : str) : Prop :=
  t ∈ NFA.get_next_states self q EPS.

(** A walk along the table of an NFA that reads [w], one transition for
    each character. *)
Inductive path (self : NFA) : str → str → str → Prop :=
| path_nil q : path self q [] q
| path_cons q c t w r :
    t ∈ NFA.get_next_states self q [c] → path self t w r →
    path self q (c :: w) r.

(** A walk that may also take ['ε'] transitions without reading. *)
Inductive epath (self : EpsilonNFA) : str → str → str → Prop :=
| epath_nil q : epath self q [] q
| epath_eps q t w r :
    eps_step self q t → epath self t w r → epath self q w r
| epath_cons q c t w r :
    t ∈ NFA.get_next_states self q [c] → epath self t w r →
    epath self q (c :: w) r.

(** Closed under ['ε'] transitions. *)
Definition eps_closed (self : EpsilonNFA) (C : gset str) : Prop :=
  ∀ q t, q ∈ C → eps_step self q t → t ∈ C.

(** What the closure loop keeps: the closure holds the states it started
    from and only states reachable from them, and a state of the closure
    that is no longer queued has its ['ε'] successors in the closure. *)
Definition closure_inv (self : EpsilonNFA) (X closure : gset str) (queue : list str)
    : Prop :=
  X ⊆ closure
  ∧ (∀ q, q ∈ closure → ∃ p, p ∈ X ∧ rtc (eps_step self) p q)
  ∧ (∀ q, q ∈ queue → q ∈ closure)
  ∧ (∀ q t, q ∈ closure → eps_step self q t → q ∈ queue ∨ t ∈ closure).
End RunSpec.

Module SimSpec.
(** The state a DFA trace ends in. *)
Definition final_state (q0 : str) (trace : list (str * str * str)) : str :=
  default q0 (snd <$> last trace).

(** A step of a DFA trace that follows the table. *)
Definition dfa_step_ok (d : DFA) (step : str * str * str) : Prop :=
  DFA.get_next_state d step.1.1 step.1.2 = Some step.2.

(** The output column of a Mealy trace and of a Moore trace. *)
Definition mealy_output (step : str * str * str * str) : str := step.1.2.
Definition moore_output (step : str * str * str * str) : str := step.2.
End SimSpec.

Module PDARunSpec.
Import PDA.

(** One move of a PDA: a transition applicable to the configuration,
    applied to it. *)
Definition pda_step (self : PDA) (c c' : PDAConfiguration) : Prop :=
  ∃ top trans,
    stack_top c = Some top
    ∧ trans ∈ get_applicable_transitions self (state c) (current_symbol c) (Some top)
    ∧ c' = apply_transition c trans.

(** Some accepting configuration can be reached from the initial one. *)
Definition accepted_by (self : PDA) (w : str) : Prop :=
  ∃ q0 c, start_state self = Some q0
          ∧ rtc (pda_step self) (initial_config self q0 w) c
          ∧ accepting self c = true.

(** What the search loop keeps: queued configurations are reachable; a
    visited configuration is reachable, does not accept, and its
    successors are queued or visited; the initial configuration is queued
    or visited. *)
Definition search_inv (self : PDA) (init : PDAConfiguration)
    (queue : list PDAConfiguration) (visited : gset (str * str * list str)) : Prop :=
  (∀ c, c ∈ queue → rtc (pda_step self) init c)
  ∧ (∀ c, config_key c ∈ visited →
       rtc (pda_step self) init c ∧ accepting self c = false
       ∧ ∀ c', pda_step self c c' → c' ∈ queue ∨ config_key c' ∈ visited)
  ∧ (init ∈ queue ∨ config_key init ∈ visited).

(** The queue and the visited set after an iteration that does not
    return. *)
Definition search_next (self : PDA) (config : PDAConfiguration)
    (queue : list PDAConfiguration) (visited : gset (str * str * list str))
    : list PDAConfiguration * gset (str * str * list str) :=
  if bool_decide (config_key config ∈ visited) then (queue, visited)
  else match stack_top config with
       | None => (queue, visited ∪ {[config_key config]})
       | Some top =>
           (queue ++ (apply_transition config <$>
                        get_applicable_transitions self (state config)
                          (current_symbol config) (Some top)),
            visited ∪ {[config_key config]})
       end.
End PDARunSpec.

Module ThompsonLayout.
Import RegexSpec.
(** A transition between the states [q<i>] and [q<j>]. *)
Definition edge : Type := nat * str * nat.

(** The fragment [build_fragment] builds for [node] when [k] states
    exist: the numbers of its start and accept states, the number of
    states afterwards, and the transitions it adds, in the order of the
    [add_transition] calls. *)
Fixpoint layout (node : RegexNode) (k : nat) : nat * nat * nat * list edge :=
  match node with
  | EPSILON => (S k, S (S k), S (S k), [(S k, EPS, S (S k))])
  | CHAR value => (S k, S (S k), S (S k), [(S k, [value], S (S k))])
  | CONCAT l r =>
      let '(s1, a1, k1, g1) := layout l k in
      let '(s2, a2, k2, g2) := layout r k1 in
      (s1, a2, k2, g1 ++ g2 ++ [(a1, EPS, s2)])
  | OR l r =>
      let '(s1, a1, k1, g1) := layout l k in
      let '(s2, a2, k2, g2) := layout r k1 in
      (S k2, S (S k2), S (S k2),
       g1 ++ g2 ++ [(S k2, EPS, s1); (S k2, EPS, s2);
                    (a1, EPS, S (S k2)); (a2, EPS, S (S k2))])
  | STAR l =>
      let '(s1, a1, k1, g1) := layout l k in
      (S k1, S (S k1), S (S k1),
       g1 ++ [(S k1, EPS, s1); (S k1, EPS, S (S k1));
              (a1, EPS, s1); (a1, EPS, S (S k1))])
  | PLUS l =>
      let '(s1, a1, k1, g1) := layout l k in
      (S k1, S (S k1), S (S k1),
       g1 ++ [(S k1, EPS, s1); (a1, EPS, s1); (a1, EPS, S (S k1))])
  end.

(** A walk in a graph of such transitions that reads [w] and leaves only
    states that satisfy [ok]. *)
Inductive gpath (G : list edge) (ok : nat → Prop) : nat → str → nat → Prop :=
| gpath_nil i : gpath G ok i [] i
| gpath_eps i j w r :
    ok i → (i, EPS, j) ∈ G → gpath G ok j w r → gpath G ok i w r
| gpath_sym i c j w r :
    ok i → c ≠ Ch.epsilon → (i, [c], j) ∈ G → gpath G ok j w r →
    gpath G ok i (c :: w) r.

(** The states of a fragment other than its accept state. *)
Definition inner (k k' a : nat) (i : nat) : Prop := k < i ≤ k' ∧ i ≠ a.

(** The number of nodes that get a pair of states. *)
Fixpoint pairs (node : RegexNode) : nat :=
  match node with
  | EPSILON | CHAR _ => 1
  | CONCAT l r => pairs l + pairs r
  | OR l r => S (pairs l + pairs r)
  | STAR l | PLUS l => S (pairs l)
  end.

(** The states and transitions of a fragment are the new ones, and no
    transition leaves its accept state. *)
Definition layout_wf (node : RegexNode) (k : nat) : Prop :=
  let '(s, a, k', G) := layout node k in
  k < s ≤ k' ∧ k < a ≤ k' ∧ s ≠ a
  ∧ ∀ i x j, (i, x, j) ∈ G → k < i ≤ k' ∧ k < j ≤ k' ∧ i ≠ a.

(** The walks through a fragment read the strings its node denotes. *)
Definition layout_lang (node : RegexNode) (k : nat) : Prop :=
  let '(s, a, k', G) := layout node k in
  ∀ w, gpath G (inner k k' a) s w a ↔ matches node w.
End ThompsonLayout.

Module ThompsonLayoutSpec.
Import Thompson ThompsonLayout.
(** The transition object [build_fragment] adds for an edge. *)
Definition to_transition (e : edge) : Transition :=
  mkTransition (state_name e.1.1) (state_name e.2) e.1.2 None.

(** From [e] to [e']: the transitions [G] are appended, the table and the
    alphabet stay in step with the transitions list, the start state is
    kept, and the states [q<j>] for the numbers handed out are added. *)
Definition grows (e e' : env) (G : list Transition) : Prop :=
  transitions (nfa e') = transitions (nfa e) ++ G
  ∧ (ApiSpec.nfa_inv (nfa e) → ApiSpec.nfa_inv (nfa e'))
  ∧ start_state (nfa e') = start_state (nfa e)
  ∧ state_counter e ≤ state_counter e'
  ∧ ∀ q, q ∈ dom (states (nfa e'))
         ↔ q ∈ dom (states (nfa e))
           ∨ ∃ j, state_counter e < j ≤ state_counter e' ∧ q = state_name j.

(** [build_fragment] follows the layout. *)
Definition follows (node : RegexNode) (e : env) (frag : ThompsonFragment) (e' : env)
    : Prop :=
  let '(s, a, k', G) := layout node (state_counter e) in
  frag = mkFragment (state_name s) (state_name a)
  ∧ state_counter e' = k'
  ∧ grows e e' (to_transition <$> G).
End ThompsonLayoutSpec.

Module OutputSpec.
Import ApiSpec.

(** The outputs in the tables are in the output alphabet. *)
Definition mealy_out_inv (m : MealyMachine) : Prop :=
  ∀ q s t o, mealy_table (own m) !! (q, s) = Some (t, o) →
             o ∈ mealy_output_alphabet (own m).
Definition moore_out_inv (m : MooreMachine) : Prop :=
  ∀ q o, state_outputs (own m) !! q = Some o → o ∈ moore_output_alphabet (own m).

(** The PDAs a program obtains from [PDA()] through [add_state] and
    [add_pda_transition]. *)
Inductive pda_built : PDA → Prop :=
| pda_new : pda_built PDA.new
| pda_add_state p name is_accept is_start :
    pda_built p → pda_built (snd (add_state name is_accept is_start p))
| pda_add_pda_transition p from_state to_state input_symbol stack_pop stack_push :
    pda_built p →
    pda_built (snd (PDA.add_pda_transition from_state to_state input_symbol
                      stack_pop stack_push p)).

(** The label under which [add_pda_transition] files a transition in the
    base class, and the base transition it appends. *)
Definition label (trans : PDATransition) : str :=
  input_symbol trans ++ py "," ++ stack_pop trans ++ py "/"
  ++ PDA.push_label (stack_push trans).
Definition base_transition (trans : PDATransition) : Transition :=
  mkTransition (pda_from_state trans) (pda_to_state trans) (label trans) None.

(** The states a trace of sets of states ends in. *)
Definition final_states (X : gset str) (trace : list (gset str * str * gset str))
    : gset str :=
  default X (snd <$> last trace).

(** What [add_pda_transition] keeps. *)
Definition pda_inv (p : PDA) : Prop :=
  transitions p = base_transition <$> _pda_transitions (own p)
  ∧ ∀ trans, trans ∈ _pda_transitions (own p) →
      label trans ∈ alphabet p
      ∧ (input_symbol trans ≠ EPS → input_symbol trans ∈ alphabet p)
      ∧ stack_pop trans ∈ stack_alphabet (own p)
      ∧ ∀ x, x ∈ stack_push trans → x ≠ EPS → x ∈ stack_alphabet (own p).
End OutputSpec.

(* ================================================================= *)
(** * Properties *)

(** ** The method monad *)

Section monad_facts.
Context {S A B : Type}.
Implicit Types (c : M S A) (k : A → M S B) (s : S).

Lemma bind_Ok c k s a s1 : c s = (Ok a, s1) → bind c k s = k a s1.
Proof. unfold bind. by intros ->. Qed.

Lemma bind_Ok_inv c k s b s' :
  bind c k s = (Ok b, s') → ∃ a s1, c s = (Ok a, s1) ∧ k a s1 = (Ok b, s').
Proof.
  unfold bind. destruct (c s) as [[a| |] s1]; intros H; try discriminate.
  by exists a, s1.
Qed.

Lemma bind_Raise c k s e s1 : c s = (Raise e, s1) → bind c k s = (Raise e, s1).
Proof. unfold bind. by intros ->. Qed.
End monad_facts.

Section post_facts.
Context {S : Type}.

Lemma post_ret {A} (a : A) (s : S) Q E : Q a s → post (ret a) s Q E.
Proof. done. Qed.

Lemma post_raise {A} e (s : S) (Q : A → S → Prop) E :
  E e s → post (raise e) s Q E.
Proof. done. Qed.

Lemma post_get (s : S) Q E : Q s s → post get s Q E.
Proof. done. Qed.

Lemma post_gets {A} (f : S → A) (s : S) Q E : Q (f s) s → post (gets f) s Q E.
Proof. done. Qed.

Lemma post_bind {A B} (c : M S A) (k : A → M S B) (s : S) Q E :
  post c s (λ a s', post (k a) s' Q E) E → post (bind c k) s Q E.
Proof. unfold post, bind. by destruct (c s) as [[a|e|] s']. Qed.

Lemma post_mono {A} (c : M S A) (s : S) (Q Q' : A → S → Prop) (E E' : exn → S → Prop) :
  post c s Q E →
  (∀ a s', Q a s' → Q' a s') → (∀ e s', E e s' → E' e s') →
  post c s Q' E'.
Proof. unfold post. destruct (c s) as [[a|e|] s']; auto. Qed.
End post_facts.

(** ** The regex parser *)

Module ParserFacts.
Import Parser ParserSpec.

Lemma adv_refl p : wf p → adv false p p.
Proof. unfold adv. intros ?. split_and!; auto. done. Qed.

Lemma adv_trans b1 b2 p1 p2 p3 :
  adv b1 p1 p2 → adv b2 p2 p3 → adv (b1 || b2) p1 p3.
Proof.
  unfold adv. intros (Hr1&Hp1&Hw1&Hs1) (Hr2&Hp2&Hw2&Hs2).
  split_and!; [congruence|lia|done|].
  destruct b1; simpl; [intros _; specialize (Hs1 eq_refl); lia|].
  intros Hb; specialize (Hs2 Hb); lia.
Qed.

Lemma adv_weaken b p p' : adv b p p' → adv false p p'.
Proof. unfold adv. intros (?&?&?&?). split_and!; auto. done. Qed.

Lemma rem_adv b p p' : adv b p p' → rem p' ≤ rem p.
Proof. unfold adv, rem. intros (->&?&?&?). lia. Qed.

Lemma rem_adv_strict p p' : adv true p p' → rem p' < rem p.
Proof. unfold adv, rem, wf. intros (->&?&?&Hs). specialize (Hs eq_refl). lia. Qed.

Lemma post_peek p Q E :
  Q (regex p !! pos p) p → post peek p Q E.
Proof. done. Qed.

Lemma post_consume p Q E :
  (∀ c, regex p !! pos p = Some c → Q (Some c) (mkParser (regex p) (S (pos p)))) →
  (regex p !! pos p = None → Q None p) →
  post consume p Q E.
Proof.
  unfold post, consume. destruct (regex p !! pos p); auto.
Qed.

Lemma adv_consume p c :
  wf p → regex p !! pos p = Some c → adv true p (mkParser (regex p) (S (pos p))).
Proof.
  unfold adv, wf. intros ? ?%lookup_lt_Some. simpl. split_and!; auto with lia.
Qed.

Lemma parse_star_loop_spec n node c p :
  wf p → c = regex p !! pos p → rem p + 1 ≤ n →
  post (parse_star_loop n node c) p (λ _ p', adv false p p') (λ _ _, False).
Proof.
  revert node c p. induction n as [|n IH]; intros node c p Hwf -> Hn; [lia|].
  simpl. destruct (regex p !! pos p) as [c'|] eqn:Hc; [|by apply post_ret, adv_refl].
  destruct (in_star_plus c'); [|by apply post_ret, adv_refl].
  apply post_bind, post_consume; [|congruence]. intros c2 Hc2.
  pose proof (adv_consume p c' Hwf Hc) as Hadv.
  apply post_bind, post_peek.
  eapply post_mono; [apply IH| |done].
  - apply Hadv.
  - done.
  - apply rem_adv_strict in Hadv. lia.
  - intros ? p' Hp'. simpl in Hp'. apply (adv_weaken _ _ _ (adv_trans _ _ _ _ _ Hadv Hp')).
Qed.

Lemma parse_post_call {A B} strict (c : M RegexParser A) (k : A → M RegexParser B)
    p (Q : B → RegexParser → Prop) :
  parse_post strict c p →
  (∀ a p', adv strict p p' → post (k a) p' Q (λ e _, syntax_error (regex p) e)) →
  post (bind c k) p Q (λ e _, syntax_error (regex p) e).
Proof.
  intros Hc Hk. apply post_bind. eapply post_mono; [apply Hc|..]; simpl; auto.
Qed.

Lemma parse_post_then strict strict' {A} (c : M RegexParser A) p0 p :
  adv strict p0 p → parse_post strict' c p →
  post c p (λ _ p', adv (strict || strict') p0 p') (λ e _, syntax_error (regex p0) e).
Proof.
  intros Hadv Hc. eapply post_mono; [apply Hc|..]; simpl.
  - intros _ p'. by apply adv_trans.
  - intros e _. destruct Hadv as [-> _]. done.
Qed.

Lemma parse_spec_all n : parse_spec n.
Proof.
  induction n as [|n (IHor & IHorl & IHc & IHcl & IHs & IHb)].
  { repeat split; intros; lia. }
  repeat split.
  - (* parse_or *)
    intros p Hwf Hn. unfold parse_post. simpl.
    eapply parse_post_call; [apply IHc; [done|lia]|].
    intros left p1 H1. eapply post_mono; [eapply parse_post_then; [exact H1|]|..].
    + apply IHorl; [apply H1|]. pose proof (rem_adv _ _ _ H1). lia.
    + done.
    + done.
  - (* parse_or_loop *)
    intros p left Hwf Hn. unfold parse_post. simpl.
    apply post_bind, post_peek. case_bool_decide as Hbar; [|by apply post_ret, adv_refl].
    apply post_bind, post_consume; [|congruence]. intros c _.
    pose proof (adv_consume p _ Hwf Hbar) as H0.
    pose proof (rem_adv_strict _ _ H0) as Hr0.
    apply post_bind.
    eapply post_mono; [eapply parse_post_then; [exact H0|]|..].
    + apply IHc; [apply H0|lia].
    + simpl. intros right p1 H1.
      eapply post_mono; [eapply parse_post_then; [exact H1|]|..].
      * apply IHorl; [apply H1|]. pose proof (rem_adv_strict _ _ H1). lia.
      * simpl. intros ? p2 H2. by eapply adv_weaken.
      * done.
    + done.
  - (* parse_concat *)
    intros p Hwf Hn. unfold parse_post. simpl.
    eapply parse_post_call; [apply IHcl; [done|lia]|].
    intros [|first rest] p1 H1; by apply post_ret.
  - (* parse_concat_loop *)
    intros p nodes Hwf Hn. unfold parse_post. simpl.
    apply post_bind, post_peek.
    destruct (regex p !! pos p) as [c'|] eqn:Hc; [|by apply post_ret, adv_refl].
    destruct (in_rparen_bar c') eqn:Hrb; [by apply post_ret, adv_refl|].
    eapply parse_post_call; [apply IHs; [done|lia|by exists c']|].
    intros node p1 H1.
    eapply post_mono; [eapply parse_post_then; [exact H1|]|..].
    + apply IHcl; [apply H1|]. pose proof (rem_adv_strict _ _ H1). lia.
    + simpl. intros ? p2 H2. by eapply adv_weaken.
    + done.
  - (* parse_star *)
    intros p Hwf Hn Hat. unfold parse_post. simpl.
    eapply parse_post_call; [apply IHb; [done|lia|done]|].
    intros node p1 H1. apply post_bind, post_peek.
    eapply post_mono; [apply parse_star_loop_spec|..].
    + apply H1.
    + done.
    + pose proof (rem_adv _ _ _ H1). lia.
    + simpl. intros ? p2 H2. apply (adv_trans _ _ _ _ _ H1 H2).
    + done.
  - (* parse_base *)
    intros p Hwf Hn (c0 & Hc0 & Hrb). unfold parse_post. simpl.
    apply post_bind, post_peek. apply post_bind, post_get. rewrite Hc0.
    pose proof (adv_consume p _ Hwf Hc0) as H0.
    pose proof (rem_adv_strict _ _ H0) as Hr0.
    case_bool_decide as Hlp.
    { apply post_bind, post_consume; [|congruence]. intros c _.
      apply post_bind.
      eapply post_mono; [eapply parse_post_then; [exact H0|]|..].
      - apply IHor; [apply H0|lia].
      - simpl. intros node p1 H1. apply post_bind, post_peek.
        case_bool_decide as Hrp.
        + apply post_bind, post_consume; [|congruence]. intros c2 _.
          apply post_ret.
          assert (wf p1) as Hwf1 by apply H1.
          pose proof (adv_consume p1 _ Hwf1 Hrp) as H2.
          apply (adv_trans _ _ _ _ _ H1 H2).
        + apply post_bind, post_get, post_raise. left. exists (pos p1).
          split; [done|]. destruct H1 as [<- _]. done.
      - done. }
    assert (post
      (if negb (in_reserved c0) then consume >> ret (CHAR c0)
       else raise (ValueError (UnexpectedChar (Some c0) (pos p)))) p
      (λ _ p', adv true p p') (λ e _, syntax_error (regex p) e)) as Hfall.
    { unfold in_reserved. rewrite Hrb. simpl.
      destruct (in_star_plus c0) eqn:Hsp; simpl.
      + apply post_raise. right. by exists c0, (pos p).
      + apply post_bind, post_consume; [|congruence]. intros c _.
        by apply post_ret. }
    case_bool_decide as Heps; simpl.
    { apply post_bind. case_bool_decide as Hbs; [by simplify_eq|].
      apply post_bind, post_consume; [|congruence]. intros c _.
      by apply post_ret, post_ret. }
    case_bool_decide as Hbs; simpl; [|done].
    case_bool_decide as He; simpl; [|done].
    apply post_bind, post_bind, post_consume; [|congruence]. intros c _.
    replace (pos p + 1) with (S (pos p)) in He by lia.
    apply post_bind, post_consume; simpl; [|congruence]. intros c2 _.
    apply post_ret, post_ret.
    assert (wf (mkParser (regex p) (S (pos p)))) as Hwf1 by apply H0.
    pose proof (adv_consume (mkParser (regex p) (S (pos p))) _ Hwf1 He) as H2.
    apply (adv_trans _ _ _ _ _ H0 H2).
Qed.

(** *** Text after an unmatched [')'] *)

Section trailing.
Variable t : str.
Abbreviation ext := (ParserSpec.ext t).
Abbreviation ext_ok := (ParserSpec.ext_ok t).
Abbreviation ext_spec := (ParserSpec.ext_spec t).

Lemma ext_lookup p :
  wf p →
  regex (ext p) !! pos p
  = Some (default Ch.rparen (regex p !! pos p)).
Proof.
  unfold wf, ext. simpl. intros Hwf.
  destruct (regex p !! pos p) as [c|] eqn:Hc; simpl.
  - by apply lookup_app_l_Some.
  - apply lookup_ge_None in Hc.
    rewrite lookup_app_r by done.
    by replace (pos p - length (regex p)) with 0 by lia.
Qed.

Lemma ext_lookup_Some p i c :
  regex p !! i = Some c → regex (ext p) !! i = Some c.
Proof. apply lookup_app_l_Some. Qed.

Lemma consume_Some p c :
  regex p !! pos p = Some c →
  consume p = (Ok (Some c), mkParser (regex p) (S (pos p))).
Proof. unfold consume. by intros ->. Qed.

Lemma consume_ext p c :
  regex p !! pos p = Some c →
  consume (ext p) = (Ok (Some c), ext (mkParser (regex p) (S (pos p)))).
Proof. intros Hc. by rewrite (consume_Some (ext p) c); [|apply ext_lookup_Some]. Qed.

Lemma parse_star_loop_ext n m node c p a p' :
  n ≤ m → wf p → c = regex p !! pos p →
  parse_star_loop n node c p = (Ok a, p') →
  adv false p p'
  ∧ parse_star_loop m node (regex (ext p) !! pos p) (ext p) = (Ok a, ext p').
Proof.
  revert m node c p. induction n as [|n IH]; intros m node c p Hm Hwf -> H;
    [done|].
  destruct m as [|m]; [lia|]. simpl in H. simpl parse_star_loop.
  rewrite ext_lookup by done.
  destruct (regex p !! pos p) as [c'|] eqn:Hc; simpl.
  - destruct (in_star_plus c') eqn:Hsp.
    + apply bind_Ok_inv in H as (op & p1 & Hop & H).
      rewrite (consume_Some _ _ Hc) in Hop. simplify_eq.
      apply bind_Ok_inv in H as (c2 & p2 & Hc2 & H).
      unfold peek, gets in Hc2. simplify_eq.
      pose proof (adv_consume p _ Hwf Hc) as H0.
      apply IH with (m := m) in H as [H1 H2]; [|lia|apply H0|done].
      split; [apply (adv_weaken _ _ _ (adv_trans _ _ _ _ _ H0 H1))|].
      erewrite bind_Ok by by apply consume_ext.
      erewrite bind_Ok by done. done.
    + unfold ret in H. simplify_eq. split; [by apply adv_refl|done].
  - unfold ret in H. simplify_eq. split; [by apply adv_refl|done].
Qed.

Lemma ext_ok_ret {A} (a : A) p : wf p → ext_ok false (ret a) (ret a) p.
Proof. intros Hwf a' p' [= <- <-]. split; [by apply adv_refl|done]. Qed.

Lemma ext_ok_weaken {A} strict (c c' : M RegexParser A) p :
  ext_ok strict c c' p → ext_ok false c c' p.
Proof. intros H a p' Hc. destruct (H a p' Hc). eauto using adv_weaken. Qed.

Lemma ext_ok_bind {A B} s1 s2 (c c' : M RegexParser A)
    (k k' : A → M RegexParser B) p :
  ext_ok s1 c c' p →
  (∀ a p1, adv s1 p p1 → ext_ok s2 (k a) (k' a) p1) →
  ext_ok (s1 || s2) (bind c k) (bind c' k') p.
Proof.
  intros Hc Hk b p' (a & p1 & H1 & H2)%bind_Ok_inv.
  destruct (Hc _ _ H1) as [Ha1 Hc'].
  destruct (Hk _ _ Ha1 _ _ H2) as [Ha2 Hk'].
  split; [by eapply adv_trans|]. by erewrite bind_Ok.
Qed.

Lemma ext_ok_consume p c :
  wf p → regex p !! pos p = Some c → ext_ok true consume consume p.
Proof.
  intros Hwf Hc a p' H. rewrite (consume_Some _ _ Hc) in H. simplify_eq.
  split; [by eapply adv_consume|by apply consume_ext].
Qed.

(** [c <- peek ; k c] where [k] treats end of input and [')'] alike. *)
Lemma ext_ok_peek {A} strict (k k' : option char → M RegexParser A) p :
  wf p →
  ext_ok strict (k (regex p !! pos p))
                (k' (Some (default Ch.rparen (regex p !! pos p)))) p →
  ext_ok strict (bind peek k) (bind peek k') p.
Proof.
  intros Hwf Hk a p' H. unfold bind, peek, gets in *. simpl in *.
  fold (pos (ext p)). change (pos (ext p)) with (pos p).
  change (regex p ++ Ch.rparen :: t) with (regex (ext p)).
  rewrite ext_lookup by done. by apply Hk.
Qed.

Lemma ext_ok_get {A} strict (k k' : RegexParser → M RegexParser A) p :
  ext_ok strict (k p) (k' (ext p)) p →
  ext_ok strict (bind get k) (bind get k') p.
Proof. done. Qed.

Lemma ext_ok_consume2 p c1 c2 :
  wf p → regex p !! pos p = Some c1 → regex p !! S (pos p) = Some c2 →
  ext_ok true (consume >> consume >> ret tt) (consume >> consume >> ret tt) p.
Proof.
  intros Hwf H1 H2 a p' H.
  pose proof (adv_consume p _ Hwf H1) as Ha1.
  set (p1 := mkParser (regex p) (S (pos p))) in *.
  assert (regex p1 !! pos p1 = Some c2) as H2' by done.
  pose proof (adv_consume p1 _ ltac:(apply Ha1) H2') as Ha2.
  rewrite (bind_Ok consume _ _ _ _ (consume_Some _ _ H1)) in H.
  rewrite (bind_Ok consume _ _ _ _ (consume_Some p1 _ H2')) in H.
  injection H as <- <-.
  split; [apply (adv_trans _ _ _ _ _ Ha1 Ha2)|].
  rewrite (bind_Ok consume _ _ _ _ (consume_ext _ _ H1)).
  by rewrite (bind_Ok consume _ _ _ _ (consume_ext p1 _ H2')).
Qed.

Lemma ext_spec_all n m : n ≤ m → ext_spec n m.
Proof.
  revert m. induction n as [|n IH]; intros m Hm.
  { unfold ext_spec. split_and!; repeat intro; discriminate. }
  destruct m as [|m]; [lia|].
  destruct (IH m ltac:(lia)) as (IHor & IHorl & IHc & IHcl & IHs & IHb).
  unfold ext_spec. split_and!.
  - (* parse_or *)
    intros p Hwf. simpl.
    apply (ext_ok_bind false false); [by apply IHc|].
    intros left p1 H1. apply IHorl, H1.
  - (* parse_or_loop *)
    intros p left Hwf. simpl. apply ext_ok_peek; [done|].
    destruct (regex p !! pos p) as [c|] eqn:Hc; simpl;
      [|by apply ext_ok_ret].
    case_bool_decide as Hbar; [|by apply ext_ok_ret].
    eapply ext_ok_weaken, (ext_ok_bind true false);
      [by eapply ext_ok_consume|].
    intros _ p1 H1. apply (ext_ok_bind false false); [apply IHc, H1|].
    intros right p2 H2. apply IHorl, H2.
  - (* parse_concat *)
    intros p Hwf. simpl.
    apply (ext_ok_bind false false); [by apply IHcl|].
    intros [|first rest] p1 H1; apply ext_ok_ret, H1.
  - (* parse_concat_loop *)
    intros p nodes Hwf. simpl. apply ext_ok_peek; [done|].
    destruct (regex p !! pos p) as [c|] eqn:Hc; simpl;
      [|by apply ext_ok_ret].
    destruct (in_rparen_bar c); [by apply ext_ok_ret|].
    eapply ext_ok_weaken, (ext_ok_bind true false); [by apply IHs|].
    intros node p1 H1. apply IHcl, H1.
  - (* parse_star *)
    intros p Hwf. simpl.
    apply (ext_ok_bind true false); [by apply IHb|].
    intros node p1 H1 a p' H.
    apply bind_Ok_inv in H as (c & p2 & Hpk & H).
    unfold peek, gets in Hpk. simplify_eq.
    destruct (parse_star_loop_ext n m node _ p2 a p'
                ltac:(lia) ltac:(apply H1) eq_refl H) as [H2 H3].
    split; [done|]. by erewrite bind_Ok.
  - (* parse_base *)
    intros p Hwf. simpl. apply ext_ok_peek; [done|]. apply ext_ok_get.
    destruct (regex p !! pos p) as [c|] eqn:Hc; simpl; [|by intros ? ? ?].
    pose proof (adv_consume p _ Hwf Hc) as H0.
    assert (regex (ext p) !! (pos p + 1) = Some Ch.e
            ↔ regex p !! (pos p + 1) = Some Ch.e) as Hnext.
    { split; [|apply ext_lookup_Some]. unfold ext. simpl.
      apply lookup_lt_Some in Hc.
      destruct (decide (pos p + 1 < length (regex p))).
      - by rewrite lookup_app_l.
      - rewrite lookup_app_r by lia.
        by replace (pos p + 1 - length (regex p)) with 0 by lia. }
    rewrite (bool_decide_ext _ _ Hnext).
    case_bool_decide as Hlp.
    { apply (ext_ok_bind true true); [by eapply ext_ok_consume|].
      intros _ p3 H3. apply (ext_ok_bind false true); [apply IHor, H3|].
      intros node p4 H4. apply ext_ok_peek; [apply H4|].
      destruct (regex p4 !! pos p4) as [c2|] eqn:Hc2; simpl.
      - case_bool_decide as Hrp; [|by intros ? ? ?].
        apply (ext_ok_bind true false);
          [eapply ext_ok_consume; [apply H4|done]|].
        intros _ p5 H5. apply ext_ok_ret, H5.
      - by intros ? ? ?. }
    case_bool_decide as Heps; simpl.
    { apply (ext_ok_bind true false).
      - case_bool_decide as Hbs; [by simplify_eq|].
        apply (ext_ok_bind true false); [by eapply ext_ok_consume|].
        intros _ p3 H3. apply ext_ok_ret, H3.
      - intros _ p3 H3. apply ext_ok_ret, H3. }
    assert (ext_ok true
      (if negb (in_reserved c) then consume >> ret (CHAR c)
       else raise (ValueError (UnexpectedChar (Some c) (pos p))))
      (if negb (in_reserved c) then consume >> ret (CHAR c)
       else raise (ValueError (UnexpectedChar (Some c) (pos (ext p)))))
      p) as Hfall.
    { destruct (in_reserved c); simpl; [by intros ? ? ?|].
      apply (ext_ok_bind true false); [by eapply ext_ok_consume|].
      intros _ p3 H3. apply ext_ok_ret, H3. }
    case_bool_decide as Hbs; simpl; [|done].
    case_bool_decide as He; simpl; [|done].
    replace (pos p + 1) with (S (pos p)) in He by lia.
    apply (ext_ok_bind true false).
    + by eapply ext_ok_consume2.
    + intros _ p3 H3. apply ext_ok_ret, H3.
Qed.
End trailing.

(** *** [parse_regex] *)

Lemma wf_init text : wf (init text).
Proof. unfold wf, init. simpl. lia. Qed.

Lemma parse_regex_post text :
  match parse_regex text with
  | Ok _ => True
  | Raise e => syntax_error (regex (init text)) e
  | Timeout => False
  end.
Proof.
  unfold parse_regex. destruct text as [|c text]; [done|].
  set (p := init (c :: text)).
  destruct (parse_spec_all (fuel p)) as [Hor _].
  specialize (Hor p (wf_init _) ltac:(unfold fuel, rem; lia)).
  unfold parse_post, post in Hor. unfold parse, bind, get.
  by destruct (parse_or (fuel p) p) as [[a|e|] p'].
Qed.

Lemma parse_base_reserved n p :
  match regex p !! pos p with
  | Some c => in_reserved c = true
  | None => True
  end →
  fst (parse_base (S n) p)
  = Raise (ValueError (UnexpectedChar (regex p !! pos p) (pos p))).
Proof.
  intros Hc. simpl. unfold bind, peek, gets, get. simpl.
  destruct (regex p !! pos p) as [c|]; [|done].
  unfold in_reserved, in_rparen_bar, in_star_plus in *.
  repeat case_bool_decide; simplify_eq; done.
Qed.

Lemma parse_star_raise n p e p1 :
  parse_base n p = (Raise e, p1) → parse_star (S n) p = (Raise e, p1).
Proof. intros H. simpl. by apply bind_Raise. Qed.

Lemma parse_concat_loop_raise n nodes p c e p1 :
  regex p !! pos p = Some c → in_rparen_bar c = false →
  parse_star n p = (Raise e, p1) →
  parse_concat_loop (S n) nodes p = (Raise e, p1).
Proof.
  intros Hpk Hrb H. simpl. unfold bind at 1, peek, gets.
  rewrite Hpk, Hrb. by apply bind_Raise.
Qed.

Lemma parse_concat_raise n p e p1 :
  parse_concat_loop n [] p = (Raise e, p1) →
  parse_concat (S n) p = (Raise e, p1).
Proof. intros H. simpl. by apply bind_Raise. Qed.

Lemma parse_or_raise n p e p1 :
  parse_concat n p = (Raise e, p1) → parse_or (S n) p = (Raise e, p1).
Proof. intros H. simpl. by apply bind_Raise. Qed.

Lemma parse_or_raise_at_base n p c e p1 :
  regex p !! pos p = Some c → in_rparen_bar c = false →
  parse_base n p = (Raise e, p1) →
  parse_or (4 + n) p = (Raise e, p1).
Proof.
  intros Hpk Hrb Hbase.
  apply parse_or_raise, parse_concat_raise.
  eapply parse_concat_loop_raise; [done..|].
  by apply parse_star_raise.
Qed.

Lemma parse_regex_star_plus c rest :
  in_star_plus c = true →
  parse_regex (c :: rest) = Raise (ValueError (UnexpectedChar (Some c) 0)).
Proof.
  intros Hc. unfold parse_regex, parse, bind, get.
  assert (c ≠ Ch.space) as Hsp.
  { intros ->. done. }
  assert (regex (init (c :: rest)) = c :: filter (λ c, c ≠ Ch.space) rest) as Hre.
  { unfold init. simpl. by rewrite filter_cons_True. }
  set (p := init (c :: rest)) in *.
  assert (∃ n, fuel p = 4 + S n) as [n ->].
  { exists (5 * length (regex p)). unfold fuel. simpl. lia. }
  assert (regex p !! pos p = Some c) as Hpk by by rewrite Hre.
  assert (in_rparen_bar c = false) as Hrb.
  { unfold in_star_plus, in_rparen_bar in *.
    repeat case_bool_decide; simplify_eq; done. }
  pose proof (parse_base_reserved n p) as Hb. rewrite Hpk in Hb.
  specialize (Hb ltac:(unfold in_reserved; rewrite Hc; apply orb_true_r)).
  destruct (parse_base (S n) p) as [o p1] eqn:Hbase. simpl in Hb. subst o.
  by rewrite (parse_or_raise_at_base _ _ _ _ _ Hpk Hrb Hbase).
Qed.

End ParserFacts.

(** *** The texts on which [parse_regex] raises *)

Module ParserScanFacts.
Import Parser ParserSpec ParserScanSpec.

Lemma unread_Some p c :
  regex p !! pos p = Some c → unread p = c :: unread (mkParser (regex p) (S (pos p))).
Proof. unfold unread. simpl. intros H. by rewrite <- drop_S. Qed.

Lemma unread_None p : regex p !! pos p = None → unread p = [].
Proof. unfold unread. intros H%lookup_ge_None. by apply drop_ge. Qed.

(** Whether a base expression is due matters only at a ['*'] or ['+']. *)
Lemma malformed_base depth base text :
  stops_at not_star_plus text →
  malformed depth base text = malformed depth false text.
Proof.
  destruct text as [|c text]; [done|]. simpl. unfold not_star_plus.
  intros H%negb_true_iff. rewrite H. done.
Qed.

Lemma scans_bind {A B} base base' stop stop' (c : M RegexParser A)
    (k : A → M RegexParser B) p :
  scans base stop c p →
  (∀ a p', c p = (Ok a, p') → stops_at stop (unread p') →
           scans base' stop' (k a) p'
           ∧ ∀ depth, malformed depth false (unread p')
                      = malformed depth base' (unread p')) →
  scans base stop' (bind c k) p.
Proof.
  unfold scans at 1 3, bind. destruct (c p) as [[a|e|] p1]; [|done..].
  intros [Hstop Heq] Hk. destruct (Hk a p1 eq_refl Hstop) as [Hs Hb].
  unfold scans in Hs. destruct (k a p1) as [[b|e|] p2]; [| |done].
  - destruct Hs as [Hstop2 Heq2]. split; [done|].
    intros d. by rewrite Heq, Hb, Heq2.
  - intros d. by rewrite Heq, Hb, Hs.
Qed.

Lemma scans_ret {A} base stop (a : A) p :
  stops_at stop (unread p) →
  (∀ depth, malformed depth base (unread p) = malformed depth false (unread p)) →
  scans base stop (ret a) p.
Proof. unfold scans, ret. done. Qed.

Lemma parse_star_loop_scans n node p :
  scans false not_star_plus (parse_star_loop n node (regex p !! pos p)) p.
Proof.
  revert node p. induction n as [|n IH]; intros node p; [done|].
  simpl. destruct (regex p !! pos p) as [c|] eqn:Hc.
  - destruct (in_star_plus c) eqn:Hsp.
    + unfold scans, bind at 1, consume. rewrite Hc. unfold bind at 1, peek, gets.
      set (p1 := mkParser (regex p) (S (pos p))).
      specialize (IH (if bool_decide (Some c = Some Ch.star) then STAR node
                      else PLUS node) p1).
      unfold scans in IH.
      destruct (parse_star_loop n _ _ p1) as [[a|e|] p2]; [| |done].
      * destruct IH as [Hstop Heq]. split; [done|]. intros d.
        rewrite <- Heq, (unread_Some p c Hc). simpl. rewrite Hsp.
        unfold in_star_plus in Hsp. repeat case_bool_decide; simplify_eq; done.
      * intros d. rewrite (unread_Some p c Hc). simpl. rewrite Hsp.
        unfold in_star_plus in Hsp. specialize (IH d).
        repeat case_bool_decide; simplify_eq; done.
    + apply scans_ret; [|done]. rewrite (unread_Some p c Hc). simpl.
      unfold not_star_plus. by rewrite Hsp.
  - apply scans_ret; [|done]. by rewrite unread_None.
Qed.

Lemma malformed_lparen depth base text :
  malformed depth base (Ch.lparen :: text) = malformed (S depth) true text.
Proof. done. Qed.

Lemma malformed_rparen depth base text :
  malformed (S depth) base (Ch.rparen :: text) = malformed depth false text.
Proof. done. Qed.

Lemma malformed_bar depth base text :
  malformed depth base (Ch.bar :: text) = malformed depth true text.
Proof. done. Qed.

Lemma malformed_star_plus c depth text :
  in_star_plus c = true → malformed depth true (c :: text) = true.
Proof.
  intros H. simpl. rewrite H. unfold in_star_plus in H.
  repeat case_bool_decide; simplify_eq; done.
Qed.

Lemma malformed_plain c depth base text :
  c ≠ Ch.lparen → in_reserved c = false →
  malformed depth base (c :: text) = malformed depth false text.
Proof.
  intros Hlp Hres. simpl. unfold in_reserved, in_rparen_bar in Hres.
  rewrite !orb_false_iff in Hres. destruct Hres as [[? ?] ->].
  repeat case_bool_decide; simplify_eq; done.
Qed.

Lemma stops_at_any text : stops_at (λ _, true) text.
Proof. by destruct text. Qed.

Lemma stops_at_lookup kind p :
  stops_at kind (unread p)
  ↔ ∀ c, regex p !! pos p = Some c → kind c = true.
Proof.
  destruct (regex p !! pos p) as [c|] eqn:Hc.
  - rewrite (unread_Some p c Hc). simpl. naive_solver.
  - rewrite (unread_None p Hc). simpl. naive_solver.
Qed.

Lemma scans_peek {A} base stop (k : option char → M RegexParser A) p :
  scans base stop (k (regex p !! pos p)) p → scans base stop (bind peek k) p.
Proof. done. Qed.

Lemma scans_get {A} base stop (k : RegexParser → M RegexParser A) p :
  scans base stop (k p) p → scans base stop (bind get k) p.
Proof. done. Qed.

Lemma scans_consume {A} base base' stop (k : option char → M RegexParser A) p c :
  regex p !! pos p = Some c →
  (∀ depth text, malformed depth base (c :: text) = malformed depth base' text) →
  scans base' stop (k (Some c)) (mkParser (regex p) (S (pos p))) →
  scans base stop (bind consume k) p.
Proof.
  intros Hc Hstep. unfold scans, bind, consume. rewrite Hc, (unread_Some p c Hc).
  destruct (k (Some c) _) as [[a|e|] p2]; [| |done].
  - intros [Hstop Heq]. split; [done|]. intros d. by rewrite Hstep, Heq.
  - intros Heq d. by rewrite Hstep, Heq.
Qed.

Lemma scans_base {A} base stop (c : M RegexParser A) p :
  base = true ∨ stops_at not_star_plus (unread p) →
  scans true stop c p → scans base stop c p.
Proof.
  intros [->|Hp]; [done|]. unfold scans.
  destruct (c p) as [[a|e|] p']; [| |done].
  - intros [Hstop Heq]. split; [done|]. intros d.
    by rewrite <- Heq, (malformed_base d base _ Hp), (malformed_base d true _ Hp).
  - intros Heq d.
    by rewrite <- (Heq d), (malformed_base d base _ Hp), (malformed_base d true _ Hp).
Qed.

Lemma rparen_bar_not_star_plus c :
  in_rparen_bar c = true → not_star_plus c = true.
Proof.
  unfold in_rparen_bar, not_star_plus, in_star_plus.
  repeat case_bool_decide; simplify_eq; done.
Qed.

Lemma scan_spec_all n : scan_spec n.
Proof.
  induction n as [|n (IHor & IHorl & IHc & IHcl & IHs & IHb)].
  { repeat split; intros; done. }
  unfold scan_spec; split_and!.
  - (* parse_or *)
    intros p. simpl.
    apply (scans_bind true false in_rparen_bar is_rparen); [apply IHc|].
    intros left p1 _ Hstop. split; [by apply IHorl|done].
  - (* parse_or_loop *)
    intros p left Hstop. simpl. apply scans_peek.
    case_bool_decide as Hbar.
    + apply (scans_consume false true _ _ _ Ch.bar Hbar); [done|].
      apply (scans_bind true false in_rparen_bar is_rparen); [apply IHc|].
      intros right p1 _ Hstop1. split; [by apply IHorl|done].
    + apply scans_ret; [|done]. apply stops_at_lookup. intros c Hc.
      pose proof (proj1 (stops_at_lookup _ _) Hstop c Hc) as Hc'.
      unfold in_rparen_bar, is_rparen in *.
      repeat case_bool_decide; simplify_eq; done.
  - (* parse_concat *)
    intros p. simpl.
    apply (scans_bind true false in_rparen_bar in_rparen_bar);
      [apply IHcl; by left|].
    intros nodes p1 _ Hstop. split; [|done].
    destruct nodes; by apply scans_ret.
  - (* parse_concat_loop *)
    intros p nodes base Hbase. simpl. apply scans_peek.
    destruct (regex p !! pos p) as [c'|] eqn:Hc.
    + destruct (in_rparen_bar c') eqn:Hrb.
      * apply scans_ret.
        -- apply stops_at_lookup. intros c. rewrite Hc. by intros [= <-].
        -- intros d. apply malformed_base. rewrite (unread_Some p c' Hc). simpl.
           by apply rparen_bar_not_star_plus.
      * apply (scans_bind base false not_star_plus in_rparen_bar).
        -- apply scans_base; [done|]. apply IHs. by exists c'.
        -- intros node p1 _ Hstop1. split; [|done]. apply IHcl. by right.
    + apply scans_ret.
      * by rewrite (unread_None p Hc).
      * intros d. by rewrite (unread_None p Hc).
  - (* parse_star *)
    intros p Hat. simpl.
    apply (scans_bind true false (λ _, true) not_star_plus); [by apply IHb|].
    intros node p1 _ _. split; [|done].
    apply scans_peek, parse_star_loop_scans.
  - (* parse_base *)
    intros p (c0 & Hc0 & Hrb). simpl. apply scans_peek, scans_get. rewrite Hc0.
    case_bool_decide as Hlp.
    { injection Hlp as ->. unfold scans, bind at 1, consume. rewrite Hc0.
      set (p1 := mkParser (regex p) (S (pos p))).
      rewrite (unread_Some p _ Hc0). fold p1.
      unfold bind at 1. pose proof (IHor p1) as H. unfold scans in H.
      destruct (parse_or n p1) as [[node|e|] p2]; [| |done].
      - destruct H as [Hstop Heq]. unfold bind at 1, peek, gets.
        case_bool_decide as Hrp.
        + unfold bind, consume, ret. rewrite Hrp. split; [apply stops_at_any|].
          intros d. rewrite malformed_lparen, Heq, (unread_Some p2 _ Hrp).
          apply malformed_rparen.
        + unfold bind, get, raise. intros d. rewrite malformed_lparen, Heq.
          destruct (regex p2 !! pos p2) as [c2|] eqn:Hc2.
          * pose proof (proj1 (stops_at_lookup _ _) Hstop c2 Hc2) as Hc2'.
            unfold is_rparen in Hc2'. apply bool_decide_eq_true in Hc2'. by subst.
          * by rewrite (unread_None p2 Hc2).
      - intros d. by rewrite malformed_lparen. }
    assert (c0 ≠ Ch.lparen) as Hlp' by congruence.
    destruct (bool_decide (Some c0 = Some Ch.epsilon)
              || bool_decide (Some c0 = Some Ch.backslash)
                 && bool_decide (regex p !! (pos p + 1) = Some Ch.e)) eqn:Heps.
    { apply (scans_bind true false (λ _, true) (λ _, true)).
      2:{ intros [] p1 _ _. split; [|done]. apply scans_ret; [apply stops_at_any|done]. }
      destruct (decide (Some c0 = Some Ch.backslash)) as [Hbs|Hbs].
      - rewrite (bool_decide_eq_true_2 _ Hbs). injection Hbs as ->.
        simpl in Heps. apply bool_decide_eq_true in Heps.
        replace (pos p + 1) with (S (pos p)) in Heps by lia.
        apply (scans_consume true false _ _ _ _ Hc0).
        { intros d text. by apply malformed_plain. }
        apply (scans_consume false false _ _ (mkParser (regex p) (S (pos p))) Ch.e Heps).
        { intros d text. by apply malformed_plain. }
        apply scans_ret; [apply stops_at_any|done].
      - rewrite (bool_decide_eq_false_2 _ Hbs) in Heps |- *.
        rewrite orb_false_r in Heps. apply bool_decide_eq_true in Heps.
        injection Heps as ->.
        apply (scans_consume true false _ _ _ _ Hc0).
        { intros d text. by apply malformed_plain. }
        apply scans_ret; [apply stops_at_any|done]. }
    destruct (in_reserved c0) eqn:Hres; simpl.
    + unfold scans, raise. intros d. rewrite (unread_Some p _ Hc0).
      apply malformed_star_plus. unfold in_reserved in Hres.
      by rewrite Hrb in Hres.
    + apply (scans_consume true false _ _ _ _ Hc0).
      { intros d text. by apply malformed_plain. }
      apply scans_ret; [apply stops_at_any|done].
Qed.

(** [parse_regex] raises exactly on the malformed texts. *)
Lemma parse_regex_raises_iff text :
  (∃ e, parse_regex text = Raise e)
  ↔ malformed 0 true (filter (λ c, c ≠ Ch.space) text) = true.
Proof.
  pose proof (ParserFacts.parse_regex_post text) as Hpost.
  unfold parse_regex in *. destruct text as [|c0 text].
  { simpl. split; [by intros [e ?]|done]. }
  set (p := init (c0 :: text)) in *.
  change (filter (λ c, c ≠ Ch.space) (c0 :: text)) with (unread p).
  destruct (scan_spec_all (fuel p)) as [Hor _]. specialize (Hor p).
  unfold scans in Hor. unfold parse, bind, get in *.
  destruct (parse_or (fuel p) p) as [[a|e|] p']; simpl in *; [| |done].
  - destruct Hor as [Hstop Heq]. rewrite Heq. split; [by intros [e ?]|].
    destruct (unread p') as [|c r]; [done|]. simpl in Hstop.
    unfold is_rparen in Hstop. apply bool_decide_eq_true in Hstop. by subst.
  - split; [done|]. by exists e.
Qed.

End ParserScanFacts.

Example parse_regex_a : parse_regex (py "a") = Ok (CHAR 97%N).
Proof. reflexivity. Qed.

Example parse_regex_abb :
  parse_regex (py "(a|b)*abb")
  = Ok (CONCAT (CONCAT (CONCAT (STAR (OR (CHAR 97%N) (CHAR 98%N))) (CHAR 97%N))
                  (CHAR 98%N)) (CHAR 98%N)).
Proof. reflexivity. Qed.

Example parse_regex_empty_group : parse_regex (py "()") = Ok EPSILON.
Proof. reflexivity. Qed.

Example parse_regex_unclosed :
  parse_regex (py "(a") = Raise (ValueError (ExpectedRParen 2)).
Proof. reflexivity. Qed.

(** ** ε-closure *)

Module EpsilonNFAFacts.
Import EpsilonNFA EpsilonNFASpec.

Lemma get_next_states_targets (self : EpsilonNFA) state symbol :
  NFA.get_next_states self state symbol ⊆ all_targets self.
Proof.
  unfold NFA.get_next_states, all_targets.
  destruct (own self !! (state, symbol)) as [X|] eqn:HX; simpl; [|set_solver].
  intros x Hx. apply elem_of_union_list. exists X. split; [|done].
  apply list_elem_of_fmap. exists ((state, symbol), X). split; [done|].
  by apply elem_of_map_to_list.
Qed.

Lemma visit_todo T acc next_state :
  next_state ∈ T → todo T (visit acc next_state) = todo T acc.
Proof.
  intros HT. destruct acc as [closure queue]. unfold visit, todo.
  case_bool_decide as Hin; simpl; [|done].
  rewrite length_app. simpl.
  assert (T ∖ closure = {[next_state]} ∪ T ∖ (closure ∪ {[next_state]})) as ->.
  { apply set_eq. intros x. destruct (decide (x = next_state)); set_solver. }
  pose proof (size_union (C:=gset (list N)) {[next_state]}
                (T ∖ (closure ∪ {[next_state]})) ltac:(set_solver)) as Hsz.
  rewrite size_singleton in Hsz. lia.
Qed.

Lemma foldl_visit_todo T l acc :
  (∀ x, x ∈ l → x ∈ T) → todo T (foldl visit acc l) = todo T acc.
Proof.
  revert acc. induction l as [|x l IH]; intros acc Hl; simpl; [done|].
  rewrite IH by (intros y Hy; apply Hl; by right).
  apply visit_todo, Hl. by left.
Qed.

Lemma closure_loop_total n (self : EpsilonNFA) closure queue :
  todo (all_targets self) (closure, queue) ≤ n →
  is_Some (closure_loop n self closure queue).
Proof.
  revert closure queue. induction n as [|n IH]; intros closure queue Hn.
  - destruct queue; [by eexists|]. unfold todo in Hn. simpl in Hn. lia.
  - destruct queue as [|state queue]; [by eexists|]. simpl.
    pose proof (foldl_visit_todo (all_targets self)
                  (elements (NFA.get_next_states self state EPS))
                  (closure, queue)) as Hfold.
    destruct (foldl visit _ _) as [closure' queue'].
    apply IH. rewrite Hfold.
    + unfold todo in *. simpl in *. lia.
    + intros x Hx%elem_of_elements. by eapply get_next_states_targets.
Qed.

(** The closure loop always ends within its fuel. *)
Lemma epsilon_closure_total (self : EpsilonNFA) (states0 : gset str) :
  is_Some (epsilon_closure self states0).
Proof.
  apply closure_loop_total. unfold todo, closure_fuel. simpl.
  change (length (elements states0)) with (size states0).
  assert (size (all_targets self ∖ states0) ≤ size (all_targets self)).
  { apply subseteq_size. set_solver. }
  lia.
Qed.

Lemma accepts_from_total (self : EpsilonNFA) current_states w :
  is_Some (accepts_from self current_states w).
Proof.
  revert current_states. induction w as [|c w IH]; intros current_states; simpl.
  - by eexists.
  - case_bool_decide; [by eexists|].
    by destruct (epsilon_closure_total self (NFA.move self current_states [c]))
      as [X ->].
Qed.

(** [EpsilonNFA.accepts] always gives a verdict. *)
Lemma accepts_total (self : EpsilonNFA) w : is_Some (accepts self w).
Proof.
  unfold accepts. destruct (start_state self) as [q|]; [|by eexists].
  destruct (epsilon_closure_total self {[q]}) as [X ->].
  apply accepts_from_total.
Qed.
End EpsilonNFAFacts.

(** ** Thompson's construction *)

Module ThompsonFacts.
Import Thompson ThompsonSpec.

Lemma py_inj : Inj (=) (=) py.
Proof.
  intros s1 s2 H. unfold py in H.
  assert (Inj (=) (=) (λ a : ascii, N_of_ascii a)) as Hinj.
  { intros a b Hab.
    by rewrite <-(ascii_N_embedding a), <-(ascii_N_embedding b), Hab. }
  apply (inj _) in H.
  by rewrite <-(string_of_list_ascii_of_string s1),
           <-(string_of_list_ascii_of_string s2), H.
Qed.

Lemma state_name_inj : Inj (=) (=) state_name.
Proof.
  intros i j H. unfold state_name in H. apply py_inj in H.
  apply (inj (String.app "q")) in H. by apply (inj pretty) in H.
Qed.

Lemma fresh_name e i :
  inv e → state_counter e < i → state_name i ∉ dom (states (nfa e)).
Proof.
  intros He Hi Hin. destruct (inv_names e He _ Hin) as (j & Hj & Heq).
  apply state_name_inj in Heq. lia.
Qed.

Lemma inv_init : inv (mkEnv EpsilonNFA.new 0).
Proof. split; simpl; set_solver. Qed.

Lemma new_pair_spec e :
  inv e →
  post new_pair e
    (λ '(start, accept) e',
       inv e'
       ∧ state_counter e' = 2 + state_counter e
       ∧ start = state_name (1 + state_counter e)
       ∧ accept = state_name (2 + state_counter e)
       ∧ dom (states (nfa e')) = dom (states (nfa e)) ∪ {[start; accept]}
       ∧ accept_states (nfa e') = accept_states (nfa e) ∪ {[accept]})
    (λ _ _, False).
Proof.
  intros [Hn Ha Hs]. unfold post. simpl. split_and!; try done.
  - split; simpl.
    + intros q. rewrite !dom_insert. intros Hq.
      apply elem_of_union in Hq as [Hq|Hq];
        [|apply elem_of_union in Hq as [Hq|Hq]].
      * apply elem_of_singleton in Hq as ->. exists (2 + state_counter e).
        split; [lia|done].
      * apply elem_of_singleton in Hq as ->. exists (1 + state_counter e).
        split; [lia|done].
      * destruct (Hn q Hq) as (i & ? & ?). exists i. split; [lia|done].
    + rewrite !dom_insert. set_solver.
    + intros q st. rewrite !lookup_insert. repeat case_decide; naive_solver.
  - rewrite !dom_insert_L. set_solver.
Qed.

Lemma clear_accept_flag_spec q e :
  inv e → q ∈ dom (states (nfa e)) →
  post (on_nfa (clear_accept_flag q)) e
    (λ _ e', inv e' ∧ same_view e e') (λ _ _, False).
Proof.
  intros [Hn Ha Hs] [st Hst]%elem_of_dom.
  unfold post, on_nfa, clear_accept_flag, bind, get. simpl. rewrite Hst. simpl.
  assert (dom (<[q:=mkState (name st) false (is_start st)]> (states (nfa e)))
          = dom (states (nfa e))) as Hdom.
  { rewrite dom_insert_L. apply elem_of_dom_2 in Hst. set_solver. }
  split; [split; simpl|done].
  - by rewrite Hdom.
  - by rewrite Hdom.
  - intros q' st'. rewrite lookup_insert. case_decide.
    + intros [= <-]. simpl. eauto.
    + eauto.
Qed.

Lemma discard_accept_spec q e :
  inv e →
  post (on_nfa (discard_accept q)) e
    (λ _ e', inv e'
             ∧ state_counter e' = state_counter e
             ∧ dom (states (nfa e')) = dom (states (nfa e))
             ∧ accept_states (nfa e') = accept_states (nfa e) ∖ {[q]})
    (λ _ _, False).
Proof.
  intros [Hn Ha Hs]. unfold post. simpl. split; [split; simpl|done]; auto.
  set_solver.
Qed.

Lemma add_transition_spec from_state to_state symbol e :
  inv e →
  post (on_nfa (NFA.add_transition from_state to_state symbol None)) e
    (λ _ e', inv e' ∧ same_view e e') (λ _ _, False).
Proof.
  intros [Hn Ha Hs]. unfold post, on_nfa, NFA.add_transition,
    Automaton.add_transition, bind, modify, ret.
  case_bool_decide; simpl; (split; [split; simpl|done]); auto.
Qed.

(** [c ; k] where [c] meets [Q] and never raises. *)
Lemma post_step {S A B} (c : M S A) (k : A → M S B) (s : S)
    (Q : A → S → Prop) (R : B → S → Prop) :
  post c s Q (λ _ _, False) →
  (∀ a s', Q a s' → post (k a) s' R (λ _ _, False)) →
  post (bind c k) s R (λ _ _, False).
Proof.
  intros Hc Hk. apply post_bind. eapply post_mono; [exact Hc|..]; auto.
Qed.

Lemma build_leaf e symbol :
  inv e →
  post ('(start, accept) <- new_pair ;
        on_nfa (NFA.add_transition start accept symbol None) >>
        ret (mkFragment start accept)) e (built e) (λ _ _, False).
Proof.
  intros He. eapply post_step; [by apply new_pair_spec|].
  intros [start accept] e1 (He1 & Hk1 & -> & -> & Hd1 & Ha1).
  eapply post_step; [by apply add_transition_spec|].
  intros _ e2 (He2 & Hk2 & Hd2 & Ha2). apply post_ret.
  unfold built. simpl. rewrite Hk2, Hd2, Ha2, Hk1, Hd1, Ha1.
  split_and!; [done|lia|set_solver..| |done].
  exists (2 + state_counter e). split; [lia|done].
Qed.

Lemma built_fresh e frag e' i :
  inv e → built e frag e' → state_counter e' < i →
  (frag_accept frag ∉ accept_states (nfa e))
  ∧ (state_name i ≠ frag_accept frag).
Proof.
  intros He (He' & Hk & Hd & Hfs & Hfa & (j & Hj & Heq) & Hacc) Hi. split.
  - rewrite Heq. intros Hin. apply (inv_accept e He) in Hin. revert Hin.
    apply fresh_name; [done|lia].
  - rewrite Heq. intros Hij%state_name_inj. lia.
Qed.

(** Rewrite the view of the latest environment into that of earlier ones. *)
Ltac norm_view :=
  repeat match goal with
  | H : same_view _ _ |- _ => destruct H as (? & ? & ?)
  end;
  repeat match goal with
  | H : state_counter ?e = _ |- context [state_counter ?e] => rewrite H
  | H : dom (states (nfa ?e)) = _ |- context [dom (states (nfa ?e))] => rewrite H
  | H : accept_states (nfa ?e) = _ |- context [accept_states (nfa ?e)] => rewrite H
  end.

Ltac solve_sets :=
  repeat match goal with
  | H : inv _ |- _ => clear H
  | H : built _ _ _ |- _ => clear H
  | H : state_counter _ = _ |- _ => clear H
  | H : _ ≤ _ |- _ => clear H
  | H : _ < _ |- _ => clear H
  | H : _ ∧ _ |- _ => clear H
  | H : ∀ _, _ |- _ => clear H
  end;
  set_solver.

Ltac step lem :=
  eapply post_step; [apply lem; [done|..]; norm_view|]; cbv beta.

Lemma build_fragment_spec node e :
  inv e → post (build_fragment node) e (built e) (λ _ _, False).
Proof.
  revert e. induction node as [value| |l IHl r IHr|l IHl r IHr|l IHl|l IHl];
    intros e0 He0; simpl build_fragment.
  - by apply build_leaf.
  - by apply build_leaf.
  - (* CONCAT *)
    eapply post_step; [by apply IHl|]. intros lf e1 Hl.
    eapply post_step; [apply IHr, Hl|]. intros rf e2 Hr.
    pose proof Hl as (He1 & Hk1 & Hd1 & Hls & Hla & _ & Ha1).
    pose proof Hr as (He2 & Hk2 & Hd2 & Hrs & Hra & (j & Hj & Hjeq) & Ha2).
    destruct (built_fresh e0 lf e1 j He0 Hl ltac:(lia)) as [Hfresh Hne].
    step clear_accept_flag_spec; [set_solver|]. intros _ e3 (He3 & Hv3).
    step discard_accept_spec. intros _ e4 (He4 & Hk4 & Hd4 & Ha4).
    step add_transition_spec. intros _ e5 (He5 & Hv5).
    apply post_ret. unfold built. simpl. norm_view.
    rewrite <-Hjeq in Hne.
    split_and!; [done|lia|solve_sets..| |solve_sets].
    exists j. split; [lia|done].
  - (* OR *)
    eapply post_step; [by apply IHl|]. intros lf e1 Hl.
    eapply post_step; [apply IHr, Hl|]. intros rf e2 Hr.
    pose proof Hl as (He1 & Hk1 & Hd1 & Hls & Hla & _ & Ha1).
    pose proof Hr as (He2 & Hk2 & Hd2 & Hrs & Hra & (j & Hj & Hjeq) & Ha2).
    destruct (built_fresh e0 lf e1 j He0 Hl ltac:(lia)) as [Hlfresh Hlr].
    destruct (built_fresh e0 lf e1 (2 + state_counter e2) He0 Hl ltac:(lia))
      as [_ Hla'].
    destruct (built_fresh e1 rf e2 (2 + state_counter e2) He1 Hr ltac:(lia))
      as [Hrfresh Hra'].
    eapply post_step; [by apply new_pair_spec|].
    intros [start accept] e3 (He3 & Hk3 & -> & -> & Hd3 & Ha3).
    step clear_accept_flag_spec; [set_solver|]. intros _ e4 (He4 & Hv4).
    step clear_accept_flag_spec; [set_solver|]. intros _ e5 (He5 & Hv5).
    step discard_accept_spec. intros _ e6 (He6 & Hk6 & Hd6 & Ha6).
    step discard_accept_spec. intros _ e7 (He7 & Hk7 & Hd7 & Ha7).
    step add_transition_spec. intros _ e8 (He8 & Hv8).
    step add_transition_spec. intros _ e9 (He9 & Hv9).
    step add_transition_spec. intros _ e10 (He10 & Hv10).
    step add_transition_spec. intros _ e11 (He11 & Hv11).
    apply post_ret. unfold built. simpl. norm_view.
    rewrite <-Hjeq in Hlr. rewrite Ha1 in Hrfresh.
    split_and!; [done|lia|solve_sets..| |solve_sets].
    exists (2 + state_counter e2). split; [lia|done].
  - (* STAR *)
    eapply post_step; [by apply IHl|]. intros f e1 Hf.
    pose proof Hf as (He1 & Hk1 & Hd1 & Hfs & Hfa & _ & Ha1).
    destruct (built_fresh e0 f e1 (2 + state_counter e1) He0 Hf ltac:(lia))
      as [Hfresh Hne].
    eapply post_step; [by apply new_pair_spec|].
    intros [start accept] e2 (He2 & Hk2 & -> & -> & Hd2 & Ha2).
    step clear_accept_flag_spec; [set_solver|]. intros _ e3 (He3 & Hv3).
    step discard_accept_spec. intros _ e4 (He4 & Hk4 & Hd4 & Ha4).
    step add_transition_spec. intros _ e5 (He5 & Hv5).
    step add_transition_spec. intros _ e6 (He6 & Hv6).
    step add_transition_spec. intros _ e7 (He7 & Hv7).
    step add_transition_spec. intros _ e8 (He8 & Hv8).
    apply post_ret. unfold built. simpl. norm_view.
    split_and!; [done|lia|solve_sets..| |solve_sets].
    exists (2 + state_counter e1). split; [lia|done].
  - (* PLUS *)
    eapply post_step; [by apply IHl|]. intros f e1 Hf.
    pose proof Hf as (He1 & Hk1 & Hd1 & Hfs & Hfa & _ & Ha1).
    destruct (built_fresh e0 f e1 (2 + state_counter e1) He0 Hf ltac:(lia))
      as [Hfresh Hne].
    eapply post_step; [by apply new_pair_spec|].
    intros [start accept] e2 (He2 & Hk2 & -> & -> & Hd2 & Ha2).
    step clear_accept_flag_spec; [set_solver|]. intros _ e3 (He3 & Hv3).
    step discard_accept_spec. intros _ e4 (He4 & Hk4 & Hd4 & Ha4).
    step add_transition_spec. intros _ e5 (He5 & Hv5).
    step add_transition_spec. intros _ e6 (He6 & Hv6).
    step add_transition_spec. intros _ e7 (He7 & Hv7).
    apply post_ret. unfold built. simpl. norm_view.
    split_and!; [done|lia|solve_sets..| |solve_sets].
    exists (2 + state_counter e1). split; [lia|done].
Qed.

Lemma construct_spec ast :
  ∃ e, construct ast (mkEnv EpsilonNFA.new 0) = (Ok tt, e)
       ∧ one_start (nfa e) ∧ one_accept (nfa e).
Proof.
  pose proof (build_fragment_spec ast _ inv_init) as Hb.
  unfold construct, bind. unfold post in Hb.
  destruct (build_fragment ast _) as [[frag| |] e1]; [|done..].
  destruct Hb as ([Hn Ha Hs] & _ & _ & Hfs & Hfa & _ & Hacc).
  apply elem_of_dom in Hfs as [st Hst].
  unfold on_nfa, set_start_flag, bind, get, modify. simpl. rewrite Hst. simpl.
  eexists. split; [done|]. simpl. split.
  - exists (frag_start frag). simpl. split_and!; [done|..].
    + rewrite lookup_insert_eq. eauto.
    + intros q' st'. rewrite lookup_insert. case_decide as Hq.
      * intros [= <-]. simpl. by subst.
      * intros Hst'. rewrite (Hs _ _ Hst'). split; [done|congruence].
  - exists (frag_accept frag). simpl. split.
    + rewrite Hacc. simpl. set_solver.
    + apply elem_of_dom. rewrite dom_insert_L. set_solver.
Qed.

End ThompsonFacts.

(** ** The PDA search *)

Module PDAFacts.
Import PDA PDASpec.

Lemma accepts_loop_mono n m self queue visited b :
  n ≤ m →
  accepts_loop n self queue visited = Ok b →
  accepts_loop m self queue visited = Ok b.
Proof.
  revert m queue visited. induction n as [|n IH]; intros m queue visited Hm.
  - destruct queue; simpl; [by destruct m|done].
  - destruct m as [|m]; [lia|]. destruct queue as [|config queue]; [done|].
    simpl. case_bool_decide; [apply IH; lia|].
    destruct (accepting self config); [done|].
    destruct (stack_top config); apply IH; lia.
Qed.

Lemma accepts_loop_no_raise n self queue visited e :
  accepts_loop n self queue visited ≠ Raise e.
Proof.
  revert queue visited. induction n as [|n IH]; intros [|config queue] visited;
    simpl; try done.
  case_bool_decide; [apply IH|].
  destruct (accepting self config); [done|].
  destruct (stack_top config); apply IH.
Qed.

Lemma path_from_length max_steps self config :
  length (path_from max_steps self config) ≤ max_steps.
Proof.
  revert config. induction max_steps as [|n IH]; intros config; simpl; [done|].
  destruct (accepting self config); simpl; [lia|].
  destruct (stack_top config); simpl; [|lia].
  destruct (get_applicable_transitions _ _ _ _); simpl; [lia|].
  specialize (IH (apply_transition config p)). lia.
Qed.

Lemma simulate_length self w max_steps :
  length (simulate_step_by_step self w max_steps) ≤ S max_steps.
Proof.
  unfold simulate_step_by_step. destruct (start_state self); simpl; [|lia].
  pose proof (path_from_length max_steps self (initial_config self l w)). lia.
Qed.

Lemma push_config_key_inj j k :
  config_key (push_config j) = config_key (push_config k) → j = k.
Proof.
  unfold config_key, push_config. simpl. intros [= H].
  apply (f_equal length) in H. by rewrite !length_replicate in H.
Qed.

Lemma push_loop_step k :
  accepting push_loop (push_config (S k)) = false
  ∧ stack_top (push_config (S k)) = Some (py "Z")
  ∧ apply_transition (push_config (S k)) <$>
      get_applicable_transitions push_loop (state (push_config (S k)))
        (current_symbol (push_config (S k))) (Some (py "Z"))
    = [push_config (S (S k))].
Proof. done. Qed.

Lemma accepts_loop_step n self config queue visited :
  accepts_loop (S n) self (config :: queue) visited
  = if bool_decide (config_key config ∈ visited) then
      accepts_loop n self queue visited
    else if accepting self config then Ok true
    else match stack_top config with
         | None => accepts_loop n self queue (visited ∪ {[config_key config]})
         | Some top =>
             accepts_loop n self
               (queue ++ (apply_transition config <$>
                  get_applicable_transitions self (state config)
                    (current_symbol config) (Some top)))
               (visited ∪ {[config_key config]})
         end.
Proof. done. Qed.

Lemma push_loop_diverges_from n k visited :
  (∀ j, S k ≤ j → config_key (push_config j) ∉ visited) →
  accepts_loop n push_loop [push_config (S k)] visited = Timeout.
Proof.
  revert k visited. induction n as [|n IH]; intros k visited Hfresh; [done|].
  destruct (push_loop_step k) as (Hacc & Htop & Hnext).
  rewrite accepts_loop_step.
  rewrite bool_decide_eq_false_2 by (apply Hfresh; lia).
  rewrite Hacc, Htop, Hnext. apply IH.
  intros j Hj [Hin|Hin%elem_of_singleton]%elem_of_union.
  - apply (Hfresh j); [lia|done].
  - apply push_config_key_inj in Hin. lia.
Qed.

Lemma push_loop_diverges n : PDA.accepts n push_loop [] = Timeout.
Proof.
  change (PDA.accepts n push_loop [])
    with (accepts_loop n push_loop [push_config 1] ∅).
  apply push_loop_diverges_from. set_solver.
Qed.
Lemma path_from_step max_steps self config :
  path_from (S max_steps) self config
  = if accepting self config then []
    else match stack_top config with
         | None => []
         | Some top =>
             match get_applicable_transitions self (state config)
                     (current_symbol config) (Some top) with
             | [] => []
             | trans :: _ =>
                 (apply_transition config trans, Some trans)
                 :: path_from max_steps self (apply_transition config trans)
             end
         end.
Proof. done. Qed.

Lemma push_loop_path_length n k :
  length (path_from n push_loop (push_config (S k))) = n.
Proof.
  revert k. induction n as [|n IH]; intros k; [done|].
  destruct (PDAFacts.push_loop_step k) as (Hacc & Htop & Hnext).
  rewrite path_from_step, Hacc, Htop. revert Hnext.
  destruct (get_applicable_transitions _ _ _ _) as [|trans l]; [done|].
  rewrite fmap_cons. intros Hnext%(f_equal head). apply (inj Some) in Hnext.
  cbn [length]. by rewrite Hnext, IH.
Qed.

Lemma push_loop_trace_length max_steps :
  length (simulate_step_by_step push_loop [] max_steps) = S max_steps.
Proof.
  change (simulate_step_by_step push_loop [] max_steps)
    with ((push_config 1, None) :: path_from max_steps push_loop (push_config 1)).
  simpl. by rewrite push_loop_path_length.
Qed.
End PDAFacts.

(** ** The transformations *)

Section loops.
Context {S A : Type}.

(** A loop whose body never raises runs to its end. *)
Lemma for_each_ok (xs : list A) (body : A → M S unit) (s : S) :
  (∀ x s, ∃ s', body x s = (Ok tt, s')) →
  ∃ s', for_each xs body s = (Ok tt, s').
Proof.
  intros Hbody. revert s. induction xs as [|x xs IH]; intros s; simpl.
  - by exists s.
  - destruct (Hbody x s) as [s1 H1]. destruct (IH s1) as [s2 H2].
    exists s2. by rewrite (bind_Ok _ _ _ _ _ H1).
Qed.

(** A loop stops at the exception of its first iteration. *)
Lemma for_each_raise x (xs : list A) (body : A → M S unit) (s s' : S) e :
  body x s = (Raise e, s') → for_each (x :: xs) body s = (Raise e, s').
Proof. intros H. simpl. by apply bind_Raise. Qed.

Lemma fold_each_raise {B} x (xs : list A) (acc : B) (body : B → A → M S B)
    (s s' : S) e :
  body acc x s = (Raise e, s') → fold_each (x :: xs) acc body s = (Raise e, s').
Proof. intros H. simpl. by apply bind_Raise. Qed.
End loops.

Lemma elements_nonempty `{Countable K} (X : gset K) :
  X ≠ ∅ → ∃ x xs, elements X = x :: xs.
Proof.
  intros HX. destruct (elements X) as [|x xs] eqn:Hel; [|eauto].
  by apply elements_empty_inv, leibniz_equiv in Hel.
Qed.

Module SubsetFacts.
Import SubsetConstruction.

Lemma move_raise {St K : Type} `{Countable K} (nfa : NFA) (subset : gset K)
    symbol (s : St) :
  subset ≠ ∅ →
  move nfa subset symbol s = (Raise (AttributeError "get_transitions"), s).
Proof.
  intros (x & xs & Hel)%elements_nonempty. unfold move. rewrite Hel.
  by apply fold_each_raise.
Qed.

Lemma epsilon_closure_raise {St : Type} (nfa : EpsilonNFA) (states0 : gset str)
    (s : St) :
  states0 ≠ ∅ →
  epsilon_closure nfa states0 s = (Raise (AttributeError "get_transitions"), s).
Proof.
  intros (x & xs & Hel)%elements_nonempty. unfold epsilon_closure.
  rewrite Hel. simpl. unfold pop_last.
  destruct (reverse (x :: xs)) as [|y ys] eqn:Hrev; [|done].
  by apply (f_equal length) in Hrev; rewrite length_reverse in Hrev.
Qed.

(** [epsilon_nfa_to_nfa] raises on every automaton that has a state. *)
Lemma epsilon_nfa_to_nfa_raise (enfa : EpsilonNFA) :
  states enfa ≠ ∅ →
  epsilon_nfa_to_nfa enfa = Raise (AttributeError "get_transitions").
Proof.
  intros Hne. unfold epsilon_nfa_to_nfa, epsilon_nfa_to_nfa_body.
  assert (dom (states enfa) ≠ ∅) as Hdom.
  { intros Hd. by apply dom_empty_inv_L in Hd. }
  destruct (elements_nonempty _ Hdom) as (x & xs & ->).
  assert (∃ nfa1, for_each (x :: xs)
                    (λ state, add_state state false false >> ret tt) NFA.new
                  = (Ok tt, nfa1)) as [nfa1 H1].
  { apply for_each_ok. intros state s. by eexists. }
  rewrite (bind_Ok _ _ _ _ _ H1).
  erewrite bind_Ok by reflexivity.
  erewrite for_each_raise; [done|].
  apply bind_Raise, epsilon_closure_raise. set_solver.
Qed.

(** [get_dfa_state] never raises, and leaves the subset in [state_map]. *)
Lemma get_dfa_state_ok (nfa : NFA) subset e :
  ∃ q e', get_dfa_state nfa subset e = (Ok q, e')
          ∧ state_map e' !! subset = Some q.
Proof.
  unfold get_dfa_state, bind, get. cbv beta. case_bool_decide as Hin; simpl.
  - destruct (any_in _ _); simpl; rewrite lookup_insert_eq;
      eexists _, _; (split; [done|]); simpl; apply lookup_insert_eq.
  - pose proof Hin as [q Hq]%elem_of_dom.
    rewrite Hq. eauto.
Qed.

(** A subset that is in [state_map] keeps its DFA state, and asking for it
    again changes nothing: no second DFA state is made for it. *)
Lemma get_dfa_state_memo (nfa : NFA) subset e q :
  state_map e !! subset = Some q →
  get_dfa_state nfa subset e = (Ok q, e).
Proof.
  intros Hq. unfold get_dfa_state, bind, get. cbv beta.
  rewrite bool_decide_eq_false_2; simpl.
  - by rewrite Hq.
  - intros Hin. apply Hin, elem_of_dom. eauto.
Qed.

(** A subset new to [state_map] gets the next name, and its DFA state is
    accepting exactly when the subset meets the NFA's accept states. *)
Lemma get_dfa_state_new (nfa : NFA) subset e :
  subset ∉ dom (state_map e) →
  ∃ e', get_dfa_state nfa subset e
        = (Ok (state_name (S (state_counter e))), e')
        ∧ state_counter e' = S (state_counter e)
        ∧ accept_states (dfa e')
          = (if any_in subset (set_map Some (accept_states nfa))
             then accept_states (dfa e) ∪ {[state_name (S (state_counter e))]}
             else accept_states (dfa e)).
Proof.
  intros Hin. unfold get_dfa_state, bind, get. cbv beta.
  rewrite bool_decide_eq_true_2 by done. simpl.
  destruct (any_in _ _); simpl; rewrite lookup_insert_eq; eauto.
Qed.

Lemma dfa_loop_raise n (nfa : NFA) current_set queue e :
  alphabet nfa ≠ ∅ → current_set ≠ ∅ →
  ∃ e', dfa_loop (S n) nfa (current_set :: queue) ∅ e
        = (Raise (AttributeError "get_transitions"), e').
Proof.
  intros (sym & syms & Hel)%elements_nonempty Hne.
  destruct (get_dfa_state_ok nfa current_set e) as (q & e' & Hq & _).
  exists e'. cbn [dfa_loop]. rewrite bool_decide_eq_false_2 by set_solver.
  rewrite (bind_Ok _ _ _ _ _ Hq), Hel.
  apply bind_Raise, fold_each_raise, bind_Raise, move_raise, Hne.
Qed.

End SubsetFacts.

Module MinimizationFacts.
Import Minimization.

(** [find_reachable_states] raises at the first symbol it looks at. *)
Lemma find_reachable_states_raise {St : Type} n (dfa : DFA) (s : St) :
  alphabet dfa ≠ ∅ →
  find_reachable_states (S n) dfa s
  = (Raise (AttributeError "get_transition"), s).
Proof.
  intros (sym & syms & Hel)%elements_nonempty.
  unfold find_reachable_states. cbn [reachable_loop pop_last reverse rev_append].
  rewrite bool_decide_eq_false_2 by set_solver. rewrite Hel.
  by apply bind_Raise, fold_each_raise.
Qed.

End MinimizationFacts.

Module ConversionFacts.
Import Conversions.

(** [mealy_to_moore] raises on every machine; which exception depends on
    whether the machine has states and input symbols. *)
Lemma mealy_to_moore_raise (mealy : MealyMachine) :
  mealy_to_moore mealy
  = Raise (if bool_decide (alphabet mealy ≠ ∅)
           then AttributeError "output_function"
           else if bool_decide (states mealy ≠ ∅)
                then TypeError "add_state" "output"
                else KeyError).
Proof.
  unfold mealy_to_moore, mealy_to_moore_body.
  case_bool_decide as Halpha.
  - destruct (elements_nonempty _ Halpha) as (sym & syms & ->).
    destruct (elements (dom (states mealy))) as [|q qs] eqn:Hq.
    + simpl for_each. erewrite bind_Ok by reflexivity. done.
    + erewrite bind_Raise; [done|]. by apply for_each_raise, bind_Raise.
  - rewrite Halpha, elements_empty.
    case_bool_decide as Hst.
    + assert (dom (states mealy) ≠ ∅) as Hdom.
      { intros Hd. by apply dom_empty_inv_L in Hd. }
      destruct (elements_nonempty _ Hdom) as (q & qs & ->).
      erewrite bind_Raise; [done|]. by apply for_each_raise.
    + rewrite Hst, dom_empty_L, elements_empty.
      done.
Qed.

(** [moore_to_mealy] raises on every machine. *)
Lemma moore_to_mealy_raise (moore : MooreMachine) :
  moore_to_mealy moore = Raise (AttributeError "items").
Proof.
  unfold moore_to_mealy, moore_to_mealy_body.
  assert (∃ m1, for_each (elements (dom (states moore)))
                  (λ state, add_state state false false >> ret tt) MealyMachine.new
                = (Ok tt, m1)) as [m1 H1].
  { apply for_each_ok. intros state s. by eexists. }
  by rewrite (bind_Ok _ _ _ _ _ H1).
Qed.
End ConversionFacts.

(* ================================================================= *)
(** * The claims *)

Import Tests.

(** C1.  The pipeline of the claim (Thompson ε-NFA, ε-elimination, subset
    construction, minimization) stops at its second stage: for every regex
    the parser accepts, [thompson_construction] returns an ε-NFA and
    [epsilon_nfa_to_nfa] raises [AttributeError] on it, because it calls
    [get_transitions], which no automaton class defines.  No NFA, DFA or
    minimal DFA exists whose verdicts could agree with the ε-NFA's. *)
Theorem pipeline_stops_at_epsilon_elimination (regex : str) (ast : RegexNode) :
  parse_regex regex = Ok ast →
  ∃ enfa, thompson_construction regex = Ok enfa
          ∧ SubsetConstruction.epsilon_nfa_to_nfa enfa
            = Raise (AttributeError "get_transitions").
Proof.
  intros Hp. unfold thompson_construction. rewrite Hp.
  destruct (ThompsonFacts.construct_spec ast)
    as (e & -> & (q & _ & [st Hst] & _) & _).
  exists (Thompson.nfa e). split; [done|].
  apply SubsetFacts.epsilon_nfa_to_nfa_raise. intros Hempty.
  by rewrite Hempty, lookup_empty in Hst.
Qed.

(** On the regex ["a"]: the ε-NFA accepts ["a"], and ε-elimination raises. *)
Lemma pipeline_stops_on_a :
  parse_regex (py "a") = Ok (CHAR 97%N)
  ∧ ∃ enfa, thompson_construction (py "a") = Ok enfa
            ∧ EpsilonNFA.accepts enfa (py "a") = Some true
            ∧ SubsetConstruction.epsilon_nfa_to_nfa enfa
              = Raise (AttributeError "get_transitions").
Proof.
  split; [reflexivity|].
  destruct (pipeline_stops_at_epsilon_elimination (py "a") (CHAR 97%N))
    as (enfa & Henfa & Hraise); [reflexivity|].
  exists enfa. split; [exact Henfa|]. split; [|exact Hraise].
  vm_compute in Henfa. injection Henfa as <-. vm_compute. reflexivity.
Defined.

(** C2, as stated, fails: on the PDA [push_loop] and the empty input the
    acceptance search gives no verdict, however many iterations it runs. *)
Lemma pda_search_has_no_bound :
  ¬ ∃ n, PDA.accepts n PDASpec.push_loop [] ≠ Timeout.
Proof. intros [n Hn]. apply Hn, PDAFacts.push_loop_diverges. Qed.

(** C2, amended.  [PDA.accepts] has no step or frontier bound and no
    "undecided" outcome.  For every PDA and input: a verdict it reaches
    after [n] iterations of its loop is a boolean and stays the same with
    more iterations; it never raises, whether the search ends or not; and
    the trace of [simulate_step_by_step], the one method with an explicit
    step bound, has at most [max_steps] transitions after the initial
    configuration.  On [push_loop] the search runs forever, and the trace
    stops at the bound, with exactly [max_steps] transitions. *)
Theorem pda_search_amended (self : PDA) (w : str) :
  (∀ n m b, n ≤ m → PDA.accepts n self w = Ok b → PDA.accepts m self w = Ok b)
  ∧ (∀ n e, PDA.accepts n self w ≠ Raise e)
  ∧ (∀ max_steps, length (PDA.simulate_step_by_step self w max_steps) ≤ S max_steps)
  ∧ (∀ n, PDA.accepts n PDASpec.push_loop [] = Timeout)
  ∧ (∀ max_steps,
       length (PDA.simulate_step_by_step PDASpec.push_loop [] max_steps)
       = S max_steps).
Proof.
  split_and!.
  - intros n m b Hnm Hb. unfold PDA.accepts in *.
    destruct (start_state self); [|done].
    by eapply PDAFacts.accepts_loop_mono.
  - intros n e. unfold PDA.accepts. destruct (start_state self); [|done].
    apply PDAFacts.accepts_loop_no_raise.
  - intros max_steps. apply PDAFacts.simulate_length.
  - apply PDAFacts.push_loop_diverges.
  - apply PDAFacts.push_loop_trace_length.
Qed.

Lemma pda_search_amended_witness :
  PDA.accepts 50 PDAExamples.anbn (py "aabb") = Ok true
  ∧ (∀ e, PDA.accepts 50 PDAExamples.anbn (py "aab") ≠ Raise e)
  ∧ length (PDA.simulate_step_by_step PDAExamples.anbn (py "aabb") 100) ≤ 101.
Proof.
  destruct (pda_search_amended PDAExamples.anbn (py "aabb")) as (H1 & _ & H2 & _).
  destruct (pda_search_amended PDAExamples.anbn (py "aab")) as (_ & H3 & _).
  split_and!; [|apply H3|apply H2].
  apply (H1 6 50 true); [lia|vm_compute; reflexivity].
Defined.

(** C3.  [minimize_dfa] raises [AttributeError] on every DFA whose alphabet
    has a symbol: [find_reachable_states] calls [get_transition], which no
    automaton class defines.  There is no minimized DFA to count the states
    of. *)
Theorem minimize_dfa_raises (n : nat) (dfa : DFA) :
  alphabet dfa ≠ ∅ →
  Minimization.minimize_dfa (S n) dfa = Raise (AttributeError "get_transition").
Proof.
  intros Halpha. unfold Minimization.minimize_dfa.
  by rewrite (bind_Raise _ _ _ _ _
                (MinimizationFacts.find_reachable_states_raise n dfa tt Halpha)).
Qed.

(** On the two-state DFA of [test_minimize_already_minimal]. *)
Lemma minimize_dfa_raises_on_test :
  get_state_count dfa_minimal = 2
  ∧ Minimization.minimize_dfa 1 dfa_minimal = Raise (AttributeError "get_transition").
Proof.
  split; [reflexivity|].
  apply (minimize_dfa_raises 0 dfa_minimal). vm_compute. discriminate.
Defined.

(** C4.  Neither conversion returns a machine: [mealy_to_moore] raises on
    every Mealy machine (it reads [output_function], calls [add_state] with
    an [output] keyword, or misses its start key), and [moore_to_mealy]
    raises on every Moore machine (it calls [items] on the list of
    transitions).  The round trip of the claim cannot be run. *)
Theorem conversions_raise (mealy : MealyMachine) (moore : MooreMachine) :
  Conversions.mealy_to_moore mealy
  = Raise (if bool_decide (alphabet mealy ≠ ∅)
           then AttributeError "output_function"
           else if bool_decide (states mealy ≠ ∅)
                then TypeError "add_state" "output"
                else KeyError)
  ∧ Conversions.moore_to_mealy moore = Raise (AttributeError "items").
Proof.
  split; [apply ConversionFacts.mealy_to_moore_raise
         |apply ConversionFacts.moore_to_mealy_raise].
Qed.

(** On the machines of [test_conversion_roundtrip] and
    [test_moore_to_mealy_simple]: the Mealy machine answers ["ab"] with the
    outputs ["0"], ["1"], and both conversions raise. *)
Lemma conversions_raise_on_tests :
  MealyMachine.process_input mealy_roundtrip (py "ab") = (true, [py "0"; py "1"])
  ∧ Conversions.mealy_to_moore mealy_roundtrip
    = Raise (AttributeError "output_function")
  ∧ Conversions.moore_to_mealy moore_simple = Raise (AttributeError "items").
Proof.
  destruct (conversions_raise mealy_roundtrip moore_simple) as [Hmealy Hmoore].
  split; [reflexivity|]. split; [|exact Hmoore].
  rewrite Hmealy. vm_compute. reflexivity.
Defined.

(** C5, as stated, fails: inputs that begin with [')'] or ['|'] parse, and
    so does a text with a ['('] that is never closed after a stray [')']. *)
Lemma parse_regex_reserved_first_parses :
  parse_regex (py ")") = Ok EPSILON
  ∧ parse_regex (py "|a") = Ok (OR EPSILON (CHAR 97%N))
  ∧ parse_regex (py "a)(") = Ok (CHAR 97%N).
Proof. done. Qed.

(** C5, amended.  [parse_regex] always answers, and it raises exactly on
    the malformed texts: reading the text, spaces removed, from left to
    right up to the first [')'] that closes no ['('], a ['*'] or ['+'] stands
    where a base expression is due (at the beginning, after a ['('] or after
    a ['|']), or the text ends with a ['('] still open.  The exception is
    then one of two: [ExpectedRParen] where, after a ['('] and the
    expression that follows it, the next character is not [')']; or
    [UnexpectedChar] at a ['*'] or ['+'].  Every input that begins with
    ['*'] or ['+'] raises.  [parse_base] itself raises on each of [')'],
    ['|'], ['*'], ['+'] and the end of the input, but [parse_concat] never
    calls it on [')'], ['|'] or the end of the input: there it returns
    [EPSILON]. *)
Theorem parse_regex_failures (text : str) :
  parse_regex text ≠ Timeout
  ∧ ((∃ e, parse_regex text = Raise e)
     ↔ ParserScanSpec.malformed 0 true (filter (λ c, c ≠ Ch.space) text) = true)
  ∧ (∀ e, parse_regex text = Raise e →
          ParserSpec.syntax_error (regex (Parser.init text)) e)
  ∧ (∀ c rest, text = c :: rest → Parser.in_star_plus c = true →
               parse_regex text = Raise (ValueError (UnexpectedChar (Some c) 0)))
  ∧ (∀ n p, match regex p !! pos p with
            | Some c => Parser.in_reserved c = true
            | None => True
            end →
            fst (Parser.parse_base (S n) p)
            = Raise (ValueError (UnexpectedChar (regex p !! pos p) (pos p)))).
Proof.
  pose proof (ParserFacts.parse_regex_post text) as Hpost.
  split_and!.
  - by destruct (parse_regex text).
  - apply ParserScanFacts.parse_regex_raises_iff.
  - intros e He. by rewrite He in Hpost.
  - intros c rest -> Hc. by apply ParserFacts.parse_regex_star_plus.
  - apply ParserFacts.parse_base_reserved.
Qed.

Lemma parse_regex_failures_witness :
  parse_regex (py "*a") = Raise (ValueError (UnexpectedChar (Some Ch.star) 0))
  ∧ (∃ e, parse_regex (py "(a") = Raise e
          ∧ ParserSpec.syntax_error (regex (Parser.init (py "(a"))) e)
  ∧ (∃ e, parse_regex (py "(a|(b)") = Raise e)
  ∧ (∃ e, parse_regex (py "a|+") = Raise e)
  ∧ ¬ (∃ e, parse_regex (py "(a|b)*)(") = Raise e).
Proof.
  destruct (parse_regex_failures (py "*a")) as (_ & _ & _ & H1 & _).
  destruct (parse_regex_failures (py "(a")) as (_ & H2 & H2' & _).
  destruct (parse_regex_failures (py "(a|(b)")) as (_ & H3 & _).
  destruct (parse_regex_failures (py "a|+")) as (_ & H4 & _).
  destruct (parse_regex_failures (py "(a|b)*)(")) as (_ & H5 & _).
  split_and!.
  - apply (H1 Ch.star (py "a")); reflexivity.
  - destruct (proj2 H2 eq_refl) as [e He]. exists e. split; [exact He|].
    apply H2', He.
  - apply (proj2 H3). reflexivity.
  - apply (proj2 H4). reflexivity.
  - intros He. apply (proj1 H5) in He. discriminate He.
Defined.

(** C6.  [nfa_to_dfa] raises [AttributeError] on every NFA whose alphabet
    has a symbol: its loop calls [get_transitions], which no automaton class
    defines, before it emits a transition or a second DFA state.  No DFA is
    returned whose states or transitions the claim could speak of. *)
Theorem nfa_to_dfa_raises (n : nat) (nfa : NFA) :
  alphabet nfa ≠ ∅ →
  SubsetConstruction.nfa_to_dfa (S n) nfa = Raise (AttributeError "get_transitions").
Proof.
  intros Halpha. unfold SubsetConstruction.nfa_to_dfa.
  destruct (SubsetFacts.get_dfa_state_ok nfa {[start_state nfa]}
              (SubsetConstruction.mkEnv DFA.new ∅ 0)) as (q & e1 & H1 & _).
  rewrite (bind_Ok _ _ _ _ _ H1).
  erewrite bind_Ok by reflexivity.
  edestruct (SubsetFacts.dfa_loop_raise n nfa {[start_state nfa]} [])
    as [e2 ->]; [done|set_solver|done].
Qed.

(** On the NFA of [test_nfa_to_dfa_simple], which accepts ["ba"]. *)
Lemma nfa_to_dfa_raises_on_test :
  NFA.accepts nfa_simple (py "ba") = true
  ∧ SubsetConstruction.nfa_to_dfa 1 nfa_simple = Raise (AttributeError "get_transitions").
Proof.
  split; [reflexivity|].
  apply (nfa_to_dfa_raises 0 nfa_simple). vm_compute. discriminate.
Defined.

(** C7.  For every regex the parser accepts, [thompson_construction]
    returns an ε-NFA in which exactly one state carries the start flag (the
    start state) and whose set of accept states is a singleton. *)
Theorem thompson_one_start_one_accept (regex : str) (ast : RegexNode) :
  parse_regex regex = Ok ast →
  ∃ enfa, thompson_construction regex = Ok enfa
          ∧ ThompsonSpec.one_start enfa ∧ ThompsonSpec.one_accept enfa.
Proof.
  intros Hp. unfold thompson_construction. rewrite Hp.
  destruct (ThompsonFacts.construct_spec ast) as (e & -> & Hstart & Haccept).
  by exists (Thompson.nfa e).
Qed.

Lemma thompson_one_start_one_accept_witness :
  ∃ enfa, thompson_construction (py "(a|b)*abb") = Ok enfa
          ∧ ThompsonSpec.one_start enfa ∧ ThompsonSpec.one_accept enfa.
Proof.
  eapply (thompson_one_start_one_accept (py "(a|b)*abb")). reflexivity.
Defined.

(** C8.  [DFA.add_transition] on a [(state, symbol)] key that is already in
    the table raises and leaves the DFA as it was, and
    [MooreMachine.set_state_output] on a name that is no state raises and
    leaves the machine as it was. *)
Theorem construction_failures_leave_state
    (d : DFA) (from_state to_state symbol : str) (output : option str)
    (m : MooreMachine) (state out : str) :
  (from_state, symbol) ∈ dom (own d) →
  state ∉ dom (states m) →
  DFA.add_transition from_state to_state symbol output d
  = (Raise (ValueError (DfaTransitionExists from_state symbol)), d)
  ∧ MooreMachine.set_state_output state out m
    = (Raise (ValueError (StateDoesNotExist state)), m).
Proof.
  intros Hkey Hstate. split.
  - unfold DFA.add_transition, bind, get. by rewrite bool_decide_eq_true_2.
  - unfold MooreMachine.set_state_output, bind, get. by rewrite bool_decide_eq_true_2.
Qed.

Lemma construction_failures_witness :
  DFA.add_transition (py "q0") (py "q0") (py "a") None dfa_minimal
  = (Raise (ValueError (DfaTransitionExists (py "q0") (py "a"))), dfa_minimal)
  ∧ MooreMachine.set_state_output (py "C") (py "z") moore_simple
    = (Raise (ValueError (StateDoesNotExist (py "C"))), moore_simple).
Proof.
  apply (construction_failures_leave_state dfa_minimal (py "q0") (py "q0") (py "a")
           None moore_simple (py "C") (py "z")).
  - apply (bool_decide_unpack _). vm_compute. exact I.
  - apply (bool_decide_unpack _). vm_compute. exact I.
Defined.

(** C9.  When [parse_regex] returns an AST for [s], it returns the same
    AST for [s] followed by [')'] and any further text [t]: the stray [')']
    and what follows it are ignored. *)
Theorem parse_regex_ignores_after_rparen (s t : str) (ast : RegexNode) :
  parse_regex s = Ok ast → parse_regex (s ++ Ch.rparen :: t) = Ok ast.
Proof.
  intros Hs.
  assert (∃ p', Parser.parse_or (Parser.fuel (Parser.init s)) (Parser.init s)
                = (Ok ast, p')) as [p' Hn].
  { destruct s as [|c s].
    - exists (Parser.init []). by injection Hs as <-.
    - unfold parse_regex, Parser.parse, bind, get in Hs.
      destruct (Parser.parse_or _ _) as [[a|e|] p']; simplify_eq/=.
      by exists p'. }
  set (t' := filter (λ c, c ≠ Ch.space) t).
  assert (Parser.init (s ++ Ch.rparen :: t)
          = ParserSpec.ext t' (Parser.init s)) as Hinit.
  { unfold Parser.init, ParserSpec.ext. simpl.
    by rewrite filter_app, filter_cons_True. }
  assert (parse_regex (s ++ Ch.rparen :: t)
          = fst (Parser.parse_or
                   (Parser.fuel (ParserSpec.ext t' (Parser.init s)))
                   (ParserSpec.ext t' (Parser.init s)))) as ->.
  { unfold parse_regex. destruct (s ++ Ch.rparen :: t) eqn:Hnil.
    - by destruct s.
    - by rewrite Hinit. }
  destruct (ParserFacts.ext_spec_all t' (Parser.fuel (Parser.init s))
              (Parser.fuel (ParserSpec.ext t' (Parser.init s)))) as [Hor _].
  { unfold Parser.fuel, ParserSpec.ext. simpl. rewrite length_app. lia. }
  by destruct (Hor _ (ParserFacts.wf_init s) _ _ Hn) as [_ ->].
Qed.

Lemma parse_regex_ignores_after_rparen_witness :
  parse_regex (py "a)b") = Ok (CHAR 97%N).
Proof.
  apply (parse_regex_ignores_after_rparen (py "a") (py "b") (CHAR 97%N)).
  reflexivity.
Defined.

(** C10.  With no start state set, every automaton kind rejects every
    input without raising: [accepts] is false, [process_input] is
    [(False, [])] and the step-by-step simulators return the empty trace. *)
Theorem no_start_state_rejects (w : str)
    (dfa : DFA) (nfa : NFA) (enfa : EpsilonNFA) (pda : PDA)
    (mealy : MealyMachine) (moore : MooreMachine) (fuel max_steps : nat) :
  start_state dfa = None → start_state nfa = None → start_state enfa = None →
  start_state pda = None → start_state mealy = None → start_state moore = None →
  (DFA.accepts dfa w = false ∧ DFA.simulate_step_by_step dfa w = [])
  ∧ (NFA.accepts nfa w = false ∧ NFA.simulate_step_by_step nfa w = [])
  ∧ (EpsilonNFA.accepts enfa w = Some false
     ∧ EpsilonNFA.simulate_step_by_step enfa w = Some [])
  ∧ (PDA.accepts fuel pda w = Ok false
     ∧ PDA.simulate_step_by_step pda w max_steps = [])
  ∧ (MealyMachine.accepts mealy w = false ∧ MealyMachine.process_input mealy w = (false, [])
     ∧ MealyMachine.simulate_step_by_step mealy w = [])
  ∧ (MooreMachine.accepts moore w = false ∧ MooreMachine.process_input moore w = (false, [])
     ∧ MooreMachine.simulate_step_by_step moore w = []).
Proof.
  intros Hd Hn He Hp Hme Hmo.
  unfold DFA.accepts, DFA.simulate_step_by_step,
    NFA.accepts, NFA.simulate_step_by_step,
    EpsilonNFA.accepts, EpsilonNFA.simulate_step_by_step,
    PDA.accepts, PDA.simulate_step_by_step,
    MealyMachine.accepts, MealyMachine.process_input, MealyMachine.simulate_step_by_step,
    MooreMachine.accepts, MooreMachine.process_input, MooreMachine.simulate_step_by_step.
  by rewrite Hd, Hn, He, Hp, Hme, Hmo.
Qed.

Lemma no_start_state_rejects_witness :
  DFA.accepts DFA.new (py "ab") = false
  ∧ EpsilonNFA.accepts EpsilonNFA.new (py "ab") = Some false
  ∧ PDA.accepts 0 PDA.new (py "ab") = Ok false
  ∧ MooreMachine.process_input MooreMachine.new (py "ab") = (false, []).
Proof.
  destruct (no_start_state_rejects (py "ab") DFA.new NFA.new EpsilonNFA.new
              PDA.new MealyMachine.new MooreMachine.new 0 100)
    as ((H1 & _) & _ & (H3 & _) & (H4 & _) & _ & (_ & H6 & _));
    try reflexivity.
  by split_and!.
Defined.

(* ================================================================= *)
(** * Lemmas for the further properties *)

Module ParserCharsFacts.
Import Parser RegexSpec ParserCharsSpec.

Lemma concat_tree_chars first rest :
  chars (concat_tree first rest) = chars first ++ concat (chars <$> rest).
Proof.
  unfold concat_tree. revert first. induction rest as [|r rest IH]; intros first; simpl.
  - by rewrite app_nil_r.
  - rewrite IH. simpl. by rewrite <- app_assoc.
Qed.

Lemma consume_inv p a p' :
  consume p = (Ok a, p') → regex p' = regex p ∧ a = regex p !! pos p.
Proof.
  unfold consume. destruct (regex p !! pos p); intros; by simplify_eq.
Qed.

Lemma peek_inv p a p' :
  peek p = (Ok a, p') → p' = p ∧ a = regex p !! pos p.
Proof. unfold peek, gets. intros; by simplify_eq. Qed.

Lemma get_inv {St : Type} (s : St) a s' : get s = (Ok a, s') → s' = s ∧ a = s.
Proof. unfold get. intros; by simplify_eq. Qed.

Lemma parse_star_loop_plain n node c p a p' text :
  parse_star_loop n node c p = (Ok a, p') →
  plain text node → regex p' = regex p ∧ plain text a.
Proof.
  revert node c p. induction n as [|n IH]; intros node c p H Hn; [done|].
  simpl in H. destruct c as [c'|]; [|by (unfold ret in H; simplify_eq)].
  destruct (in_star_plus c'); [|by (unfold ret in H; simplify_eq)].
  apply bind_Ok_inv in H as (op & p1 & Hop & H).
  apply consume_inv in Hop as [Hr1 _].
  apply bind_Ok_inv in H as (c2 & p2 & [-> ->]%peek_inv & H).
  apply IH in H as [-> ?]; [done|]. by case_bool_decide.
Qed.

Lemma plain_spec_all n : plain_spec n.
Proof.
  induction n as [|n (IHor & IHorl & IHc & IHcl & IHs & IHb)].
  { repeat split; intros; done. }
  unfold plain_spec; split_and!.
  - intros p a p' H. simpl in H.
    apply bind_Ok_inv in H as (left & p1 & H1 & H).
    apply IHc in H1 as [Hr1 Hl]. apply IHorl in H as [Hr2 Ha]; rewrite Hr1 in *; done.
  - intros p left a p' H Hl. simpl in H.
    apply bind_Ok_inv in H as (c & p1 & [-> ->]%peek_inv & H).
    case_bool_decide; [|by (unfold ret in H; simplify_eq)].
    apply bind_Ok_inv in H as (c & p1 & [Hr1 _]%consume_inv & H).
    apply bind_Ok_inv in H as (right & p2 & H2 & H).
    apply IHc in H2 as [Hr2 Hright]. rewrite Hr1 in *.
    apply IHorl in H as [Hr3 Ha]; rewrite Hr2 in *; [done|].
    unfold plain in *. simpl. by apply Forall_app.
  - intros p a p' H. simpl in H.
    apply bind_Ok_inv in H as (nodes & p1 & H1 & H).
    apply IHcl in H1 as [Hr1 Hn]; [|done].
    destruct nodes as [|first rest]; unfold ret in H; simplify_eq.
    + split; [done|]. by apply Forall_nil.
    + split; [done|]. unfold plain. rewrite concat_tree_chars.
      apply Forall_cons in Hn as [Hf Hrest]. apply Forall_app. split; [done|].
      apply Forall_concat, Forall_fmap. done.
  - intros p nodes a p' H Hn. simpl in H.
    apply bind_Ok_inv in H as (c & p1 & [-> ->]%peek_inv & H).
    destruct (regex p !! pos p) as [c'|]; [|by (unfold ret in H; simplify_eq)].
    destruct (in_rparen_bar c'); [by (unfold ret in H; simplify_eq)|].
    apply bind_Ok_inv in H as (node & p2 & H2 & H).
    apply IHs in H2 as [Hr2 Hnode].
    apply IHcl in H as [Hr3 Ha]; rewrite Hr2 in *; [done|].
    apply Forall_app. split; [done|]. by apply Forall_singleton.
  - intros p a p' H. simpl in H.
    apply bind_Ok_inv in H as (node & p1 & H1 & H).
    apply IHb in H1 as [Hr1 Hnode].
    apply bind_Ok_inv in H as (c & p2 & [-> ->]%peek_inv & H).
    eapply parse_star_loop_plain in H as [Hr2 Ha]; [|done]. by rewrite Hr2.
  - intros p a p' H. simpl in H.
    apply bind_Ok_inv in H as (c & p1 & [-> ->]%peek_inv & H).
    apply bind_Ok_inv in H as (p0 & p1 & [-> ->]%get_inv & H).
    case_bool_decide as Hlp.
    { apply bind_Ok_inv in H as (c & p1 & [Hr1 _]%consume_inv & H).
      apply bind_Ok_inv in H as (node & p2 & H2 & H).
      apply IHor in H2 as [Hr2 Hnode]. rewrite Hr1 in *.
      apply bind_Ok_inv in H as (c2 & p3 & [-> ->]%peek_inv & H).
      case_bool_decide.
      - apply bind_Ok_inv in H as (c3 & p4 & [Hr4 _]%consume_inv & H).
        unfold ret in H. simplify_eq. split; [congruence|done].
      - apply bind_Ok_inv in H as (? & ? & Hg & H). done. }
    destruct (bool_decide (regex p !! pos p = Some Ch.epsilon)
              || bool_decide (regex p !! pos p = Some Ch.backslash)
                 && bool_decide (regex p !! (pos p + 1) = Some Ch.e)) eqn:Heps.
    { apply bind_Ok_inv in H as ([] & p1 & H1 & H). unfold ret in H. simplify_eq.
      split; [|by apply Forall_nil].
      case_bool_decide.
      - apply bind_Ok_inv in H1 as (? & p2 & [Hr2 _]%consume_inv & H1).
        apply bind_Ok_inv in H1 as (? & p3 & [Hr3 _]%consume_inv & H1).
        unfold ret in H1. simplify_eq. congruence.
      - apply bind_Ok_inv in H1 as (? & p2 & [Hr2 _]%consume_inv & H1).
        unfold ret in H1. simplify_eq. congruence. }
    destruct (regex p !! pos p) as [c'|] eqn:Hc'; [|done].
    destruct (in_reserved c') eqn:Hres; simpl in H; [done|].
    apply bind_Ok_inv in H as (? & p2 & [Hr2 _]%consume_inv & H).
    unfold ret in H. simplify_eq. split; [done|].
    apply Forall_singleton. split; [by eapply list_elem_of_lookup_2|].
    apply orb_false_iff in Heps as [Heps _].
    unfold in_reserved, in_rparen_bar, in_star_plus in Hres.
    rewrite !orb_false_iff in Hres. destruct Hres as [[? ?] [? ?]].
    repeat case_bool_decide; try done.
    rewrite !not_elem_of_cons. split_and!; try congruence. apply not_elem_of_nil.
Qed.

Lemma parse_regex_plain text ast :
  parse_regex text = Ok ast → plain (regex (init text)) ast.
Proof.
  unfold parse_regex. destruct text as [|c0 text]; [intros [= <-]; constructor|].
  unfold parse. set (p := init (c0 :: text)).
  destruct (bind get _ p) as [o p'] eqn:H. simpl. intros ->.
  apply bind_Ok_inv in H as (p0 & p1 & [-> ->]%get_inv & H).
  by apply plain_spec_all in H as [_ H].
Qed.
End ParserCharsFacts.

Module ApiFacts.
Import ApiSpec.

Section base.
Context {X : Type}.
Implicit Type a : Automaton X.

Lemma add_state_fields name acc st a :
  let a' := snd (add_state name acc st a) in
  transitions a' = transitions a ∧ alphabet a' = alphabet a ∧ own a' = own a
  ∧ states a' = <[name := mkState name acc st]> (states a).
Proof. unfold add_state. destruct acc, st; done. Qed.

Lemma add_transition_fields f t s o a :
  Automaton.add_transition f t s o a
  = (Ok tt, mkAutomaton (states a)
              (if bool_decide (s ≠ EPS) then alphabet a ∪ {[s]} else alphabet a)
              (start_state a) (accept_states a)
              (transitions a ++ [mkTransition f t s o]) (own a)).
Proof. unfold Automaton.add_transition. by case_bool_decide. Qed.

Lemma symbols_add (f t s : str) (o : option str) (A : gset str) l :
  A = symbols l →
  (if bool_decide (s ≠ EPS) then A ∪ {[s]} else A)
  = symbols (l ++ [mkTransition f t s o]).
Proof.
  intros ->. unfold symbols.
  rewrite fmap_app, filter_app, list_to_set_app_L. simpl.
  rewrite filter_cons, filter_nil.
  case_bool_decide; destruct (decide _); try done; simpl; set_solver.
Qed.
End base.

Lemma dfa_built_inv d : dfa_built d → dfa_inv d.
Proof.
  induction 1 as [|d name acc st _ (IH1 & IH2 & IH3)|d f t s o _ (IH1 & IH2 & IH3)].
  - split_and!; [|constructor|done]. intros q s t. simpl. rewrite lookup_empty.
    split; [done|]. intros [o Ho]. by apply elem_of_nil in Ho.
  - destruct (add_state_fields name acc st d) as (Ht & Ha & Ho & _).
    unfold dfa_inv. by rewrite Ht, Ha, Ho.
  - unfold DFA.add_transition, bind, get. simpl.
    case_bool_decide as Hk; [by split_and!|].
    rewrite add_transition_fields. unfold dfa_inv, set_own. simpl. split_and!.
    + intros q s' t'. setoid_rewrite elem_of_app.
      destruct (decide ((f, s) = (q, s'))) as [[= <- <-]|Hne].
      * rewrite lookup_insert_eq. split.
        -- intros [= <-]. exists o. right. by apply list_elem_of_singleton.
        -- intros [o' [Hin|Hin]].
           ++ exfalso. apply Hk, elem_of_dom. exists t'. apply IH1. by exists o'.
           ++ apply list_elem_of_singleton in Hin. by simplify_eq.
      * rewrite lookup_insert_ne by done. rewrite IH1. split.
        -- intros [o' ?]. exists o'. by left.
        -- intros [o' [Hin|Hin]]; [by exists o'|].
           apply list_elem_of_singleton in Hin. by simplify_eq.
    + rewrite fmap_app. apply NoDup_app. split_and!; [done| |apply NoDup_singleton].
      intros k Hin Hk'. simpl in Hk'. apply list_elem_of_singleton in Hk'. subst k.
      apply list_elem_of_fmap in Hin as ([q t' s' o'] & [= <- <-] & Hin).
      apply Hk, elem_of_dom. exists t'. apply IH1. by exists o'.
    + by apply symbols_add.
Qed.

Lemma check_determinism_ok seen l :
  NoDup (key <$> l) → (∀ k, k ∈ key <$> l → k ∉ seen) →
  DFA.check_determinism seen l = (true, ValidDFA).
Proof.
  revert seen. induction l as [|trans l IH]; intros seen Hnd Hseen; [done|].
  simpl. rewrite fmap_cons in Hnd. apply NoDup_cons in Hnd as [Hnotin Hnd].
  rewrite bool_decide_eq_false_2 by (apply Hseen; rewrite fmap_cons; apply list_elem_of_here).
  apply IH; [done|]. intros k Hk. rewrite not_elem_of_union. split.
  - apply Hseen. rewrite fmap_cons. by apply list_elem_of_further.
  - rewrite elem_of_singleton. intros ->. done.
Qed.

Lemma dfa_validate_base (d : DFA) :
  (DFA.validate d).1 = true → (validate d).1 = true.
Proof. unfold DFA.validate. by destruct (validate d) as [[] ?]. Qed.

Lemma nfa_add_transition_fields f t s o (n : NFA) :
  NFA.add_transition f t s o n
  = (Ok tt, mkAutomaton (states n)
              (if bool_decide (s ≠ EPS) then alphabet n ∪ {[s]} else alphabet n)
              (start_state n) (accept_states n)
              (transitions n ++ [mkTransition f t s o])
              (<[(f, s) := NFA.get_next_states n f s ∪ {[t]}]> (own n))).
Proof.
  unfold NFA.add_transition, bind. by rewrite add_transition_fields.
Qed.

Lemma nfa_inv_new : nfa_inv NFA.new.
Proof.
  split; [|done]. intros q s t. unfold NFA.get_next_states. simpl.
  rewrite lookup_empty. simpl. split; [set_solver|].
  intros [o Ho]. by apply elem_of_nil in Ho.
Qed.

Lemma nfa_inv_add_transition f t s o (n : NFA) :
  nfa_inv n → nfa_inv (snd (NFA.add_transition f t s o n)).
Proof.
  intros [IH1 IH2]. rewrite nfa_add_transition_fields. unfold nfa_inv. simpl. split.
  - intros q s' t'. setoid_rewrite elem_of_app. unfold NFA.get_next_states at 1. simpl.
    destruct (decide ((f, s) = (q, s'))) as [[= <- <-]|Hne].
    + rewrite lookup_insert_eq. simpl. rewrite elem_of_union, elem_of_singleton, IH1.
      split.
      * intros [[o' ?]| ->]; [exists o'; by left|].
        exists o. right. by apply list_elem_of_singleton.
      * intros [o' [Hin|Hin]]; [left; by exists o'|].
        apply list_elem_of_singleton in Hin. right. by simplify_eq.
    + rewrite lookup_insert_ne by done.
      change (default ∅ (own n !! (q, s'))) with (NFA.get_next_states n q s').
      rewrite IH1. split.
      * intros [o' ?]. exists o'. by left.
      * intros [o' [Hin|Hin]]; [by exists o'|].
        apply list_elem_of_singleton in Hin. by simplify_eq.
  - by apply symbols_add.
Qed.

Lemma nfa_inv_same (n n' : NFA) :
  transitions n' = transitions n → own n' = own n → alphabet n' = alphabet n →
  nfa_inv n → nfa_inv n'.
Proof.
  unfold nfa_inv, NFA.get_next_states. by intros -> -> ->.
Qed.

Lemma nfa_built_inv n : nfa_built n → nfa_inv n.
Proof.
  induction 1 as [|n name acc st _ IH|n f t s o _ IH].
  - apply nfa_inv_new.
  - destruct (add_state_fields name acc st n) as (Ht & Ha & Ho & _).
    by eapply nfa_inv_same.
  - by apply nfa_inv_add_transition.
Qed.

Lemma symbols_no_eps l : EPS ∉ symbols l.
Proof.
  unfold symbols. rewrite elem_of_list_to_set, list_elem_of_filter. tauto.
Qed.

Lemma last_for_snoc l trans q s :
  last_for (l ++ [trans]) q s
  = if decide (key trans = (q, s)) then Some trans else last_for l q s.
Proof.
  unfold last_for. rewrite filter_app, filter_cons, filter_nil.
  destruct (decide _); [by rewrite last_snoc|by rewrite app_nil_r].
Qed.

Lemma moore_built_inv m : moore_built m → moore_inv m.
Proof.
  induction 1 as [|m name acc st _ [IH1 IH2]|m q out _ [IH1 IH2]|m f t s o _ [IH1 IH2]].
  - split; [|done]. intros q s t. unfold MooreMachine.get_next_state. simpl.
    by rewrite lookup_empty.
  - destruct (add_state_fields name acc st m) as (Ht & Ha & Ho & Hs).
    unfold moore_inv, MooreMachine.get_next_state. rewrite Ht, Ho, Hs.
    split; [done|]. rewrite dom_insert_L. set_solver.
  - unfold MooreMachine.set_state_output, bind, get. simpl.
    case_bool_decide as Hq; [done|]. simpl. split; [done|]. unfold set_own. simpl.
    rewrite dom_insert_L. set_solver.
  - unfold MooreMachine.add_transition, bind. rewrite add_transition_fields. simpl.
    split; [|done].
    intros q s' t'. unfold MooreMachine.get_next_state. simpl.
    rewrite last_for_snoc. unfold key at 1. simpl.
    destruct (decide ((f, s) = (q, s'))) as [[= <- <-]|Hne].
    + rewrite lookup_insert_eq. naive_solver.
    + rewrite lookup_insert_ne by done. apply IH1.
Qed.
End ApiFacts.

Module RunFacts.
Import RunSpec.

Lemma move_spec (self : NFA) (X : gset str) s t :
  t ∈ NFA.move self X s ↔ ∃ q, q ∈ X ∧ t ∈ NFA.get_next_states self q s.
Proof.
  unfold NFA.move.
  assert (∀ l (acc : gset str),
    t ∈ foldl (λ next_states state, next_states ∪ NFA.get_next_states self state s) acc l
    ↔ t ∈ acc ∨ ∃ q, q ∈ l ∧ t ∈ NFA.get_next_states self q s) as Hfold.
  { induction l as [|x l IH]; intros acc; simpl.
    - split; [by left|]. intros [?|(q & Hq & _)]; [done|]. by apply elem_of_nil in Hq.
    - rewrite IH, elem_of_union. setoid_rewrite elem_of_cons. naive_solver. }
  rewrite Hfold. setoid_rewrite elem_of_elements. set_solver.
Qed.

Lemma nfa_accepts_from_path (self : NFA) (X : gset str) w :
  NFA.accepts_from self X w = true
  ↔ ∃ q r, q ∈ X ∧ path self q w r ∧ r ∈ accept_states self.
Proof.
  revert X. induction w as [|c w IH]; intros X; simpl.
  - rewrite bool_decide_eq_true. split.
    + intros Hne. apply set_choose_L in Hne as [q Hq].
      exists q, q. split_and!; [set_solver|constructor|set_solver].
    + intros (q & r & Hq & Hp & Hr). inversion Hp; subst. set_solver.
  - case_bool_decide as Hempty.
    + split; [done|]. intros (q & r & Hq & Hp & Hr). inversion Hp; subst.
      assert (t ∈ NFA.move self X [c]) as Ht by (apply move_spec; eauto).
      rewrite Hempty in Ht. set_solver.
    + rewrite IH. split.
      * intros (t & r & Ht & Hp & Hr). apply move_spec in Ht as (q & Hq & Ht).
        exists q, r. split_and!; [done| |done]. by econstructor.
      * intros (q & r & Hq & Hp & Hr). inversion Hp; subst.
        exists t, r. split_and!; [|done|done]. apply move_spec. eauto.
Qed.

(** *** The ε-closure *)

Lemma foldl_visit_spec l closure queue :
  let '(closure', queue') := foldl EpsilonNFA.visit (closure, queue) l in
  closure' = closure ∪ list_to_set l
  ∧ (∀ x, x ∈ queue' → x ∈ queue ∨ x ∈ l)
  ∧ (∀ x, x ∈ queue → x ∈ queue')
  ∧ (∀ x, x ∈ l → x ∈ closure ∨ x ∈ queue').
Proof.
  revert closure queue. induction l as [|y l IH]; intros closure queue; cbn [foldl].
  - split_and!; [set_solver|auto|auto|]. intros x Hx. by apply elem_of_nil in Hx.
  - assert (EpsilonNFA.visit (closure, queue) y
            = if bool_decide (y ∉ closure)
              then (closure ∪ {[y]}, queue ++ [y]) else (closure, queue)) as -> by done.
    case_bool_decide as Hy.
    + specialize (IH (closure ∪ {[y]}) (queue ++ [y])).
      destruct (foldl _ _ l) as [closure' queue']. destruct IH as (-> & H1 & H2 & H3).
      split_and!.
      * set_solver.
      * intros x [[?| ->%list_elem_of_singleton]%elem_of_app|?]%H1;
          rewrite ?elem_of_cons; auto.
      * intros x Hx. apply H2, elem_of_app. auto.
      * intros x [->|Hx]%elem_of_cons.
        -- right. apply H2, elem_of_app. right. by apply list_elem_of_singleton.
        -- destruct (H3 x Hx) as [[?| ->%elem_of_singleton]%elem_of_union|?]; auto.
           right. apply H2, elem_of_app. right. by apply list_elem_of_singleton.
    + specialize (IH closure queue).
      destruct (foldl _ _ l) as [closure' queue']. destruct IH as (-> & H1 & H2 & H3).
      split_and!.
      * set_solver.
      * intros x [?|?]%H1; rewrite ?elem_of_cons; auto.
      * done.
      * intros x [->|Hx]%elem_of_cons; auto.
Qed.

Lemma closure_loop_spec n (self : EpsilonNFA) X closure queue C :
  closure_inv self X closure queue →
  EpsilonNFA.closure_loop n self closure queue = Some C →
  eps_closed self C ∧ ∀ q, q ∈ C ↔ ∃ p, p ∈ X ∧ rtc (eps_step self) p q.
Proof.
  revert closure queue. induction n as [|n IH]; intros closure queue Hinv Hloop.
  - destruct queue; [|done]. simpl in Hloop. simplify_eq.
    destruct Hinv as (HX & Hreach & _ & Hclosed).
    assert (eps_closed self C) as HC.
    { intros q t Hq Hqt. destruct (Hclosed q t Hq Hqt) as [Hin|]; [|done].
      by apply elem_of_nil in Hin. }
    split; [done|]. intros q. split; [apply Hreach|].
    intros (p & Hp & Hpq). apply HX in Hp. induction Hpq; eauto.
  - destruct queue as [|state queue].
    { simpl in Hloop. simplify_eq.
      destruct Hinv as (HX & Hreach & _ & Hclosed).
      assert (eps_closed self C) as HC.
      { intros q t Hq Hqt. destruct (Hclosed q t Hq Hqt) as [Hin|]; [|done].
        by apply elem_of_nil in Hin. }
      split; [done|]. intros q. split; [apply Hreach|].
      intros (p & Hp & Hpq). apply HX in Hp. induction Hpq; eauto. }
    simpl in Hloop.
    pose proof (foldl_visit_spec (elements (NFA.get_next_states self state EPS))
                  closure queue) as Hfold.
    destruct (foldl _ _ _) as [closure' queue'].
    destruct Hfold as (-> & H1 & H2 & H3).
    apply IH in Hloop; [done|].
    destruct Hinv as (HX & Hreach & Hqueue & Hclosed).
    split_and!.
    + set_solver.
    + intros q [Hq|Hq]%elem_of_union; [by apply Hreach|].
      apply elem_of_list_to_set, elem_of_elements in Hq.
      destruct (Hreach state) as (p & Hp & Hps); [apply Hqueue; by left|].
      exists p. split; [done|]. eapply rtc_r; [exact Hps|exact Hq].
    + intros q [Hq|Hq]%H1.
      * apply elem_of_union. left. apply Hqueue. by right.
      * apply elem_of_union. right. by apply elem_of_list_to_set.
    + intros q t [Hq|Hq]%elem_of_union Hqt.
      * destruct (Hclosed q t Hq Hqt) as [[->|Hin]%elem_of_cons|Ht].
        -- assert (t ∈ elements (NFA.get_next_states self state EPS)) as Ht
             by by apply elem_of_elements.
           right. apply elem_of_union. right. by apply elem_of_list_to_set.
        -- left. by apply H2.
        -- right. set_solver.
      * apply elem_of_list_to_set in Hq.
        destruct (H3 q Hq) as [Hq'|?]; [|by left].
        destruct (Hclosed q t Hq' Hqt) as [[->|Hin]%elem_of_cons|Ht].
        -- assert (t ∈ elements (NFA.get_next_states self state EPS)) as Ht
             by by apply elem_of_elements.
           right. apply elem_of_union. right. by apply elem_of_list_to_set.
        -- left. by apply H2.
        -- right. set_solver.
Qed.

Lemma epsilon_closure_closed (self : EpsilonNFA) (X C : gset str) :
  EpsilonNFA.epsilon_closure self X = Some C →
  eps_closed self C ∧ ∀ q, q ∈ C ↔ ∃ p, p ∈ X ∧ rtc (eps_step self) p q.
Proof.
  intros HC. eapply closure_loop_spec; [|exact HC].
  split_and!; [done| | |].
  - intros q Hq. exists q. split; [done|constructor].
  - intros q Hq. by apply elem_of_elements.
  - intros q t Hq _. left. by apply elem_of_elements.
Qed.

Lemma epath_rtc (self : EpsilonNFA) q t w r :
  rtc (eps_step self) q t → epath self t w r → epath self q w r.
Proof. induction 1; [done|]. intros. eapply epath_eps; eauto. Qed.

Lemma epath_nil_inv (self : EpsilonNFA) q w r :
  epath self q w r → w = [] → rtc (eps_step self) q r.
Proof.
  induction 1 as [| q t w r Hqt _ IH |]; intros Hw; [constructor| |done].
  eapply rtc_l; [exact Hqt|]. by apply IH.
Qed.

Lemma epath_cons_inv (self : EpsilonNFA) q w r :
  epath self q w r → ∀ c w', w = c :: w' →
  ∃ q' t, rtc (eps_step self) q q' ∧ t ∈ NFA.get_next_states self q' [c]
          ∧ epath self t w' r.
Proof.
  induction 1 as [| q t w r Hqt _ IH | q c0 t w r Ht Hp _]; intros c w' Hw; [done| |].
  - destruct (IH c w' Hw) as (q' & t' & Hq' & Ht' & Hp').
    exists q', t'. split_and!; [|done|done]. eapply rtc_l; eauto.
  - simplify_eq. exists q, t. split_and!; [constructor|done|done].
Qed.

Lemma eps_closed_rtc (self : EpsilonNFA) C q r :
  eps_closed self C → q ∈ C → rtc (eps_step self) q r → r ∈ C.
Proof. intros HC Hq Hqr. induction Hqr as [|x y z Hxy _ IH]; [done|]. apply IH. eapply HC; eauto. Qed.

Lemma enfa_accepts_from_epath (self : EpsilonNFA) (C : gset str) w :
  eps_closed self C →
  ∃ b, EpsilonNFA.accepts_from self C w = Some b
       ∧ (b = true ↔ ∃ q r, q ∈ C ∧ epath self q w r ∧ r ∈ accept_states self).
Proof.
  revert C. induction w as [|c w IH]; intros C HC; simpl.
  - eexists. split; [done|]. rewrite bool_decide_eq_true. split.
    + intros Hne. apply set_choose_L in Hne as [q Hq].
      exists q, q. split_and!; [set_solver|constructor|set_solver].
    + intros (q & r & Hq & Hp & Hr). apply epath_nil_inv in Hp; [|done].
      assert (r ∈ C) as HrC by by eapply eps_closed_rtc.
      set_solver.
  - case_bool_decide as Hempty.
    + exists false. split; [done|]. split; [done|].
      intros (q & r & Hq & Hp & Hr).
      destruct (epath_cons_inv _ _ _ _ Hp c w eq_refl) as (q' & t & Hq' & Ht & _).
      assert (q' ∈ C) as Hq'C by by eapply eps_closed_rtc.
      assert (t ∈ NFA.move self C [c]) as Hm by (apply move_spec; by exists q').
      rewrite Hempty in Hm. set_solver.
    + destruct (EpsilonNFAFacts.epsilon_closure_total self (NFA.move self C [c]))
        as [C' HC'].
      rewrite HC'. apply epsilon_closure_closed in HC' as [Hclosed HC'].
      destruct (IH C' Hclosed) as (b & Hb & Hiff). exists b. split; [done|].
      rewrite Hiff. split.
      * intros (q' & r & Hq' & Hp & Hr). apply HC' in Hq' as (t & Ht & Htq').
        apply move_spec in Ht as (q & Hq & Ht).
        exists q, r. split_and!; [done| |done].
        eapply epath_cons; [exact Ht|]. by eapply epath_rtc.
      * intros (q & r & Hq & Hp & Hr).
        destruct (epath_cons_inv _ _ _ _ Hp c w eq_refl) as (q' & t & Hq' & Ht & Hp').
        assert (q' ∈ C) as Hq'C by by eapply eps_closed_rtc.
        exists t, r. split_and!; [|done|done].
        apply HC'. exists t. split; [|constructor]. apply move_spec. by exists q'.
Qed.

(** [EpsilonNFA.accepts] always answers, and answers [True] exactly when
    some walk from the start state reads the input and ends in an accept
    state. *)
Lemma enfa_accepts_iff_epath (self : EpsilonNFA) w :
  ∃ b, EpsilonNFA.accepts self w = Some b
       ∧ (b = true ↔ ∃ q0 r, start_state self = Some q0 ∧ epath self q0 w r
                             ∧ r ∈ accept_states self).
Proof.
  unfold EpsilonNFA.accepts. destruct (start_state self) as [q0|].
  - destruct (EpsilonNFAFacts.epsilon_closure_total self {[q0]}) as [C HC].
    rewrite HC. apply epsilon_closure_closed in HC as [Hclosed HC].
    destruct (enfa_accepts_from_epath self C w Hclosed) as (b & Hb & Hiff).
    exists b. split; [done|]. rewrite Hiff. split.
    + intros (q & r & Hq & Hp & Hr). apply HC in Hq as (p & Hp0%elem_of_singleton & Hpq).
      subst p. exists q0, r. split_and!; [done| |done]. by eapply epath_rtc.
    + intros (q & r & [= ->] & Hp & Hr). exists q, r. split_and!; [|done|done].
      apply HC. exists q. split; [set_solver|constructor].
  - exists false. split; [done|]. split; [done|]. by intros (? & ? & ? & _).
Qed.
End RunFacts.

Module SimFacts.
Import ApiSpec.
Import SimSpec Simulator.

Lemma final_state_cons q0 q c t trace :
  final_state q0 ((q, c, t) :: trace) = final_state t trace.
Proof.
  unfold final_state. destruct trace as [|step trace]; [done|].
  rewrite last_cons_cons.
  destruct (last (step :: trace)) eqn:Hl; [done|]. by apply last_None in Hl.
Qed.

Lemma dfa_accepts_from_trace (d : DFA) q w :
  DFA.accepts_from d q w = true
  ↔ length (DFA.steps_from d q w) = length w
    ∧ Forall (dfa_step_ok d) (DFA.steps_from d q w)
    ∧ final_state q (DFA.steps_from d q w) ∈ accept_states d.
Proof.
  revert q. induction w as [|c w IH]; intros q; simpl.
  - rewrite bool_decide_eq_true. unfold final_state. simpl. naive_solver.
  - destruct (DFA.get_next_state d q [c]) as [t|] eqn:Ht.
    + rewrite IH, final_state_cons, Forall_cons. simpl. unfold dfa_step_ok at 2. simpl.
      naive_solver.
    + split; [done|]. intros (_ & Hs & _). apply Forall_cons in Hs as [Hs _].
      unfold dfa_step_ok in Hs. simpl in Hs. congruence.
Qed.

Lemma mealy_process_from_steps (m : MealyMachine) q outs w :
  let trace := MealyMachine.steps_from m q w in
  let r := MealyMachine.process_from m q outs w in
  (r.1 = true → r.2 = outs ++ (mealy_output <$> trace) ∧ length trace = length w)
  ∧ (r.1 = false →
     ∃ good q' c, trace = good ++ [(q', c, MealyMachine.ERROR, MealyMachine.ERROR)]
                  ∧ r.2 = outs ++ (mealy_output <$> good)
                  ∧ length good < length w).
Proof.
  revert q outs. induction w as [|c w IH]; intros q outs; simpl.
  - split; [by rewrite app_nil_r|done].
  - destruct (MealyMachine.get_next_state_and_output m q [c]) as [[t o]|] eqn:Ht; simpl.
    + destruct (IH t (outs ++ [o])) as [IH1 IH2]. split.
      * intros Hr. destruct (IH1 Hr) as [-> ->]. by rewrite <- app_assoc.
      * intros Hr. destruct (IH2 Hr) as (good & q' & c' & -> & -> & Hlen).
        exists ((q, [c], o, t) :: good), q', c'. split_and!; [done| |simpl; lia].
        by rewrite <- app_assoc.
    + split; [done|]. intros _. exists [], q, [c]. split_and!; [done| |simpl; lia].
      by rewrite app_nil_r.
Qed.

Lemma moore_process_from_steps (m : MooreMachine) q outs w :
  let trace := MooreMachine.steps_from m q w in
  let r := MooreMachine.process_from m q outs w in
  (r.1 = true → r.2 = outs ++ (moore_output <$> trace) ∧ length trace = length w)
  ∧ (r.1 = false →
     ∃ good q' c, trace = good ++ [(q', c, MooreMachine.ERROR, MooreMachine.ERROR)]
                  ∧ r.2 = outs ++ (moore_output <$> good)
                  ∧ length good < length w).
Proof.
  revert q outs. induction w as [|c w IH]; intros q outs; simpl.
  - split; [by rewrite app_nil_r|done].
  - destruct (MooreMachine.get_next_state m q [c]) as [t|] eqn:Ht; simpl.
    + destruct (IH t (outs ++ [MooreMachine.output_of m t])) as [IH1 IH2]. split.
      * intros Hr. destruct (IH1 Hr) as [-> ->]. by rewrite <- app_assoc.
      * intros Hr. destruct (IH2 Hr) as (good & q' & c' & -> & -> & Hlen).
        exists ((q, [c], t, MooreMachine.output_of m t) :: good), q', c'.
        split_and!; [done| |simpl; lia].
        by rewrite <- app_assoc.
    + split; [done|]. intros _. exists [], q, [c]. split_and!; [done| |simpl; lia].
      by rewrite app_nil_r.
Qed.

(** *** Complete DFAs *)

Lemma is_complete_spec (d : DFA) :
  DFA.is_complete d = true
  ↔ ∀ q s, q ∈ dom (states d) → s ∈ alphabet d → is_Some (DFA.get_next_state d q s).
Proof.
  unfold DFA.is_complete, DFA.get_next_state.
  rewrite forallb_forall. setoid_rewrite forallb_forall.
  setoid_rewrite bool_decide_eq_true. setoid_rewrite elem_of_dom.
  setoid_rewrite <- list_elem_of_In. setoid_rewrite elem_of_elements.
  setoid_rewrite elem_of_dom. naive_solver.
Qed.

Lemma validate_transitions_ok {X} (a : Automaton X) l :
  (validate_transitions a l).1 = true
  ↔ ∀ trans, trans ∈ l →
      from_state trans ∈ dom (states a) ∧ to_state trans ∈ dom (states a).
Proof.
  induction l as [|trans l IH]; simpl.
  - split; [|done]. intros _ trans Hin. by apply elem_of_nil in Hin.
  - setoid_rewrite elem_of_cons. repeat case_bool_decide; simpl.
    + split; [done|]. intros Hall. destruct (Hall trans); auto.
    + split; [done|]. intros Hall. destruct (Hall trans); auto.
    + rewrite IH. naive_solver.
Qed.

Lemma validate_ok {X} (a : Automaton X) :
  (validate a).1 = true
  ↔ states a ≠ ∅
    ∧ (∃ q, start_state a = Some q ∧ q ∈ dom (states a))
    ∧ ∀ trans, trans ∈ transitions a →
        from_state trans ∈ dom (states a) ∧ to_state trans ∈ dom (states a).
Proof.
  unfold validate. case_bool_decide as Hs; simpl; [naive_solver|].
  destruct (start_state a) as [q|]; simpl; [|naive_solver].
  case_bool_decide as Hq; simpl; [naive_solver|].
  rewrite validate_transitions_ok. naive_solver.
Qed.

Lemma complete_steps_from (d : DFA) q w :
  (∀ q s, q ∈ dom (states d) → s ∈ alphabet d → is_Some (DFA.get_next_state d q s)) →
  (∀ q s t, DFA.get_next_state d q s = Some t → t ∈ dom (states d)) →
  q ∈ dom (states d) →
  Forall (λ c, [c] ∈ alphabet d) w →
  length (DFA.steps_from d q w) = length w
  ∧ Forall (dfa_step_ok d) (DFA.steps_from d q w)
  ∧ final_state q (DFA.steps_from d q w) ∈ dom (states d).
Proof.
  intros Hc Hv. revert q. induction w as [|c w IH]; intros q Hq Hw; simpl.
  - split_and!; [done|constructor|done].
  - apply Forall_cons in Hw as [Hcw Hw].
    destruct (Hc q [c] Hq Hcw) as [t Ht]. rewrite Ht.
    destruct (IH t) as (IH1 & IH2 & IH3); [by eapply Hv|done|].
    rewrite final_state_cons. simpl. split_and!; [by rewrite IH1| |done].
    by apply Forall_cons.
Qed.

End SimFacts.

Module PDARunFacts.
Import PDA PDARunSpec PDAFacts.

Lemma config_key_inj c c' : config_key c = config_key c' → c = c'.
Proof. destruct c, c'. unfold config_key. simpl. by intros [= -> -> ->]. Qed.

Lemma accepts_loop_next n self config queue visited :
  accepts_loop (S n) self (config :: queue) visited
  = if negb (bool_decide (config_key config ∈ visited)) && accepting self config
    then Ok true
    else let '(queue', visited') := search_next self config queue visited in
         accepts_loop n self queue' visited'.
Proof.
  rewrite accepts_loop_step. unfold search_next.
  case_bool_decide; simpl; [done|].
  destruct (accepting self config); [done|]. by destruct (stack_top config).
Qed.

Lemma search_inv_next self init config queue visited :
  search_inv self init (config :: queue) visited →
  negb (bool_decide (config_key config ∈ visited)) && accepting self config = false →
  let '(queue', visited') := search_next self config queue visited in
  search_inv self init queue' visited'
  ∧ config_key config ∈ visited'
  ∧ (∀ i c, queue !! i = Some c → queue' !! i = Some c).
Proof.
  intros (I1 & I2 & I3) Hnot. unfold search_next.
  case_bool_decide as Hvis; simpl in Hnot.
  - split_and!; [|done|done]. split_and!.
    + intros c Hc. apply I1. by right.
    + intros c Hc. destruct (I2 c Hc) as (? & ? & Hsucc). split_and!; [done|done|].
      intros c' [[->|?]%elem_of_cons|?]%Hsucc; auto.
    + destruct I3 as [[->|?]%elem_of_cons|?]; auto.
  - assert (rtc (pda_step self) init config) as Hreach by (apply I1; by left).
    assert (∀ c, config_key c ∈ visited ∪ {[config_key config]} →
                 config_key c ∈ visited ∨ c = config) as Hcase.
    { intros c [?|Hc%elem_of_singleton]%elem_of_union; [by left|].
      right. by apply config_key_inj. }
    destruct (stack_top config) as [top|] eqn:Htop.
    + split_and!; [|set_solver|intros i c; apply lookup_app_l_Some]. split_and!.
      * intros c [Hc|Hc]%elem_of_app; [apply I1; by right|].
        apply list_elem_of_fmap in Hc as (trans & -> & Htrans).
        eapply rtc_r; [exact Hreach|]. by exists top, trans.
      * intros c [Hc| ->]%Hcase.
        -- destruct (I2 c Hc) as (? & ? & Hsucc). split_and!; [done|done|].
           intros c' [[->|?]%elem_of_cons|?]%Hsucc.
           ++ right. set_solver.
           ++ left. apply elem_of_app. by left.
           ++ right. set_solver.
        -- split_and!; [done|done|].
           intros c' (top' & trans & Htop' & Htrans & ->). left.
           apply elem_of_app. right. apply list_elem_of_fmap. exists trans.
           split; [done|]. congruence.
      * destruct I3 as [[->|?]%elem_of_cons|?].
        -- right. set_solver.
        -- left. apply elem_of_app. by left.
        -- right. set_solver.
    + split_and!; [|set_solver|done]. split_and!.
      * intros c Hc. apply I1. by right.
      * intros c [Hc| ->]%Hcase.
        -- destruct (I2 c Hc) as (? & ? & Hsucc). split_and!; [done|done|].
           intros c' [[->|?]%elem_of_cons|?]%Hsucc.
           ++ right. set_solver.
           ++ by left.
           ++ right. set_solver.
        -- split_and!; [done|done|].
           intros c' (top' & trans & Htop' & _). congruence.
      * destruct I3 as [[->|?]%elem_of_cons|?].
        -- right. set_solver.
        -- by left.
        -- right. set_solver.
Qed.

Lemma search_inv_done self init visited c :
  search_inv self init [] visited →
  rtc (pda_step self) init c → accepting self c = false.
Proof.
  intros (_ & I2 & I3) Hreach.
  assert (config_key init ∈ visited) as Hinit.
  { destruct I3 as [Hin|]; [|done]. by apply elem_of_nil in Hin. }
  assert (∀ x y, config_key x ∈ visited → pda_step self x y → config_key y ∈ visited)
    as Hclosed.
  { intros x y Hx Hxy. destruct (I2 x Hx) as (_ & _ & Hsucc).
    destruct (Hsucc y Hxy) as [Hin|]; [|done]. by apply elem_of_nil in Hin. }
  assert (∀ x, config_key x ∈ visited → accepting self x = false) as Hno.
  { intros x Hx. by destruct (I2 x Hx) as (_ & ? & _). }
  apply Hno. clear I2 I3 Hno.
  induction Hreach as [|x y z Hxy _ IH]; [done|]. apply IH. by eapply Hclosed.
Qed.

Lemma accepts_loop_sound n self init queue visited b :
  search_inv self init queue visited →
  accepts_loop n self queue visited = Ok b →
  b = true ↔ ∃ c, rtc (pda_step self) init c ∧ accepting self c = true.
Proof.
  revert queue visited. induction n as [|n IH]; intros queue visited Hinv Hloop.
  - destruct queue; [|done]. simpl in Hloop. simplify_eq. split; [done|].
    intros (c & Hc & Hacc). by rewrite (search_inv_done _ _ _ _ Hinv Hc) in Hacc.
  - destruct queue as [|config queue].
    { simpl in Hloop. simplify_eq. split; [done|].
      intros (c & Hc & Hacc). by rewrite (search_inv_done _ _ _ _ Hinv Hc) in Hacc. }
    rewrite accepts_loop_next in Hloop.
    destruct (negb _ && accepting self config) eqn:Hacc.
    + simplify_eq. split; [|done]. intros _. exists config.
      apply andb_true_iff in Hacc as [_ Hacc]. split; [|done].
      destruct Hinv as (I1 & _). apply I1. by left.
    + pose proof (search_inv_next _ _ _ _ _ Hinv Hacc) as Hnext.
      destruct (search_next self config queue visited) as [queue' visited'].
      destruct Hnext as (Hinv' & _). by eapply IH.
Qed.

Lemma initial_search_inv self init : search_inv self init [init] ∅.
Proof.
  split_and!.
  - intros c ->%list_elem_of_singleton. constructor.
  - intros c Hc. by apply not_elem_of_empty in Hc.
  - left. by apply list_elem_of_singleton.
Qed.

(** The search reaches every queued configuration: it answers [True]
    before, or visits it. *)
Lemma search_dequeues self init i queue visited c :
  search_inv self init queue visited → queue !! i = Some c →
  (∃ n, accepts_loop n self queue visited = Ok true)
  ∨ ∃ queue' visited' k,
      search_inv self init queue' visited' ∧ config_key c ∈ visited'
      ∧ ∀ n, accepts_loop (k + n) self queue visited
             = accepts_loop n self queue' visited'.
Proof.
  revert queue visited. induction i as [|i IH]; intros [|config queue] visited Hinv Hc;
    try done; simpl in Hc.
  - simplify_eq.
    destruct (negb (bool_decide (config_key c ∈ visited)) && accepting self c) eqn:Hacc.
    + left. exists 1. by rewrite accepts_loop_next, Hacc.
    + right. pose proof (search_inv_next _ _ _ _ _ Hinv Hacc) as Hnext.
      destruct (search_next self c queue visited) as [queue' visited'] eqn:Hn.
      destruct Hnext as (Hinv' & Hvis & _).
      exists queue', visited', 1. split_and!; [done|done|].
      intros n. change (1 + n) with (S n). by rewrite accepts_loop_next, Hacc, Hn.
  - destruct (negb (bool_decide (config_key config ∈ visited))
              && accepting self config) eqn:Hacc.
    + left. exists 1. by rewrite accepts_loop_next, Hacc.
    + pose proof (search_inv_next _ _ _ _ _ Hinv Hacc) as Hnext.
      destruct (search_next self config queue visited) as [queue' visited'] eqn:Hn.
      destruct Hnext as (Hinv' & _ & Hlookup).
      destruct (IH queue' visited' Hinv' (Hlookup _ _ Hc))
        as [[n Hn']|(queue'' & visited'' & k & Hinv'' & Hvis & Hk)].
      * left. exists (S n). by rewrite accepts_loop_next, Hacc, Hn.
      * right. exists queue'', visited'', (S k). split_and!; [done|done|].
        intros n. change (S k + n) with (S (k + n)).
        by rewrite accepts_loop_next, Hacc, Hn, Hk.
Qed.

Lemma accepts_loop_complete self init c c_acc :
  rtc (pda_step self) c c_acc → accepting self c_acc = true →
  ∀ queue visited,
    search_inv self init queue visited →
    c ∈ queue ∨ config_key c ∈ visited →
    ∃ n, accepts_loop n self queue visited = Ok true.
Proof.
  intros Hreach Hacc. induction Hreach as [c|c c1 c_acc Hstep _ IH];
    intros queue visited Hinv Hc.
  - destruct Hc as [Hc|Hc].
    + apply list_elem_of_lookup in Hc as [i Hi].
      destruct (search_dequeues _ _ _ _ _ _ Hinv Hi)
        as [?|(queue' & visited' & k & (_ & I2 & _) & Hvis & _)]; [done|].
      destruct (I2 c Hvis) as (_ & Hno & _). congruence.
    + destruct Hinv as (_ & I2 & _). destruct (I2 c Hc) as (_ & Hno & _). congruence.
  - destruct Hc as [Hc|Hc].
    + apply list_elem_of_lookup in Hc as [i Hi].
      destruct (search_dequeues _ _ _ _ _ _ Hinv Hi)
        as [?|(queue' & visited' & k & Hinv' & Hvis & Hk)]; [done|].
      destruct (IH Hacc queue' visited' Hinv') as [n Hn].
      { destruct Hinv' as (_ & I2 & _). destruct (I2 c Hvis) as (_ & _ & Hsucc). auto. }
      exists (k + n). by rewrite Hk.
    + apply (IH Hacc queue visited Hinv).
      destruct Hinv as (_ & I2 & _). destruct (I2 c Hc) as (_ & _ & Hsucc). auto.
Qed.

Lemma path_from_reachable max_steps self init config :
  rtc (pda_step self) init config →
  Forall (λ entry, rtc (pda_step self) init entry.1)
         (path_from max_steps self config).
Proof.
  revert config. induction max_steps as [|n IH]; intros config Hreach; simpl;
    [constructor|].
  destruct (accepting self config); [constructor|].
  destruct (stack_top config) as [top|] eqn:Htop; [|constructor].
  destruct (get_applicable_transitions _ _ _ _) as [|trans l] eqn:Happ; [constructor|].
  assert (rtc (pda_step self) init (apply_transition config trans)) as Hnext.
  { eapply rtc_r; [exact Hreach|]. exists top, trans. split_and!; [done| |done].
    rewrite Happ. by left. }
  constructor; [done|]. by apply IH.
Qed.

Lemma accepts_Ok_iff n (self : PDA) w q0 b :
  start_state self = Some q0 → PDA.accepts n self w = Ok b →
  b = true ↔ ∃ c, rtc (pda_step self) (initial_config self q0 w) c
                  ∧ accepting self c = true.
Proof.
  unfold PDA.accepts. intros -> Hloop.
  by eapply accepts_loop_sound; [apply initial_search_inv|].
Qed.

Lemma trace_reachable (self : PDA) w max_steps c o :
  last (PDA.simulate_step_by_step self w max_steps) = Some (c, o) →
  ∃ q0, start_state self = Some q0
        ∧ rtc (pda_step self) (initial_config self q0 w) c.
Proof.
  intros Hlast. unfold PDA.simulate_step_by_step in Hlast.
  destruct (start_state self) as [q0|] eqn:Hq0; [|done].
  exists q0. split; [done|].
  assert (Forall (λ entry, rtc (pda_step self) (initial_config self q0 w) entry.1)
            ((initial_config self q0 w, None)
             :: path_from max_steps self (initial_config self q0 w))) as Hall.
  { constructor; [constructor|]. apply path_from_reachable. constructor. }
  rewrite Forall_forall in Hall. apply (Hall (c, o)).
  by apply last_Some_elem_of.
Qed.
End PDARunFacts.

Module LayoutFacts.
Import RegexSpec ThompsonLayout.

Lemma gpath_app G ok q w1 r w2 t :
  gpath G ok q w1 r → gpath G ok r w2 t → gpath G ok q (w1 ++ w2) t.
Proof.
  induction 1; intros; simpl; [done|eapply gpath_eps|eapply gpath_sym]; eauto.
Qed.

Lemma gpath_mono G (ok ok' : nat → Prop) q w r :
  (∀ i, ok i → ok' i) → gpath G ok q w r → gpath G ok' q w r.
Proof.
  intros Hok. induction 1; [constructor|eapply gpath_eps|eapply gpath_sym]; eauto.
Qed.

Lemma gpath_ext G G' ok q w r :
  (∀ i x j, ok i → (i, x, j) ∈ G → (i, x, j) ∈ G') →
  gpath G ok q w r → gpath G' ok q w r.
Proof.
  intros Hext. induction 1; [constructor|eapply gpath_eps|eapply gpath_sym]; eauto.
Qed.

Lemma gpath_eps_r G ok q w r t :
  gpath G ok q w r → ok r → (r, EPS, t) ∈ G → gpath G ok q w t.
Proof.
  intros Hp Hr Ht. rewrite <- (app_nil_r w). eapply gpath_app; [exact Hp|].
  eapply gpath_eps; [done|done|constructor].
Qed.

(** A walk that starts inside a fragment and ends outside passes through
    the fragment's accept state. *)
Lemma first_exit G ok (N : nat → Prop) a q w r :
  (∀ i x j, N i → i ≠ a → (i, x, j) ∈ G → N j) →
  N q → ¬ N r → gpath G ok q w r →
  ∃ w1 w2, w = w1 ++ w2
           ∧ gpath G (λ i, N i ∧ i ≠ a) q w1 a ∧ gpath G ok a w2 r.
Proof.
  intros Hclosed Hq Hr Hp. induction Hp as [i|i j w r Hok Hin Hp IH|i c j w r Hok Hc Hin Hp IH].
  - done.
  - destruct (decide (i = a)) as [->|Hne].
    + exists [], w. split_and!; [done|constructor|by eapply gpath_eps].
    + destruct IH as (w1 & w2 & -> & H1 & H2); [by eapply Hclosed|done|].
      exists w1, w2. split_and!; [done| |done]. by eapply gpath_eps.
  - destruct (decide (i = a)) as [->|Hne].
    + exists [], (c :: w). split_and!; [done|constructor|by eapply gpath_sym].
    + destruct IH as (w1 & w2 & -> & H1 & H2); [by eapply Hclosed|done|].
      exists (c :: w1), w2. split_and!; [done| |done]. by eapply gpath_sym.
Qed.

Lemma stay_inside G (ok : nat → Prop) (N : nat → Prop) a q w r :
  (∀ i x j, N i → i ≠ a → (i, x, j) ∈ G → N j) →
  (∀ i, ok i → i ≠ a) →
  N q → gpath G ok q w r → gpath G (λ i, N i ∧ i ≠ a) q w r.
Proof.
  intros Hclosed Hok Hq Hp.
  induction Hp as [i|i j w r Hi Hin Hp IH|i c j w r Hi Hc Hin Hp IH].
  - constructor.
  - eapply gpath_eps; [split; auto|done|]. apply IH. eapply Hclosed; eauto.
  - eapply gpath_sym; [split; auto|done|done|]. apply IH. eapply Hclosed; eauto.
Qed.

(** A walk from a state that [ok] excludes is empty. *)
Lemma gpath_stuck G (ok : nat → Prop) q w r :
  ¬ ok q → gpath G ok q w r → w = [] ∧ r = q.
Proof. intros Hq Hp. by destruct Hp. Qed.

Lemma layout_wf_all node k : layout_wf node k.
Proof.
  revert k. unfold layout_wf.
  induction node as [value| |l IHl r IHr|l IHl r IHr|l IHl|l IHl]; intros k; simpl.
  - split_and!; try lia. intros i x j Hin. set_unfold. naive_solver lia.
  - split_and!; try lia. intros i x j Hin. set_unfold. naive_solver lia.
  - specialize (IHl k). destruct (layout l k) as [[[s1 a1] k1] g1].
    specialize (IHr k1). destruct (layout r k1) as [[[s2 a2] k2] g2].
    destruct IHl as (? & ? & ? & Hg1). destruct IHr as (? & ? & ? & Hg2).
    split_and!; try lia. intros i x j Hin. set_unfold.
    destruct Hin as [Hin|[Hin|Hin]].
    + apply Hg1 in Hin. lia.
    + apply Hg2 in Hin. lia.
    + naive_solver lia.
  - specialize (IHl k). destruct (layout l k) as [[[s1 a1] k1] g1].
    specialize (IHr k1). destruct (layout r k1) as [[[s2 a2] k2] g2].
    destruct IHl as (? & ? & ? & Hg1). destruct IHr as (? & ? & ? & Hg2).
    split_and!; try lia. intros i x j Hin. set_unfold.
    destruct Hin as [Hin|[Hin|Hin]].
    + apply Hg1 in Hin. lia.
    + apply Hg2 in Hin. lia.
    + naive_solver lia.
  - specialize (IHl k). destruct (layout l k) as [[[s1 a1] k1] g1].
    destruct IHl as (? & ? & ? & Hg1).
    split_and!; try lia. intros i x j Hin. set_unfold.
    destruct Hin as [Hin|Hin].
    + apply Hg1 in Hin. lia.
    + naive_solver lia.
  - specialize (IHl k). destruct (layout l k) as [[[s1 a1] k1] g1].
    destruct IHl as (? & ? & ? & Hg1).
    split_and!; try lia. intros i x j Hin. set_unfold.
    destruct Hin as [Hin|Hin].
    + apply Hg1 in Hin. lia.
    + naive_solver lia.
Qed.

Lemma layout_count node k : (layout node k).1.2 = k + 2 * pairs node.
Proof.
  revert k. induction node as [value| |l IHl r IHr|l IHl r IHr|l IHl|l IHl];
    intros k; simpl; try lia.
  - specialize (IHl k). destruct (layout l k) as [[[s1 a1] k1] g1].
    specialize (IHr k1). destruct (layout r k1) as [[[s2 a2] k2] g2].
    simpl in *. lia.
  - specialize (IHl k). destruct (layout l k) as [[[s1 a1] k1] g1].
    specialize (IHr k1). destruct (layout r k1) as [[[s2 a2] k2] g2].
    simpl in *. lia.
  - specialize (IHl k). destruct (layout l k) as [[[s1 a1] k1] g1]. simpl in *. lia.
  - specialize (IHl k). destruct (layout l k) as [[[s1 a1] k1] g1]. simpl in *. lia.
Qed.
End LayoutFacts.

Module LayoutLangFacts.
Import RegexSpec ThompsonLayout LayoutFacts.

Lemma gpath_inv G ok q w r :
  gpath G ok q w r →
  (w = [] ∧ r = q)
  ∨ (ok q ∧ ∃ j, (q, EPS, j) ∈ G ∧ gpath G ok j w r)
  ∨ (ok q ∧ ∃ c j w', w = c :: w' ∧ c ≠ Ch.epsilon ∧ (q, [c], j) ∈ G
                      ∧ gpath G ok j w' r).
Proof. destruct 1; naive_solver. Qed.

Lemma sym_not_eps c : c ≠ Ch.epsilon → [c] ≠ EPS.
Proof. unfold EPS. congruence. Qed.

(** The two directions for the loop of [STAR] and [PLUS]: [a1] is the
    accept state of the inner fragment, with the transitions back to its
    start [s1] and on to [a]. *)
Section loop.
Context (G : list edge) (ok : nat → Prop) (l : RegexNode) (k k1 s1 a1 a : nat).
Hypothesis Hclosed : ∀ i x j, k < i ≤ k1 → i ≠ a1 → (i, x, j) ∈ G → k < j ≤ k1.
Hypothesis Hinner : ∀ w, gpath G (inner k k1 a1) s1 w a1 ↔ matches l w.
Hypothesis Hout : ∀ x j, (a1, x, j) ∈ G ↔ x = EPS ∧ (j = s1 ∨ j = a).
Hypothesis Hs1 : k < s1 ≤ k1.
Hypothesis Ha1 : k < a1 ≤ k1.
Hypothesis Ha : ¬ k < a ≤ k1.
Hypothesis Hok : ∀ i, k < i ≤ k1 → ok i.
Hypothesis Hnok : ¬ ok a.

Lemma loop_split q w :
  k < q ≤ k1 → gpath G ok q w a →
  ∃ w1 w2, w = w1 ++ w2 ∧ gpath G (inner k k1 a1) q w1 a1 ∧ matches (STAR l) w2.
Proof.
  intros Hq Hp.
  cut (∀ r, gpath G ok q w r → r = a → k < q ≤ k1 →
         ∃ w1 w2, w = w1 ++ w2 ∧ gpath G (inner k k1 a1) q w1 a1
                  ∧ matches (STAR l) w2); [by eauto|].
  clear Hq Hp. intros r Hp.
  induction Hp as [i|i j w r Hi Hin Hp IH|i c j w r Hi Hc Hin Hp IH]; intros -> Hq.
  - done.
  - destruct (decide (i = a1)) as [->|Hne].
    + exists [], w. split_and!; [done|constructor|].
      apply Hout in Hin as [_ [->| ->]].
      * destruct (IH eq_refl Hs1) as (w1 & w2 & -> & H1 & H2).
        apply matches_star_cons; [by apply Hinner|done].
      * apply gpath_stuck in Hp as [-> _]; [constructor|done].
    + destruct (IH eq_refl ltac:(by eapply Hclosed)) as (w1 & w2 & -> & H1 & H2).
      exists w1, w2. split_and!; [done| |done]. eapply gpath_eps; [|done|done].
      by split.
  - destruct (decide (i = a1)) as [->|Hne].
    + apply Hout in Hin as [Heq _]. by apply sym_not_eps in Hc.
    + destruct (IH eq_refl ltac:(by eapply Hclosed)) as (w1 & w2 & -> & H1 & H2).
      exists (c :: w1), w2. split_and!; [done| |done]. eapply gpath_sym; [|done|done|done].
      by split.
Qed.

Lemma loop_star w : matches (STAR l) w → gpath G ok a1 w a.
Proof.
  intros Hm. remember (STAR l) as node eqn:Hnode.
  induction Hm as [| | | | | |l' w1 w2 H1 _ H2 IH|]; try done; simplify_eq.
  - apply (gpath_eps _ _ a1 a); [by apply Hok|apply Hout; auto|constructor].
  - apply (gpath_eps _ _ a1 s1); [by apply Hok|apply Hout; auto|].
    eapply gpath_app; [|by apply IH].
    eapply gpath_mono; [|by apply Hinner]. intros i [? _]. by apply Hok.
Qed.
End loop.

Lemma layout_lang_all node k : Ch.epsilon ∉ chars node → layout_lang node k.
Proof.
  revert k. unfold layout_lang.
  induction node as [value| |l IHl r IHr|l IHl r IHr|l IHl|l IHl]; intros k Heps;
    simpl in *.
  - (* CHAR *)
    assert (value ≠ Ch.epsilon) as Hv by set_solver.
    intros w. split.
    + intros Hp. destruct (gpath_inv _ _ _ _ _ Hp) as [[_ ?]|[[_ (j & Hin & _)]|[_ Hp']]];
        clear Hp.
      * lia.
      * exfalso. set_unfold. unfold EPS in Hin. naive_solver.
      * destruct Hp' as (c & j & w' & -> & Hc & Hin & Hp).
        assert (c = value ∧ j = S (S k)) as [-> ->] by (set_unfold; naive_solver).
        apply gpath_stuck in Hp as [-> _]; [constructor|unfold inner; lia].
    + inversion 1; subst. eapply gpath_sym; [unfold inner; lia|done| |constructor].
      by left.
  - (* EPSILON *)
    intros w. split.
    + intros Hp. destruct (gpath_inv _ _ _ _ _ Hp) as [[_ ?]|[[_ (j & Hin & Hp')]|[_ Hp']]];
        clear Hp.
      * lia.
      * assert (j = S (S k)) as -> by (set_unfold; naive_solver).
        apply gpath_stuck in Hp' as [-> _]; [constructor|unfold inner; lia].
      * destruct Hp' as (c & j & w' & -> & Hc & Hin & Hp).
        exfalso. set_unfold. unfold EPS in Hin. naive_solver.
    + inversion 1; subst. eapply gpath_eps; [unfold inner; lia| |constructor].
      by left.
  - (* CONCAT *)
    pose proof (layout_wf_all l k) as Hwf1. unfold layout_wf in Hwf1.
    specialize (IHl k). destruct (layout l k) as [[[s1 a1] k1] g1].
    pose proof (layout_wf_all r k1) as Hwf2. unfold layout_wf in Hwf2.
    specialize (IHr k1). destruct (layout r k1) as [[[s2 a2] k2] g2].
    destruct Hwf1 as (Hs1 & Ha1 & Hsa1 & Hg1). destruct Hwf2 as (Hs2 & Ha2 & Hsa2 & Hg2).
    rewrite not_elem_of_app in Heps. destruct Heps as [Hepsl Hepsr].
    specialize (IHl Hepsl). specialize (IHr Hepsr).
    set (G := g1 ++ g2 ++ [(a1, EPS, s2)]).
    assert (∀ i x j, k < i ≤ k1 → i ≠ a1 → (i, x, j) ∈ G → (i, x, j) ∈ g1) as HG1.
    { intros i x j Hi Hne Hin. unfold G in Hin. set_unfold.
      destruct Hin as [?|[Hin|Hin]]; [done|apply Hg2 in Hin; lia|naive_solver]. }
    assert (∀ i x j, k1 < i ≤ k2 → (i, x, j) ∈ G → (i, x, j) ∈ g2) as HG2.
    { intros i x j Hi Hin. unfold G in Hin. set_unfold.
      destruct Hin as [Hin|[Hin|Hin]]; [apply Hg1 in Hin; lia|done|naive_solver lia]. }
    assert (∀ x j, (a1, x, j) ∈ G → x = EPS ∧ j = s2) as HGa1.
    { intros x j Hin. unfold G in Hin. set_unfold.
      destruct Hin as [Hin|[Hin|Hin]];
        [apply Hg1 in Hin; lia|apply Hg2 in Hin; lia|naive_solver]. }
    assert (∀ w, gpath G (inner k k1 a1) s1 w a1 ↔ matches l w) as Hl.
    { intros w. rewrite <- IHl. split; apply gpath_ext.
      - intros i x j [? ?] ?. by apply HG1.
      - intros i x j _ ?. unfold G. set_solver. }
    assert (∀ w, gpath G (inner k1 k2 a2) s2 w a2 ↔ matches r w) as Hr.
    { intros w. rewrite <- IHr. split; apply gpath_ext.
      - intros i x j [? ?] ?. by apply HG2.
      - intros i x j _ ?. unfold G. set_solver. }
    assert (∀ i x j, k < i ≤ k1 → i ≠ a1 → (i, x, j) ∈ G → k < j ≤ k1) as Hclosed1.
    { intros i x j Hi Hne Hin. apply HG1 in Hin; [|done..]. apply Hg1 in Hin. lia. }
    assert (∀ i x j, k1 < i ≤ k2 → i ≠ a2 → (i, x, j) ∈ G → k1 < j ≤ k2) as Hclosed2.
    { intros i x j Hi Hne Hin. apply HG2 in Hin; [|done..]. apply Hg2 in Hin. lia. }
    intros w. split.
    + intros Hp.
      apply (first_exit G _ (λ i, k < i ≤ k1) a1) in Hp
        as (w1 & w2 & -> & H1 & H2); [|exact Hclosed1|lia|lia].
      apply matches_concat; [by apply Hl|]. apply Hr.
      destruct (gpath_inv _ _ _ _ _ H2) as [[_ ?]|[[_ (j & Hin & H2')]|[_ H2']]]; clear H2; try rename H2' into H2.
      * lia.
      * apply HGa1 in Hin as [_ ->].
        apply (stay_inside G (inner k k2 a2) (λ i, k1 < i ≤ k2) a2);
          [exact Hclosed2|by intros i [_ ?]|lia|done].
      * destruct H2 as (c & j & w' & -> & Hc & Hin & H2).
        apply HGa1 in Hin as [Heq _]. by apply sym_not_eps in Hc.
    + inversion 1 as [| |l' r' w1 w2 H1 H2| | | | |]; subst.
      eapply gpath_app.
      * eapply gpath_mono; [|by apply Hl]. unfold inner. intros i. lia.
      * apply (gpath_eps _ _ a1 s2); [unfold inner; lia|unfold G; set_solver|].
        eapply gpath_mono; [|by apply Hr]. unfold inner. intros i. lia.
  - (* OR *)
    pose proof (layout_wf_all l k) as Hwf1. unfold layout_wf in Hwf1.
    specialize (IHl k). destruct (layout l k) as [[[s1 a1] k1] g1].
    pose proof (layout_wf_all r k1) as Hwf2. unfold layout_wf in Hwf2.
    specialize (IHr k1). destruct (layout r k1) as [[[s2 a2] k2] g2].
    destruct Hwf1 as (Hs1 & Ha1 & Hsa1 & Hg1). destruct Hwf2 as (Hs2 & Ha2 & Hsa2 & Hg2).
    rewrite not_elem_of_app in Heps. destruct Heps as [Hepsl Hepsr].
    specialize (IHl Hepsl). specialize (IHr Hepsr).
    set (s := S k2). set (a := S (S k2)).
    set (G := g1 ++ g2 ++ [(s, EPS, s1); (s, EPS, s2); (a1, EPS, a); (a2, EPS, a)]).
    assert (∀ i x j, k < i ≤ k1 → i ≠ a1 → (i, x, j) ∈ G → (i, x, j) ∈ g1) as HG1.
    { intros i x j Hi Hne Hin. unfold G, s in Hin. set_unfold.
      destruct Hin as [?|[Hin|Hin]]; [done|apply Hg2 in Hin; lia|naive_solver lia]. }
    assert (∀ i x j, k1 < i ≤ k2 → i ≠ a2 → (i, x, j) ∈ G → (i, x, j) ∈ g2) as HG2.
    { intros i x j Hi Hne Hin. unfold G, s in Hin. set_unfold.
      destruct Hin as [Hin|[Hin|Hin]]; [apply Hg1 in Hin; lia|done|naive_solver lia]. }
    assert (∀ x j, (a1, x, j) ∈ G → x = EPS ∧ j = a) as HGa1.
    { intros x j Hin. unfold G, s in Hin. set_unfold.
      destruct Hin as [Hin|[Hin|Hin]];
        [apply Hg1 in Hin; lia|apply Hg2 in Hin; lia|naive_solver lia]. }
    assert (∀ x j, (a2, x, j) ∈ G → x = EPS ∧ j = a) as HGa2.
    { intros x j Hin. unfold G, s in Hin. set_unfold.
      destruct Hin as [Hin|[Hin|Hin]];
        [apply Hg1 in Hin; lia|apply Hg2 in Hin; lia|naive_solver lia]. }
    assert (∀ x j, (s, x, j) ∈ G → x = EPS ∧ (j = s1 ∨ j = s2)) as HGs.
    { intros x j Hin. unfold G, s in Hin. set_unfold.
      destruct Hin as [Hin|[Hin|Hin]];
        [apply Hg1 in Hin; lia|apply Hg2 in Hin; lia|naive_solver lia]. }
    assert (∀ w, gpath G (inner k k1 a1) s1 w a1 ↔ matches l w) as Hl.
    { intros w. rewrite <- IHl. split; apply gpath_ext.
      - intros i x j [? ?] ?. by apply HG1.
      - intros i x j _ ?. unfold G. set_solver. }
    assert (∀ w, gpath G (inner k1 k2 a2) s2 w a2 ↔ matches r w) as Hr.
    { intros w. rewrite <- IHr. split; apply gpath_ext.
      - intros i x j [? ?] ?. by apply HG2.
      - intros i x j _ ?. unfold G. set_solver. }
    assert (∀ i x j, k < i ≤ k1 → i ≠ a1 → (i, x, j) ∈ G → k < j ≤ k1) as Hclosed1.
    { intros i x j Hi Hne Hin. apply HG1 in Hin; [|done..]. apply Hg1 in Hin. lia. }
    assert (∀ i x j, k1 < i ≤ k2 → i ≠ a2 → (i, x, j) ∈ G → k1 < j ≤ k2) as Hclosed2.
    { intros i x j Hi Hne Hin. apply HG2 in Hin; [|done..]. apply Hg2 in Hin. lia. }
    assert (∀ a' w, (∀ x j, (a', x, j) ∈ G → x = EPS ∧ j = a) →
                    gpath G (inner k a a) a' w a → a' ≠ a → w = []) as Hlast.
    { intros a' w Hout Hp Hne.
      destruct (gpath_inv _ _ _ _ _ Hp) as [[_ ?]|[[_ (j & Hin & Hp')]|[_ Hp']]]; clear Hp; try rename Hp' into Hp; [done| |].
      - apply Hout in Hin as [_ ->].
        apply gpath_stuck in Hp as [-> _]; [done|unfold inner; lia].
      - destruct Hp as (c & j & w' & -> & Hc & Hin & Hp).
        apply Hout in Hin as [Heq _]. by apply sym_not_eps in Hc. }
    intros w. split.
    + intros Hp. destruct (gpath_inv _ _ _ _ _ Hp) as [[_ ?]|[[_ (j & Hin & Hp')]|[_ Hp']]]; clear Hp; try rename Hp' into Hp.
      * unfold s, a in *. lia.
      * apply HGs in Hin as [_ [->| ->]].
        -- apply (first_exit G _ (λ i, k < i ≤ k1) a1) in Hp
             as (w1 & w2 & -> & H1 & H2);
             [|exact Hclosed1|lia|unfold a; lia].
           apply Hlast in H2 as ->; [|done|unfold a; lia].
           rewrite app_nil_r. apply matches_or_l. by apply Hl.
        -- apply (first_exit G _ (λ i, k1 < i ≤ k2) a2) in Hp
             as (w1 & w2 & -> & H1 & H2);
             [|exact Hclosed2|lia|unfold a; lia].
           apply Hlast in H2 as ->; [|done|unfold a; lia].
           rewrite app_nil_r. apply matches_or_r. by apply Hr.
      * destruct Hp as (c & j & w' & -> & Hc & Hin & Hp).
        apply HGs in Hin as [Heq _]. by apply sym_not_eps in Hc.
    + inversion 1 as [| | |l' r' w' H1|l' r' w' H1| | |]; subst.
      * apply (gpath_eps _ _ s s1); [unfold inner, s, a; lia|unfold G; set_solver|].
        apply (gpath_eps_r _ _ _ _ a1); [|unfold inner, a; lia|unfold G; set_solver].
        eapply gpath_mono; [|by apply Hl]. unfold inner, a. intros i. lia.
      * apply (gpath_eps _ _ s s2); [unfold inner, s, a; lia|unfold G; set_solver|].
        apply (gpath_eps_r _ _ _ _ a2); [|unfold inner, a; lia|unfold G; set_solver].
        eapply gpath_mono; [|by apply Hr]. unfold inner, a. intros i. lia.
  - (* STAR *)
    pose proof (layout_wf_all l k) as Hwf1. unfold layout_wf in Hwf1.
    specialize (IHl k). destruct (layout l k) as [[[s1 a1] k1] g1].
    destruct Hwf1 as (Hs1 & Ha1 & Hsa1 & Hg1). specialize (IHl Heps).
    set (s := S k1). set (a := S (S k1)).
    set (G := g1 ++ [(s, EPS, s1); (s, EPS, a); (a1, EPS, s1); (a1, EPS, a)]).
    assert (∀ i x j, k < i ≤ k1 → i ≠ a1 → (i, x, j) ∈ G → (i, x, j) ∈ g1) as HG1.
    { intros i x j Hi Hne Hin. unfold G, s in Hin. set_unfold.
      destruct Hin as [?|Hin]; [done|naive_solver lia]. }
    assert (∀ x j, (a1, x, j) ∈ G ↔ x = EPS ∧ (j = s1 ∨ j = a)) as HGa1.
    { intros x j. unfold G, s. set_unfold. split.
      - intros [Hin|Hin]; [apply Hg1 in Hin; lia|naive_solver lia].
      - naive_solver. }
    assert (∀ x j, (s, x, j) ∈ G → x = EPS ∧ (j = s1 ∨ j = a)) as HGs.
    { intros x j Hin. unfold G, s in Hin. set_unfold.
      destruct Hin as [Hin|Hin]; [apply Hg1 in Hin; lia|naive_solver lia]. }
    assert (∀ w, gpath G (inner k k1 a1) s1 w a1 ↔ matches l w) as Hl.
    { intros w. rewrite <- IHl. split; apply gpath_ext.
      - intros i x j [? ?] ?. by apply HG1.
      - intros i x j _ ?. unfold G. set_solver. }
    assert (∀ i x j, k < i ≤ k1 → i ≠ a1 → (i, x, j) ∈ G → k < j ≤ k1) as Hclosed.
    { intros i x j Hi Hne Hin. apply HG1 in Hin; [|done..]. apply Hg1 in Hin. lia. }
    intros w. split.
    + intros Hp. destruct (gpath_inv _ _ _ _ _ Hp) as [[_ ?]|[[_ (j & Hin & Hp')]|[_ Hp']]]; clear Hp; try rename Hp' into Hp.
      * unfold s, a in *. lia.
      * apply HGs in Hin as [_ [->| ->]].
        -- assert (∃ w1 w2, w = w1 ++ w2 ∧ gpath G (inner k k1 a1) s1 w1 a1
                            ∧ matches (STAR l) w2) as (w1 & w2 & -> & H1 & H2).
           { apply (loop_split G (inner k a a) l k k1 s1 a1 a);
               first [assumption|unfold inner, a; intros; lia]. }
           apply matches_star_cons; [by apply Hl|done].
        -- apply gpath_stuck in Hp as [-> _]; [constructor|unfold inner; lia].
      * destruct Hp as (c & j & w' & -> & Hc & Hin & Hp).
        apply HGs in Hin as [Heq _]. by apply sym_not_eps in Hc.
    + intros Hm.
      assert (∀ w', matches (STAR l) w' → gpath G (inner k a a) a1 w' a) as Hloop.
      { apply (loop_star G (inner k a a) l k k1 s1 a1 a);
          first [assumption|unfold inner, a; intros; lia]. }
      inversion Hm as [| | | | |l'|l' w1 w2 H1 H2|]; subst.
      * apply (gpath_eps _ _ s a); [unfold inner, s, a; lia|unfold G; set_solver|constructor].
      * apply (gpath_eps _ _ s s1); [unfold inner, s, a; lia|unfold G; set_solver|].
        eapply gpath_app; [|by apply Hloop].
        eapply gpath_mono; [|by apply Hl]. unfold inner, a. intros i. lia.
  - (* PLUS *)
    pose proof (layout_wf_all l k) as Hwf1. unfold layout_wf in Hwf1.
    specialize (IHl k). destruct (layout l k) as [[[s1 a1] k1] g1].
    destruct Hwf1 as (Hs1 & Ha1 & Hsa1 & Hg1). specialize (IHl Heps).
    set (s := S k1). set (a := S (S k1)).
    set (G := g1 ++ [(s, EPS, s1); (a1, EPS, s1); (a1, EPS, a)]).
    assert (∀ i x j, k < i ≤ k1 → i ≠ a1 → (i, x, j) ∈ G → (i, x, j) ∈ g1) as HG1.
    { intros i x j Hi Hne Hin. unfold G, s in Hin. set_unfold.
      destruct Hin as [?|Hin]; [done|naive_solver lia]. }
    assert (∀ x j, (a1, x, j) ∈ G ↔ x = EPS ∧ (j = s1 ∨ j = a)) as HGa1.
    { intros x j. unfold G, s. set_unfold. split.
      - intros [Hin|Hin]; [apply Hg1 in Hin; lia|naive_solver lia].
      - naive_solver. }
    assert (∀ x j, (s, x, j) ∈ G → x = EPS ∧ j = s1) as HGs.
    { intros x j Hin. unfold G, s in Hin. set_unfold.
      destruct Hin as [Hin|Hin]; [apply Hg1 in Hin; lia|naive_solver lia]. }
    assert (∀ w, gpath G (inner k k1 a1) s1 w a1 ↔ matches l w) as Hl.
    { intros w. rewrite <- IHl. split; apply gpath_ext.
      - intros i x j [? ?] ?. by apply HG1.
      - intros i x j _ ?. unfold G. set_solver. }
    assert (∀ i x j, k < i ≤ k1 → i ≠ a1 → (i, x, j) ∈ G → k < j ≤ k1) as Hclosed.
    { intros i x j Hi Hne Hin. apply HG1 in Hin; [|done..]. apply Hg1 in Hin. lia. }
    intros w. split.
    + intros Hp. destruct (gpath_inv _ _ _ _ _ Hp) as [[_ ?]|[[_ (j & Hin & Hp')]|[_ Hp']]]; clear Hp; try rename Hp' into Hp.
      * unfold s, a in *. lia.
      * apply HGs in Hin as [_ ->].
        assert (∃ w1 w2, w = w1 ++ w2 ∧ gpath G (inner k k1 a1) s1 w1 a1
                         ∧ matches (STAR l) w2) as (w1 & w2 & -> & H1 & H2).
        { apply (loop_split G (inner k a a) l k k1 s1 a1 a);
            first [assumption|unfold inner, a; intros; lia]. }
        apply matches_plus; [by apply Hl|done].
      * destruct Hp as (c & j & w' & -> & Hc & Hin & Hp).
        apply HGs in Hin as [Heq _]. by apply sym_not_eps in Hc.
    + intros Hm.
      assert (∀ w', matches (STAR l) w' → gpath G (inner k a a) a1 w' a) as Hloop.
      { apply (loop_star G (inner k a a) l k k1 s1 a1 a);
          first [assumption|unfold inner, a; intros; lia]. }
      inversion Hm as [| | | | | | |l' w1 w2 H1 H2]; subst.
      apply (gpath_eps _ _ s s1); [unfold inner, s, a; lia|unfold G; set_solver|].
      eapply gpath_app; [|by apply Hloop].
      eapply gpath_mono; [|by apply Hl]. unfold inner, a. intros i. lia.
Qed.
End LayoutLangFacts.

Module ThompsonLayoutFacts.
Import RegexSpec ThompsonLayout LayoutFacts Thompson.
Import ThompsonLayoutSpec ApiSpec ApiFacts.

Lemma grows_trans e e1 e2 G1 G2 :
  grows e e1 G1 → grows e1 e2 G2 → grows e e2 (G1 ++ G2).
Proof.
  intros (Ht1 & Hi1 & Hs1 & Hc1 & Hd1) (Ht2 & Hi2 & Hs2 & Hc2 & Hd2).
  split_and!; [by rewrite Ht2, Ht1, app_assoc|auto|congruence|lia|].
  intros q. rewrite Hd2, Hd1. split.
  - intros [[?|(j & ? & ?)]|(j & ? & ?)]; [by left|right; exists j..]; split; [lia|done|lia|done].
  - intros [?|(j & ? & ?)]; [by left; left|].
    destruct (decide (j ≤ state_counter e1)); [left; right|right]; exists j; split; [lia|done|lia|done].
Qed.

Lemma grows_eq e e' G G' : grows e e' G → G = G' → grows e e' G'.
Proof. by intros ? <-. Qed.

Lemma on_nfa_inv {A} (c : M EpsilonNFA A) e r e' :
  on_nfa c e = (Ok r, e') →
  c (nfa e) = (Ok r, nfa e') ∧ state_counter e' = state_counter e.
Proof.
  unfold on_nfa. destruct (c (nfa e)) as [o n']. by intros [= -> <-].
Qed.

Lemma grows_same e e' :
  state_counter e' = state_counter e →
  transitions (nfa e') = transitions (nfa e) →
  own (nfa e') = own (nfa e) →
  alphabet (nfa e') = alphabet (nfa e) →
  start_state (nfa e') = start_state (nfa e) →
  dom (states (nfa e')) = dom (states (nfa e)) →
  grows e e' [].
Proof.
  intros Hc Ht Ho Ha Hs Hd. split_and!; [by rewrite app_nil_r|by apply nfa_inv_same|done|lia|].
  intros q. rewrite Hd, Hc. split; [by left|]. intros [?|(j & ? & _)]; [done|lia].
Qed.

Lemma new_pair_grows e r e' :
  new_pair e = (Ok r, e') →
  r = (state_name (S (state_counter e)), state_name (S (S (state_counter e))))
  ∧ state_counter e' = S (S (state_counter e))
  ∧ grows e e' [].
Proof.
  unfold new_pair, new_state, on_nfa, add_state, bind, modify, gets, ret. simpl.
  intros [= <- <-]. split_and!; [done|done|]. unfold grows. simpl.
  split_and!; [by rewrite app_nil_r|by apply nfa_inv_same|done|lia|].
  intros q. rewrite !dom_insert, !elem_of_union, !elem_of_singleton. split.
  - intros [->|[->|?]]; [right; exists (S (S (state_counter e)))|
                         right; exists (S (state_counter e))|by left];
      split; [lia|done|lia|done].
  - intros [?|(j & ? & ->)]; [auto|].
    assert (j = S (state_counter e) ∨ j = S (S (state_counter e))) as [->| ->] by lia;
      auto.
Qed.

Lemma clear_accept_flag_grows q e e' :
  on_nfa (clear_accept_flag q) e = (Ok tt, e') → grows e e' [].
Proof.
  intros [H Hc]%on_nfa_inv. unfold clear_accept_flag, bind, get in H.
  destruct (states (nfa e) !! q) as [st|] eqn:Hst; [|done].
  unfold modify in H. injection H as H.
  apply grows_same; rewrite <- ?H; simpl; try done.
  rewrite dom_insert_L. apply elem_of_dom_2 in Hst. set_solver.
Qed.

Lemma discard_accept_grows q e e' :
  on_nfa (discard_accept q) e = (Ok tt, e') → grows e e' [].
Proof.
  intros [H Hc]%on_nfa_inv. unfold discard_accept, modify in H. injection H as H.
  apply grows_same; rewrite <- ?H; done.
Qed.

Lemma add_transition_grows f t s e e' :
  on_nfa (NFA.add_transition f t s None) e = (Ok tt, e') →
  grows e e' [mkTransition f t s None].
Proof.
  intros [H Hc]%on_nfa_inv.
  pose proof (nfa_inv_add_transition f t s None (nfa e)) as Hinv.
  rewrite H in Hinv. simpl in Hinv.
  rewrite nfa_add_transition_fields in H. injection H as H.
  split_and!; [by rewrite <- H|done|by rewrite <- H|lia|].
  intros q. rewrite <- H. simpl. rewrite Hc. split; [by left|].
  intros [?|(j & ? & _)]; [done|lia].
Qed.

Ltac inv_bind H x e Hx :=
  apply bind_Ok_inv in H as (x & e & Hx & H).

Lemma build_fragment_follows node e frag e' :
  build_fragment node e = (Ok frag, e') → follows node e frag e'.
Proof.
  revert e frag e'. unfold follows.
  induction node as [value| |l IHl r IHr|l IHl r IHr|l IHl|l IHl];
    intros e0 frag e' H; simpl in H; simpl layout.
  - inv_bind H p e1 H1. apply new_pair_grows in H1 as (-> & Hk1 & G1).
    inv_bind H u e2 H2. destruct u. pose proof (on_nfa_inv _ _ _ _ H2) as [_ Hk2].
    apply add_transition_grows in H2.
    unfold ret in H. injection H as <- <-.
    split_and!; [done|congruence|].
    eapply grows_eq; [exact (grows_trans _ _ _ _ _ G1 H2)|done].
  - inv_bind H p e1 H1. apply new_pair_grows in H1 as (-> & Hk1 & G1).
    inv_bind H u e2 H2. destruct u. pose proof (on_nfa_inv _ _ _ _ H2) as [_ Hk2].
    apply add_transition_grows in H2.
    unfold ret in H. injection H as <- <-.
    split_and!; [done|congruence|].
    eapply grows_eq; [exact (grows_trans _ _ _ _ _ G1 H2)|done].
  - (* CONCAT *)
    inv_bind H lf e1 Hl. apply IHl in Hl.
    destruct (layout l (state_counter e0)) as [[[s1 a1] k1] g1].
    destruct Hl as (-> & Hk1 & Gl).
    inv_bind H rf e2 Hr. apply IHr in Hr. rewrite Hk1 in Hr.
    destruct (layout r k1) as [[[s2 a2] k2] g2].
    destruct Hr as (-> & Hk2 & Gr). simpl in H.
    inv_bind H u e3 H3. destruct u. pose proof (on_nfa_inv _ _ _ _ H3) as [_ Hk3].
    apply clear_accept_flag_grows in H3.
    inv_bind H u e4 H4. destruct u. pose proof (on_nfa_inv _ _ _ _ H4) as [_ Hk4].
    apply discard_accept_grows in H4.
    inv_bind H u e5 H5. destruct u. pose proof (on_nfa_inv _ _ _ _ H5) as [_ Hk5].
    apply add_transition_grows in H5.
    unfold ret in H. injection H as <- <-.
    split_and!; [done|congruence|].
    eapply grows_eq.
    { exact (grows_trans _ _ _ _ _ Gl (grows_trans _ _ _ _ _ Gr
               (grows_trans _ _ _ _ _ H3 (grows_trans _ _ _ _ _ H4 H5)))). }
    by rewrite !fmap_app.
  - (* OR *)
    inv_bind H lf e1 Hl. apply IHl in Hl.
    destruct (layout l (state_counter e0)) as [[[s1 a1] k1] g1].
    destruct Hl as (-> & Hk1 & Gl).
    inv_bind H rf e2 Hr. apply IHr in Hr. rewrite Hk1 in Hr.
    destruct (layout r k1) as [[[s2 a2] k2] g2].
    destruct Hr as (-> & Hk2 & Gr). simpl in H.
    inv_bind H p e3 H3. apply new_pair_grows in H3 as (-> & Hk3 & H3).
    inv_bind H u e4 H4. destruct u. pose proof (on_nfa_inv _ _ _ _ H4) as [_ Hk4].
    apply clear_accept_flag_grows in H4.
    inv_bind H u e5 H5. destruct u. pose proof (on_nfa_inv _ _ _ _ H5) as [_ Hk5].
    apply clear_accept_flag_grows in H5.
    inv_bind H u e6 H6. destruct u. pose proof (on_nfa_inv _ _ _ _ H6) as [_ Hk6].
    apply discard_accept_grows in H6.
    inv_bind H u e7 H7. destruct u. pose proof (on_nfa_inv _ _ _ _ H7) as [_ Hk7].
    apply discard_accept_grows in H7.
    inv_bind H u e8 H8. destruct u. pose proof (on_nfa_inv _ _ _ _ H8) as [_ Hk8].
    apply add_transition_grows in H8.
    inv_bind H u e9 H9. destruct u. pose proof (on_nfa_inv _ _ _ _ H9) as [_ Hk9].
    apply add_transition_grows in H9.
    inv_bind H u e10 H10. destruct u. pose proof (on_nfa_inv _ _ _ _ H10) as [_ Hk10].
    apply add_transition_grows in H10.
    inv_bind H u e11 H11. destruct u. pose proof (on_nfa_inv _ _ _ _ H11) as [_ Hk11].
    apply add_transition_grows in H11.
    unfold ret in H. injection H as <- <-. rewrite Hk2 in *.
    split_and!; [done|congruence|].
    eapply grows_eq.
    { exact (grows_trans _ _ _ _ _ Gl (grows_trans _ _ _ _ _ Gr
               (grows_trans _ _ _ _ _ H3 (grows_trans _ _ _ _ _ H4
                 (grows_trans _ _ _ _ _ H5 (grows_trans _ _ _ _ _ H6
                   (grows_trans _ _ _ _ _ H7 (grows_trans _ _ _ _ _ H8
                     (grows_trans _ _ _ _ _ H9 (grows_trans _ _ _ _ _ H10 H11)))))))))). }
    by rewrite !fmap_app.
  - (* STAR *)
    inv_bind H lf e1 Hl. apply IHl in Hl.
    destruct (layout l (state_counter e0)) as [[[s1 a1] k1] g1].
    destruct Hl as (-> & Hk1 & Gl). simpl in H.
    inv_bind H p e2 H2. apply new_pair_grows in H2 as (-> & Hk2 & H2).
    inv_bind H u e3 H3. destruct u. pose proof (on_nfa_inv _ _ _ _ H3) as [_ Hk3].
    apply clear_accept_flag_grows in H3.
    inv_bind H u e4 H4. destruct u. pose proof (on_nfa_inv _ _ _ _ H4) as [_ Hk4].
    apply discard_accept_grows in H4.
    inv_bind H u e5 H5. destruct u. pose proof (on_nfa_inv _ _ _ _ H5) as [_ Hk5].
    apply add_transition_grows in H5.
    inv_bind H u e6 H6. destruct u. pose proof (on_nfa_inv _ _ _ _ H6) as [_ Hk6].
    apply add_transition_grows in H6.
    inv_bind H u e7 H7. destruct u. pose proof (on_nfa_inv _ _ _ _ H7) as [_ Hk7].
    apply add_transition_grows in H7.
    inv_bind H u e8 H8. destruct u. pose proof (on_nfa_inv _ _ _ _ H8) as [_ Hk8].
    apply add_transition_grows in H8.
    unfold ret in H. injection H as <- <-. rewrite Hk1 in *.
    split_and!; [done|congruence|].
    eapply grows_eq.
    { exact (grows_trans _ _ _ _ _ Gl (grows_trans _ _ _ _ _ H2
               (grows_trans _ _ _ _ _ H3 (grows_trans _ _ _ _ _ H4
                 (grows_trans _ _ _ _ _ H5 (grows_trans _ _ _ _ _ H6
                   (grows_trans _ _ _ _ _ H7 H8))))))). }
    by rewrite !fmap_app.
  - (* PLUS *)
    inv_bind H lf e1 Hl. apply IHl in Hl.
    destruct (layout l (state_counter e0)) as [[[s1 a1] k1] g1].
    destruct Hl as (-> & Hk1 & Gl). simpl in H.
    inv_bind H p e2 H2. apply new_pair_grows in H2 as (-> & Hk2 & H2).
    inv_bind H u e3 H3. destruct u. pose proof (on_nfa_inv _ _ _ _ H3) as [_ Hk3].
    apply clear_accept_flag_grows in H3.
    inv_bind H u e4 H4. destruct u. pose proof (on_nfa_inv _ _ _ _ H4) as [_ Hk4].
    apply discard_accept_grows in H4.
    inv_bind H u e5 H5. destruct u. pose proof (on_nfa_inv _ _ _ _ H5) as [_ Hk5].
    apply add_transition_grows in H5.
    inv_bind H u e6 H6. destruct u. pose proof (on_nfa_inv _ _ _ _ H6) as [_ Hk6].
    apply add_transition_grows in H6.
    inv_bind H u e7 H7. destruct u. pose proof (on_nfa_inv _ _ _ _ H7) as [_ Hk7].
    apply add_transition_grows in H7.
    unfold ret in H. injection H as <- <-. rewrite Hk1 in *.
    split_and!; [done|congruence|].
    eapply grows_eq.
    { exact (grows_trans _ _ _ _ _ Gl (grows_trans _ _ _ _ _ H2
               (grows_trans _ _ _ _ _ H3 (grows_trans _ _ _ _ _ H4
                 (grows_trans _ _ _ _ _ H5 (grows_trans _ _ _ _ _ H6 H7)))))). }
    by rewrite !fmap_app.
Qed.
End ThompsonLayoutFacts.

Module ThompsonLangFacts.
Import RegexSpec ThompsonLayout LayoutFacts LayoutLangFacts.
Import Thompson ThompsonLayoutSpec ThompsonLayoutFacts.
Import RunSpec.
Import ApiSpec ApiFacts.

Lemma construct_layout ast e :
  construct ast (mkEnv EpsilonNFA.new 0) = (Ok tt, e) →
  let '(s, a, k', G) := layout ast 0 in
  start_state (nfa e) = Some (state_name s)
  ∧ accept_states (nfa e) = {[state_name a]}
  ∧ transitions (nfa e) = to_transition <$> G
  ∧ nfa_inv (nfa e)
  ∧ ∀ q, q ∈ dom (states (nfa e)) ↔ ∃ j, 0 < j ≤ k' ∧ q = state_name j.
Proof.
  intros H. unfold construct in H.
  apply bind_Ok_inv in H as (frag & e1 & Hb & H).
  pose proof (ThompsonFacts.build_fragment_spec ast _ ThompsonFacts.inv_init) as Hspec.
  unfold post in Hspec. rewrite Hb in Hspec.
  destruct Hspec as (_ & _ & _ & _ & _ & _ & Hacc). simpl in Hacc.
  apply build_fragment_follows in Hb. unfold follows in Hb. simpl in Hb.
  destruct (layout ast 0) as [[[s a] k'] G].
  destruct Hb as (-> & Hk & Ht & Hinv & Hs & _ & Hd). simpl in *.
  apply bind_Ok_inv in H as ([] & e2 & H2 & H).
  apply on_nfa_inv in H2 as [H2 Hk2]. apply on_nfa_inv in H as [H Hk3].
  unfold modify in H2. injection H2 as H2.
  unfold set_start_flag, bind, get in H. rewrite <- H2 in H. simpl in H.
  destruct (states (nfa e1) !! state_name s) as [st|] eqn:Hst; [|done].
  unfold modify in H. injection H as H. rewrite <- H. simpl.
  split_and!; [done|set_solver|done| |].
  - eapply nfa_inv_same; [| | |apply Hinv, nfa_inv_new]; done.
  - intros q. rewrite dom_insert_L.
    assert (q ∈ {[state_name s]} ∪ dom (states (nfa e1)) ↔ q ∈ dom (states (nfa e1)))
      as -> by (apply elem_of_dom_2 in Hst; set_solver).
    rewrite Hd, Hk. set_solver.
Qed.

Lemma table_layout (n : EpsilonNFA) G q x t :
  nfa_inv n → transitions n = to_transition <$> G →
  t ∈ NFA.get_next_states n q x
  ↔ ∃ i j, (i, x, j) ∈ G ∧ q = state_name i ∧ t = state_name j.
Proof.
  intros [Htab _] Ht. rewrite Htab, Ht. setoid_rewrite list_elem_of_fmap. split.
  - intros (o & [[i x'] j] & [= -> -> -> ->] & Hin). by exists i, j.
  - intros (i & j & Hin & -> & ->). exists None, (i, x, j). done.
Qed.

Section paths.
Context (n : EpsilonNFA) (G : list edge).
Hypothesis Hinv : nfa_inv n.
Hypothesis Htrans : transitions n = to_transition <$> G.

Lemma epath_gpath q w r :
  epath n q w r → ∀ i, q = state_name i → Ch.epsilon ∉ w →
  ∃ j, r = state_name j ∧ gpath G (λ _, True) i w j.
Proof.
  induction 1 as [q|q t w r Hqt _ IH|q c t w r Hqt _ IH]; intros i -> Hw.
  - exists i. split; [done|constructor].
  - apply table_layout with (G := G) in Hqt as (i' & j' & Hin & Hi & ->); [|done..].
    apply ThompsonFacts.state_name_inj in Hi as <-.
    destruct (IH j' eq_refl Hw) as (j & -> & Hp). exists j. split; [done|].
    by eapply gpath_eps.
  - apply table_layout with (G := G) in Hqt as (i' & j' & Hin & Hi & ->); [|done..].
    apply ThompsonFacts.state_name_inj in Hi as <-.
    apply not_elem_of_cons in Hw as [Hc Hw].
    destruct (IH j' eq_refl Hw) as (j & -> & Hp). exists j. split; [done|].
    by eapply gpath_sym.
Qed.

Lemma gpath_epath ok i w j :
  gpath G ok i w j → epath n (state_name i) w (state_name j).
Proof.
  induction 1 as [i|i j w r _ Hin _ IH|i c j w r _ _ Hin _ IH].
  - constructor.
  - eapply epath_eps; [|exact IH]. unfold eps_step.
    apply (table_layout n G); [done..|]. by exists i, j.
  - eapply epath_cons; [|exact IH].
    apply (table_layout n G); [done..|]. by exists i, j.
Qed.
End paths.

Lemma gpath_sources G (ok ok' : nat → Prop) q w r :
  (∀ i x j, (i, x, j) ∈ G → ok' i) → gpath G ok q w r → gpath G ok' q w r.
Proof.
  intros HG. induction 1; [constructor|eapply gpath_eps|eapply gpath_sym]; eauto.
Qed.

Lemma accepts_matches ast e w :
  construct ast (mkEnv EpsilonNFA.new 0) = (Ok tt, e) →
  Ch.epsilon ∉ chars ast → Ch.epsilon ∉ w →
  ∃ b, EpsilonNFA.accepts (nfa e) w = Some b ∧ (b = true ↔ matches ast w).
Proof.
  intros Hc Hast Hw. apply construct_layout in Hc.
  pose proof (layout_wf_all ast 0) as Hwf. unfold layout_wf in Hwf.
  pose proof (layout_lang_all ast 0 Hast) as Hlang. unfold layout_lang in Hlang.
  destruct (layout ast 0) as [[[s a] k'] G].
  destruct Hc as (Hstart & Hacc & Htrans & Hinv & Hdom).
  destruct Hwf as (Hs & Ha & Hsa & HG).
  destruct (RunFacts.enfa_accepts_iff_epath (nfa e) w) as (b & Hb & Hiff).
  exists b. split; [done|]. rewrite Hiff, <- Hlang. split.
  - intros (q0 & r & Hq0 & Hp & Hr). rewrite Hstart in Hq0. injection Hq0 as <-.
    rewrite Hacc in Hr. apply elem_of_singleton in Hr as ->.
    destruct (epath_gpath _ G Hinv Htrans _ _ _ Hp s eq_refl Hw) as (j & Hj & Hg).
    apply ThompsonFacts.state_name_inj in Hj as <-.
    apply (stay_inside G (λ i, i ≠ a) (λ i, 0 < i ≤ k') a); [|done|lia|].
    + intros i x j _ _ Hin. apply HG in Hin. lia.
    + eapply gpath_sources; [|exact Hg]. intros i x j Hin. by apply HG in Hin as (_ & _ & ?).
  - intros Hg. exists (state_name s), (state_name a). split_and!; [done| |set_solver].
    by eapply gpath_epath.
Qed.
End ThompsonLangFacts.

Module ThompsonShapeFacts.
Import RegexSpec ThompsonLayout LayoutFacts LayoutLangFacts.
Import Thompson ThompsonLayoutSpec ThompsonLayoutFacts ThompsonLangFacts.
Import RunSpec ApiSpec ApiFacts ParserCharsFacts.

Lemma parsed_no_epsilon text ast :
  parse_regex text = Ok ast → Ch.epsilon ∉ chars ast.
Proof.
  intros H%parse_regex_plain Hin. unfold ParserCharsSpec.plain in H.
  rewrite Forall_forall in H. destruct (H _ Hin) as [_ Hn]. apply Hn. set_solver.
Qed.

Lemma validate_transitions_true {X} (a : Automaton X) l :
  (validate_transitions a l).1 = true → validate_transitions a l = (true, Valid).
Proof.
  induction l as [|trans l IH]; simpl; [done|]. by repeat case_bool_decide.
Qed.

Lemma validate_true {X} (a : Automaton X) :
  (validate a).1 = true → validate a = (true, Valid).
Proof.
  unfold validate. case_bool_decide; [done|].
  destruct (start_state a); [|done]. case_bool_decide; [done|].
  apply validate_transitions_true.
Qed.

Lemma names_size (D : gset str) k :
  (∀ q, q ∈ D ↔ ∃ j, 0 < j ≤ k ∧ q = state_name j) → size D = k.
Proof.
  intros HD.
  assert (D = list_to_set (state_name <$> seq 1 k)) as ->.
  { apply set_eq. intros q. rewrite HD, elem_of_list_to_set, list_elem_of_fmap.
    setoid_rewrite elem_of_seq. split.
    - intros (j & ? & ->). exists j. split; [done|lia].
    - intros (j & -> & ?). exists j. split; [lia|done]. }
  rewrite size_list_to_set.
  - by rewrite length_fmap, length_seq.
  - apply NoDup_fmap; [apply ThompsonFacts.state_name_inj|apply NoDup_seq].
Qed.

Lemma layout_symbols node k x :
  x ≠ EPS →
  (∃ i j, (i, x, j) ∈ (layout node k).2) ↔ ∃ c, c ∈ chars node ∧ x = [c].
Proof.
  intros Hx. revert k.
  induction node as [value| |l IHl r IHr|l IHl r IHr|l IHl|l IHl]; intros k; simpl.
  - set_unfold. naive_solver.
  - set_unfold. naive_solver.
  - specialize (IHl k). destruct (layout l k) as [[[s1 a1] k1] g1].
    specialize (IHr k1). destruct (layout r k1) as [[[s2 a2] k2] g2].
    simpl in *. set_unfold. naive_solver.
  - specialize (IHl k). destruct (layout l k) as [[[s1 a1] k1] g1].
    specialize (IHr k1). destruct (layout r k1) as [[[s2 a2] k2] g2].
    simpl in *. set_unfold. naive_solver.
  - specialize (IHl k). destruct (layout l k) as [[[s1 a1] k1] g1].
    simpl in *. set_unfold. naive_solver.
  - specialize (IHl k). destruct (layout l k) as [[[s1 a1] k1] g1].
    simpl in *. set_unfold. naive_solver.
Qed.

End ThompsonShapeFacts.

Module NestedFacts.

Lemma nested_lookup (l : list (str * str * str)) (acc : gmap str (gmap str str)) q s :
  NoDup l.*1 →
  foldl (λ result '((from_state, symbol), to_state),
           <[from_state := <[symbol := to_state]> (default ∅ (result !! from_state))]> result)
        acc l !! q ≫= (.!! s)
  = match (list_to_map l : gmap (str * str) str) !! (q, s) with
    | Some t => Some t
    | None => acc !! q ≫= (.!! s)
    end.
Proof.
  revert acc. induction l as [|[[f x] t] l IH]; intros acc Hnd; [done|].
  rewrite fmap_cons in Hnd. apply NoDup_cons in Hnd as [Hnotin Hnd]. simpl in Hnotin.
  cbn [foldl]. rewrite IH by done. cbn [list_to_map foldr uncurry].
  destruct (decide ((f, x) = (q, s))) as [[= -> ->]|Hne]; simpl.
  - rewrite (not_elem_of_list_to_map_1 (M:=gmap (str*str)) _ _ Hnotin).
    rewrite !lookup_insert_eq. simpl. by rewrite lookup_insert_eq.
  - rewrite (lookup_insert_ne (list_to_map l)) by done.
    destruct (list_to_map l !! (q, s)); [done|].
    destruct (decide (f = q)) as [->|Hfq].
    + rewrite lookup_insert_eq. simpl. rewrite lookup_insert_ne by congruence.
      by destruct (acc !! q).
    + by rewrite lookup_insert_ne.
Qed.

Lemma nested_table (table : gmap (str * str) str) q s :
  foldl (λ result '((from_state, symbol), to_state),
           <[from_state := <[symbol := to_state]> (default ∅ (result !! from_state))]> result)
        (∅ : gmap str (gmap str str)) (map_to_list table) !! q ≫= (.!! s)
  = table !! (q, s).
Proof.
  rewrite nested_lookup by apply NoDup_fst_map_to_list.
  rewrite list_to_map_to_list. rewrite lookup_empty. simpl.
  by destruct (table !! (q, s)).
Qed.

End NestedFacts.

Module OutputFacts.
Import ApiSpec ApiFacts OutputSpec.

Lemma mealy_built_out m : mealy_built m → mealy_out_inv m.
Proof.
  induction 1 as [|m name acc st _ IH|m f t s o _ IH].
  - intros q s t o. simpl. by rewrite lookup_empty.
  - destruct (add_state_fields name acc st m) as (_ & _ & Ho & _).
    unfold mealy_out_inv. by rewrite Ho.
  - unfold MealyMachine.add_transition. destruct o as [out|]; [|done].
    unfold bind. rewrite add_transition_fields. simpl.
    intros q s' t' o'. simpl. rewrite lookup_insert. case_decide.
    + intros [= <- <-]. set_solver.
    + intros Hin%IH. set_solver.
Qed.

Lemma mealy_process_from_alphabet (m : MealyMachine) q outs w :
  mealy_out_inv m →
  Forall (λ o, o ∈ mealy_output_alphabet (own m)) outs →
  Forall (λ o, o ∈ mealy_output_alphabet (own m))
         (MealyMachine.process_from m q outs w).2.
Proof.
  intros Hinv. revert q outs. induction w as [|c w IH]; intros q outs Houts; simpl;
    [done|].
  destruct (MealyMachine.get_next_state_and_output m q [c]) as [[t o]|] eqn:Ht;
    simpl; [|done].
  apply IH. apply Forall_app. split; [done|]. apply Forall_singleton.
  by eapply Hinv.
Qed.

Lemma moore_built_out m : moore_built m → moore_out_inv m.
Proof.
  induction 1 as [|m name acc st _ IH|m q out _ IH|m f t s o _ IH].
  - intros q o. simpl. by rewrite lookup_empty.
  - destruct (add_state_fields name acc st m) as (_ & _ & Ho & _).
    unfold moore_out_inv. by rewrite Ho.
  - unfold MooreMachine.set_state_output, bind, get. simpl.
    case_bool_decide as Hq; [done|]. intros q' o'. simpl.
    rewrite lookup_insert. case_decide.
    + intros [= <-]. set_solver.
    + intros Hin%IH. set_solver.
  - unfold MooreMachine.add_transition, bind. rewrite add_transition_fields. done.
Qed.

Lemma check_outputs_ok (m : MooreMachine) l :
  (MooreMachine.check_outputs m l).1 = true
  ↔ ∀ q, q ∈ l → q ∈ dom (state_outputs (own m)).
Proof.
  induction l as [|q l IH]; simpl.
  - split; [|done]. intros _ q Hq. by apply elem_of_nil in Hq.
  - setoid_rewrite elem_of_cons. case_bool_decide as Hq; simpl.
    + split; [done|]. intros Hall. destruct Hq. apply Hall. by left.
    + rewrite IH. naive_solver.
Qed.

Lemma moore_validate_ok (m : MooreMachine) :
  (MooreMachine.validate m).1 = true
  ↔ (validate m).1 = true ∧ dom (states m) ⊆ dom (state_outputs (own m)).
Proof.
  unfold MooreMachine.validate. destruct (validate m) as [[] msg]; simpl.
  - rewrite check_outputs_ok. setoid_rewrite elem_of_elements. set_solver.
  - naive_solver.
Qed.

Lemma moore_process_from_alphabet (m : MooreMachine) q outs w :
  moore_out_inv m →
  (∀ q s t, MooreMachine.get_next_state m q s = Some t →
            t ∈ dom (state_outputs (own m))) →
  Forall (λ o, o ∈ moore_output_alphabet (own m)) outs →
  Forall (λ o, o ∈ moore_output_alphabet (own m))
         (MooreMachine.process_from m q outs w).2.
Proof.
  intros Hinv Htab. revert q outs. induction w as [|c w IH]; intros q outs Houts;
    simpl; [done|].
  destruct (MooreMachine.get_next_state m q [c]) as [t|] eqn:Ht; simpl; [|done].
  apply IH. apply Forall_app. split; [done|]. apply Forall_singleton.
  apply Htab in Ht. apply elem_of_dom in Ht as [o Ho].
  unfold MooreMachine.output_of. rewrite Ho. simpl. by eapply Hinv.
Qed.

Lemma last_for_elem l q s trans :
  last_for l q s = Some trans → trans ∈ l.
Proof.
  unfold last_for. intros H%last_Some_elem_of.
  by apply list_elem_of_filter in H as [_ ?].
Qed.

(** *** The alphabets of a PDA *)

Lemma label_not_eps trans : label trans ≠ EPS.
Proof.
  unfold label, EPS. intros H%(f_equal length).
  rewrite !length_app in H. simpl in H. lia.
Qed.

Lemma foldl_stack_alphabet (l : list str) (A : gset str) x :
  x ∈ foldl (λ acc symbol, if bool_decide (symbol ≠ EPS) then acc ∪ {[symbol]} else acc)
            A l
  ↔ x ∈ A ∨ (x ∈ l ∧ x ≠ EPS).
Proof.
  revert A. induction l as [|y l IH]; intros A; simpl.
  - split; [by left|]. intros [?|[Hin _]]; [done|]. by apply elem_of_nil in Hin.
  - rewrite IH. setoid_rewrite elem_of_cons. case_bool_decide; set_solver.
Qed.

Lemma add_pda_transition_fields f t i pop push (p : PDA) :
  PDA.add_pda_transition f t i pop push p
  = (Ok tt,
     mkAutomaton (states p)
       ((if bool_decide (i ≠ EPS) then alphabet p ∪ {[i]} else alphabet p)
        ∪ {[label (mkPDATransition f t i pop push)]})
       (start_state p) (accept_states p)
       (transitions p ++ [base_transition (mkPDATransition f t i pop push)])
       (mkPDAFields
          (foldl (λ acc symbol, if bool_decide (symbol ≠ EPS)
                                then acc ∪ {[symbol]} else acc)
                 (stack_alphabet (own p) ∪ {[pop]}) push)
          (start_stack_symbol (own p))
          (_pda_transitions (own p) ++ [mkPDATransition f t i pop push]))).
Proof.
  pose proof (label_not_eps (mkPDATransition f t i pop push)) as Hl.
  unfold label in Hl. simpl in Hl.
  unfold PDA.add_pda_transition, Automaton.add_transition, bind, modify, ret.
  repeat case_bool_decide; simpl; done.
Qed.

(** *** Traces of sets of states *)

Lemma final_states_cons X S c S' trace :
  final_states X ((S, c, S') :: trace) = final_states S' trace.
Proof.
  unfold final_states. destruct trace as [|step trace]; [done|].
  rewrite last_cons_cons.
  destruct (last (step :: trace)) eqn:Hl; [done|]. by apply last_None in Hl.
Qed.

Lemma nfa_accepts_from_trace (n : NFA) X w :
  NFA.accepts_from n X w = true
  ↔ length (NFA.steps_from n X w) = length w
    ∧ Forall (λ step, step.2 ≠ ∅) (NFA.steps_from n X w)
    ∧ final_states X (NFA.steps_from n X w) ∩ accept_states n ≠ ∅.
Proof.
  revert X. induction w as [|c w IH]; intros X; simpl.
  - rewrite bool_decide_eq_true. unfold final_states. simpl. naive_solver.
  - rewrite final_states_cons, Forall_cons. simpl. case_bool_decide as He.
    + split; [done|]. by intros (_ & [? _] & _).
    + rewrite IH. naive_solver.
Qed.

Lemma closure_extensive (e : EpsilonNFA) X C :
  EpsilonNFA.epsilon_closure e X = Some C → X ⊆ C.
Proof.
  intros [_ HC]%RunFacts.epsilon_closure_closed q Hq. apply HC.
  exists q. split; [done|constructor].
Qed.

Lemma closure_empty (e : EpsilonNFA) C :
  EpsilonNFA.epsilon_closure e ∅ = Some C → C = ∅.
Proof.
  intros [_ HC]%RunFacts.epsilon_closure_closed. apply set_eq. intros q.
  rewrite HC. set_solver.
Qed.

Lemma enfa_accepts_from_trace (e : EpsilonNFA) X w :
  ∃ b trace,
    EpsilonNFA.accepts_from e X w = Some b
    ∧ EpsilonNFA.steps_from e X w = Some trace
    ∧ (b = true
       ↔ length trace = length w
         ∧ Forall (λ step, step.2 ≠ ∅) trace
         ∧ final_states X trace ∩ accept_states e ≠ ∅).
Proof.
  revert X. induction w as [|c w IH]; intros X; simpl.
  - eexists _, []. split_and!; [done|done|].
    rewrite bool_decide_eq_true. unfold final_states. simpl. naive_solver.
  - destruct (EpsilonNFAFacts.epsilon_closure_total e (NFA.move e X [c])) as [C HC].
    rewrite HC. case_bool_decide as He.
    + rewrite He in HC. apply closure_empty in HC as ->.
      rewrite bool_decide_eq_true_2 by done.
      eexists false, _. split_and!; [done|done|]. split; [done|].
      intros (_ & [Hne _]%Forall_cons & _). done.
    + assert (C ≠ ∅) as HCne.
      { apply closure_extensive in HC. set_solver. }
      rewrite bool_decide_eq_false_2 by done.
      destruct (IH C) as (b & trace & Hb & Ht & Hiff). rewrite Hb, Ht. simpl.
      exists b, ((X, [c], C) :: trace). split_and!; [done|done|].
      rewrite Hiff, final_states_cons, Forall_cons. simpl. naive_solver.
Qed.

End OutputFacts.

(* ================================================================= *)
(** * Further properties *)

Import RegexSpec ParserCharsSpec ApiSpec RunSpec SimSpec PDARunSpec.
Import ThompsonLayout OutputSpec.

(** The machines of the test suite are built through the public methods. *)
Lemma dfa_minimal_built : dfa_built Tests.dfa_minimal.
Proof.
  change Tests.dfa_minimal with
    (snd (DFA.add_transition (py "q1") (py "q0") (py "a") None
      (snd (DFA.add_transition (py "q0") (py "q1") (py "a") None
        (snd (add_state (py "q1") true false
          (snd (add_state (py "q0") false true DFA.new)))))))).
  repeat constructor.
Qed.

Lemma nfa_simple_built : nfa_built Tests.nfa_simple.
Proof.
  change Tests.nfa_simple with
    (snd (NFA.add_transition (py "q1") (py "q2") (py "a") None
      (snd (NFA.add_transition (py "q0") (py "q1") (py "b") None
        (snd (NFA.add_transition (py "q0") (py "q1") (py "a") None
          (snd (add_state (py "q2") true false
            (snd (add_state (py "q1") false false
              (snd (add_state (py "q0") false true NFA.new)))))))))))).
  repeat constructor.
Qed.

Lemma mealy_roundtrip_built : mealy_built Tests.mealy_roundtrip.
Proof.
  change Tests.mealy_roundtrip with
    (snd (MealyMachine.add_transition (py "S1") (py "S0") (py "b") (Some (py "1"))
      (snd (MealyMachine.add_transition (py "S0") (py "S1") (py "a") (Some (py "0"))
        (snd (add_state (py "S1") false false
          (snd (add_state (py "S0") false true MealyMachine.new)))))))).
  repeat constructor.
Qed.

Lemma moore_simple_built : moore_built Tests.moore_simple.
Proof.
  change Tests.moore_simple with
    (snd (MooreMachine.add_transition (py "B") (py "A") (py "0") None
      (snd (MooreMachine.add_transition (py "A") (py "B") (py "0") None
        (snd (MooreMachine.set_state_output (py "B") (py "y")
          (snd (MooreMachine.set_state_output (py "A") (py "x")
            (snd (add_state (py "B") false false
              (snd (add_state (py "A") false true MooreMachine.new)))))))))))).
  repeat constructor.
Qed.

Lemma push_loop_built : pda_built PDASpec.push_loop.
Proof.
  change PDASpec.push_loop with
    (snd (PDA.add_pda_transition (py "q0") (py "q0") EPS (py "Z") [py "Z"; py "Z"]
      (snd (add_state (py "q0") false true PDA.new)))).
  repeat constructor.
Qed.

(** ** The regex parser *)

(** X1.  Spaces in a regex are insignificant wherever they stand:
    [parse_regex] answers on a text as on the text with its spaces
    removed, also when nothing but spaces is there. *)
Theorem parse_regex_skips_spaces (text : str) :
  parse_regex text = parse_regex (filter (λ c, c ≠ Ch.space) text).
Proof.
  unfold parse_regex.
  assert (Parser.init (filter (λ c, c ≠ Ch.space) text) = Parser.init text) as Hinit.
  { unfold Parser.init. f_equal. rewrite list_filter_filter.
    apply list_filter_iff. tauto. }
  destruct text as [|c text]; [done|].
  destruct (filter (λ c, c ≠ Ch.space) (c :: text)) as [|c' text'] eqn:Hf.
  - unfold Parser.init. rewrite Hf. done.
  - by rewrite Hinit.
Qed.

(** X2.  The [CHAR] nodes of a parsed AST hold characters of the text, and
    never a space, a parenthesis, ['|'], ['*'], ['+'] or ['ε']. *)
Theorem parse_regex_char_values (text : str) (ast : RegexNode) :
  parse_regex text = Ok ast →
  Forall (λ c, c ∈ text
            ∧ c ∉ [Ch.space; Ch.lparen; Ch.rparen; Ch.bar; Ch.star; Ch.plus;
                   Ch.epsilon])
         (chars ast).
Proof.
  intros H%ParserCharsFacts.parse_regex_plain.
  eapply Forall_impl; [exact H|]. intros c [Hin Hn].
  unfold Parser.init in Hin. simpl in Hin.
  apply list_elem_of_filter in Hin as [Hsp Hin].
  split; [done|]. rewrite not_elem_of_cons. done.
Qed.

Lemma parse_regex_char_values_witness :
  Forall (λ c, c ∈ py "a|b"
            ∧ c ∉ [Ch.space; Ch.lparen; Ch.rparen; Ch.bar; Ch.star; Ch.plus;
                   Ch.epsilon])
         (chars (OR (CHAR 97%N) (CHAR 98%N))).
Proof. apply (parse_regex_char_values (py "a|b")). reflexivity. Defined.

(** ** Automata built through the public methods *)

(** X3.  In a DFA built by [add_state] and [add_transition] calls, also
    failed ones, the transition table and the transitions list agree:
    [get_next_state(q, s)] is [t] exactly when the list holds a transition
    from [q] to [t] on [s]. *)
Theorem dfa_table_matches_transitions (d : DFA) :
  dfa_built d →
  ∀ q s t, DFA.get_next_state d q s = Some t
           ↔ ∃ o, mkTransition q t s o ∈ transitions d.
Proof. intros Hd. apply (ApiFacts.dfa_built_inv d Hd). Qed.

Lemma dfa_table_matches_transitions_witness :
  DFA.get_next_state Tests.dfa_minimal (py "q0") (py "a") = Some (py "q1")
  ↔ ∃ o, mkTransition (py "q0") (py "q1") (py "a") o
         ∈ transitions Tests.dfa_minimal.
Proof.
  apply (dfa_table_matches_transitions Tests.dfa_minimal). apply dfa_minimal_built.
Defined.

(** X4.  For a DFA built through the public methods the determinism check
    of [DFA.validate] never fails: the verdict is that of
    [Automaton.validate], with the message ["Valid DFA"] on success. *)
Theorem dfa_validate_passes_determinism (d : DFA) :
  dfa_built d →
  DFA.validate d = if (validate d).1 then (true, ValidDFA) else validate d.
Proof.
  intros (_ & Hnd & _)%ApiFacts.dfa_built_inv. unfold DFA.validate.
  destruct (validate d) as [[] msg]; simpl; [|done].
  apply ApiFacts.check_determinism_ok; [done|].
  intros k _. apply not_elem_of_empty.
Qed.

Lemma dfa_validate_passes_determinism_witness :
  DFA.validate Tests.dfa_minimal
  = if (validate Tests.dfa_minimal).1 then (true, ValidDFA)
    else validate Tests.dfa_minimal.
Proof.
  apply (dfa_validate_passes_determinism Tests.dfa_minimal). apply dfa_minimal_built.
Defined.

(** X5.  In an NFA built through the public methods the table and the
    transitions list agree, [get_all_epsilon_transitions] lists the pairs
    the table relates by ['ε'], and the alphabet is the set of the symbols
    on the transitions other than ['ε']. *)
Theorem nfa_table_matches_transitions (n : NFA) :
  nfa_built n →
  (∀ q s t, t ∈ NFA.get_next_states n q s
            ↔ ∃ o, mkTransition q t s o ∈ transitions n)
  ∧ (∀ q t, (q, t) ∈ EpsilonNFA.get_all_epsilon_transitions n
            ↔ t ∈ NFA.get_next_states n q EPS)
  ∧ (∀ s, s ∈ alphabet n
          ↔ s ≠ EPS ∧ ∃ trans, trans ∈ transitions n ∧ symbol trans = s).
Proof.
  intros [H1 H2]%ApiFacts.nfa_built_inv. split_and!; [done|..].
  - intros q t. rewrite H1. unfold EpsilonNFA.get_all_epsilon_transitions.
    rewrite list_elem_of_fmap. split.
    + intros ([q' t' s' o'] & [= <- <-] & [Hs Hin]%list_elem_of_filter).
      simpl in Hs. subst s'. by exists o'.
    + intros [o Hin]. exists (mkTransition q t EPS o). split; [done|].
      by apply list_elem_of_filter.
  - intros s. rewrite H2. unfold symbols.
    rewrite elem_of_list_to_set, list_elem_of_filter, list_elem_of_fmap.
    naive_solver.
Qed.

Lemma nfa_table_matches_transitions_witness :
  (∀ q s t, t ∈ NFA.get_next_states Tests.nfa_simple q s
            ↔ ∃ o, mkTransition q t s o ∈ transitions Tests.nfa_simple)
  ∧ (∀ q t, (q, t) ∈ EpsilonNFA.get_all_epsilon_transitions Tests.nfa_simple
            ↔ t ∈ NFA.get_next_states Tests.nfa_simple q EPS)
  ∧ (∀ s, s ∈ alphabet Tests.nfa_simple
          ↔ s ≠ EPS
            ∧ ∃ trans, trans ∈ transitions Tests.nfa_simple ∧ symbol trans = s).
Proof.
  apply (nfa_table_matches_transitions Tests.nfa_simple). apply nfa_simple_built.
Defined.

(** X6.  [MealyMachine.add_transition] does not refuse a second transition
    for a state and symbol.  On a machine built through the public methods
    a call with an output returns normally, appends the transition to the
    transitions list, where the transition the table held for that state
    and symbol stays, and overwrites the table entry, which
    [get_next_state_and_output] and [process_input] follow; the other table
    entries stay.  In every such machine the table holds, for a state and
    symbol, the transition listed last for them. *)
Theorem mealy_table_keeps_last (m : MealyMachine) (f t s o : str) :
  mealy_built m →
  let call := MealyMachine.add_transition f t s (Some o) m in
  (∀ q s' t' o',
     MealyMachine.get_next_state_and_output m q s' = Some (t', o')
     ↔ last_for (transitions m) q s' = Some (mkTransition q t' s' (Some o')))
  ∧ call.1 = Ok tt
  ∧ transitions call.2 = transitions m ++ [mkTransition f t s (Some o)]
  ∧ MealyMachine.get_next_state_and_output call.2 f s = Some (t, o)
  ∧ (∀ q s', (q, s') ≠ (f, s) →
       MealyMachine.get_next_state_and_output call.2 q s'
       = MealyMachine.get_next_state_and_output m q s')
  ∧ (∀ t0 o0, MealyMachine.get_next_state_and_output m f s = Some (t0, o0) →
       mkTransition f t0 s (Some o0) ∈ transitions call.2)
  ∧ (∀ c, s = [c] → start_state m = Some f →
       MealyMachine.process_input call.2 [c] = (true, [o])).
Proof.
  intros Hm call.
  assert (mealy_inv m) as Hinv.
  { clear call. induction Hm as [|m name acc st _ IH|m f' t' s' o' _ IH].
    - intros q s0 t0 o0. unfold MealyMachine.get_next_state_and_output. simpl.
      by rewrite lookup_empty.
    - destruct (ApiFacts.add_state_fields name acc st m) as (Ht & Ha & Ho & _).
      unfold mealy_inv, MealyMachine.get_next_state_and_output. by rewrite Ht, Ho.
    - unfold MealyMachine.add_transition. destruct o' as [out|]; [|done].
      unfold bind. rewrite ApiFacts.add_transition_fields. simpl.
      intros q s0 t0 o0. unfold MealyMachine.get_next_state_and_output. simpl.
      rewrite ApiFacts.last_for_snoc. unfold key at 1. simpl.
      destruct (decide ((f', s') = (q, s0))) as [[= <- <-]|Hne].
      + rewrite lookup_insert_eq. naive_solver.
      + rewrite lookup_insert_ne by done. apply IH. }
  subst call. unfold MealyMachine.add_transition, bind.
  rewrite ApiFacts.add_transition_fields.
  unfold MealyMachine.process_input, MealyMachine.get_next_state_and_output.
  simpl. split_and!; try done.
  - by rewrite lookup_insert_eq.
  - intros q s' Hne. by rewrite lookup_insert_ne.
  - intros t0 o0 Ht0%Hinv%OutputFacts.last_for_elem. apply elem_of_app. by left.
  - intros c -> ->. simpl. unfold MealyMachine.get_next_state_and_output. simpl.
    by rewrite lookup_insert_eq.
Qed.

Lemma mealy_table_keeps_last_witness :
  (MealyMachine.add_transition (py "S0") (py "S0") (py "a") (Some (py "1"))
     Tests.mealy_roundtrip).1 = Ok tt
  ∧ mkTransition (py "S0") (py "S1") (py "a") (Some (py "0"))
    ∈ transitions
        (MealyMachine.add_transition (py "S0") (py "S0") (py "a") (Some (py "1"))
           Tests.mealy_roundtrip).2
  ∧ MealyMachine.get_next_state_and_output
      (MealyMachine.add_transition (py "S0") (py "S0") (py "a") (Some (py "1"))
         Tests.mealy_roundtrip).2 (py "S0") (py "a")
    = Some (py "S0", py "1")
  ∧ MealyMachine.process_input
      (MealyMachine.add_transition (py "S0") (py "S0") (py "a") (Some (py "1"))
         Tests.mealy_roundtrip).2 (py "a")
    = (true, [py "1"]).
Proof.
  destruct (mealy_table_keeps_last Tests.mealy_roundtrip
              (py "S0") (py "S0") (py "a") (py "1") mealy_roundtrip_built)
    as (_ & H1 & _ & H3 & _ & H5 & H6).
  split_and!; [exact H1| |exact H3|].
  - apply (H5 (py "S1") (py "0")). reflexivity.
  - apply (H6 97%N); reflexivity.
Defined.

(** X7.  [MooreMachine.add_transition] likewise accepts a second
    transition for a state and symbol: the call returns normally, appends
    the transition to the transitions list without the output it is given,
    leaves the outputs of the states as they are, and overwrites the table
    entry, which [get_next_state] and [process_input] follow.  In every
    machine built through the public methods the table holds the transition
    listed last for a state and symbol, and only states of the machine have
    an output. *)
Theorem moore_table_keeps_last (m : MooreMachine) (f t s : str) (o : option str) :
  moore_built m →
  let call := MooreMachine.add_transition f t s o m in
  ((∀ q s' t', MooreMachine.get_next_state m q s' = Some t'
               ↔ last_for (transitions m) q s' = Some (mkTransition q t' s' None))
   ∧ dom (state_outputs (own m)) ⊆ dom (states m))
  ∧ call.1 = Ok tt
  ∧ transitions call.2 = transitions m ++ [mkTransition f t s None]
  ∧ MooreMachine.get_next_state call.2 f s = Some t
  ∧ (∀ q s', (q, s') ≠ (f, s) →
       MooreMachine.get_next_state call.2 q s' = MooreMachine.get_next_state m q s')
  ∧ (∀ t0, MooreMachine.get_next_state m f s = Some t0 →
       mkTransition f t0 s None ∈ transitions call.2)
  ∧ state_outputs (own call.2) = state_outputs (own m)
  ∧ moore_output_alphabet (own call.2) = moore_output_alphabet (own m)
  ∧ (∀ c, s = [c] → start_state m = Some f →
       MooreMachine.process_input call.2 [c]
       = (true, [MooreMachine.output_of m f; MooreMachine.output_of m t])).
Proof.
  intros Hm call.
  pose proof (ApiFacts.moore_built_inv m Hm) as [Hinv Hdom].
  subst call. unfold MooreMachine.add_transition, bind.
  rewrite ApiFacts.add_transition_fields.
  unfold MooreMachine.process_input, MooreMachine.get_next_state.
  simpl. split_and!; try done.
  - by rewrite lookup_insert_eq.
  - intros q s' Hne. by rewrite lookup_insert_ne.
  - intros t0 Ht0%Hinv%OutputFacts.last_for_elem. apply elem_of_app. by left.
  - intros c -> ->. simpl. unfold MooreMachine.get_next_state. simpl.
    by rewrite lookup_insert_eq.
Qed.

Lemma moore_table_keeps_last_witness :
  (MooreMachine.add_transition (py "A") (py "A") (py "0") (Some (py "z"))
     Tests.moore_simple).1 = Ok tt
  ∧ transitions
      (MooreMachine.add_transition (py "A") (py "A") (py "0") (Some (py "z"))
         Tests.moore_simple).2
    = transitions Tests.moore_simple
      ++ [mkTransition (py "A") (py "A") (py "0") None]
  ∧ mkTransition (py "A") (py "B") (py "0") None
    ∈ transitions
        (MooreMachine.add_transition (py "A") (py "A") (py "0") (Some (py "z"))
           Tests.moore_simple).2
  ∧ MooreMachine.get_next_state
      (MooreMachine.add_transition (py "A") (py "A") (py "0") (Some (py "z"))
         Tests.moore_simple).2 (py "A") (py "0")
    = Some (py "A")
  ∧ MooreMachine.process_input
      (MooreMachine.add_transition (py "A") (py "A") (py "0") (Some (py "z"))
         Tests.moore_simple).2 (py "0")
    = (true, [py "x"; py "x"]).
Proof.
  destruct (moore_table_keeps_last Tests.moore_simple
              (py "A") (py "A") (py "0") (Some (py "z")) moore_simple_built)
    as (_ & H1 & H2 & H3 & _ & H5 & _ & _ & H8).
  split_and!; [exact H1|exact H2| |exact H3|].
  - apply (H5 (py "B")). reflexivity.
  - apply (H8 48%N); reflexivity.
Defined.

(** X8.  The nested dictionary of [get_transition_function] answers as the
    flat table does, for a DFA and for a Moore machine. *)
Theorem transition_function_lookup (d : DFA) (m : MooreMachine) (q s : str) :
  DFA.get_transition_function d !! q ≫= (.!! s) = DFA.get_next_state d q s
  ∧ MooreMachine.get_transition_function m !! q ≫= (.!! s)
    = MooreMachine.get_next_state m q s.
Proof. split; apply NestedFacts.nested_table. Qed.

(** X9.  The outputs of a Mealy machine built through the public methods
    are in its output alphabet, whether [process_input] succeeds or
    not. *)
Theorem mealy_outputs_in_alphabet (m : MealyMachine) (w : str) :
  mealy_built m →
  Forall (λ o, o ∈ mealy_output_alphabet (own m)) (MealyMachine.process_input m w).2.
Proof.
  intros Hm%OutputFacts.mealy_built_out. unfold MealyMachine.process_input.
  destruct (start_state m); [|constructor].
  apply OutputFacts.mealy_process_from_alphabet; [done|constructor].
Qed.

Lemma mealy_outputs_in_alphabet_witness :
  Forall (λ o, o ∈ mealy_output_alphabet (own Tests.mealy_roundtrip))
         (MealyMachine.process_input Tests.mealy_roundtrip (py "ab")).2.
Proof.
  apply (mealy_outputs_in_alphabet Tests.mealy_roundtrip (py "ab")).
  apply mealy_roundtrip_built.
Defined.

(** X10.  A Moore machine built through the public methods that passes
    [validate] only emits outputs of its output alphabet: the default
    [""] of a state without output never shows. *)
Theorem moore_outputs_in_alphabet (m : MooreMachine) (w : str) :
  moore_built m → (MooreMachine.validate m).1 = true →
  Forall (λ o, o ∈ moore_output_alphabet (own m)) (MooreMachine.process_input m w).2.
Proof.
  intros Hm [Hv Hout]%OutputFacts.moore_validate_ok.
  pose proof (OutputFacts.moore_built_out m Hm) as Hinv.
  apply ApiFacts.moore_built_inv in Hm as [Htab _].
  apply SimFacts.validate_ok in Hv as (_ & (q0 & Hq0 & Hq0s) & Htr).
  unfold MooreMachine.process_input. rewrite Hq0.
  apply OutputFacts.moore_process_from_alphabet; [done| |].
  - intros q s t Ht%Htab%OutputFacts.last_for_elem. apply Hout.
    by destruct (Htr _ Ht) as [_ ?].
  - apply Forall_singleton. apply Hout, elem_of_dom in Hq0s as [o Ho].
    unfold MooreMachine.output_of. rewrite Ho. simpl. by eapply Hinv.
Qed.

Lemma moore_outputs_in_alphabet_witness :
  Forall (λ o, o ∈ moore_output_alphabet (own Tests.moore_simple))
         (MooreMachine.process_input Tests.moore_simple (py "00")).2.
Proof.
  apply (moore_outputs_in_alphabet Tests.moore_simple (py "00")).
  - apply moore_simple_built.
  - reflexivity.
Defined.

(** X11.  [PDA.add_pda_transition] files every transition in the base
    class under its display label, and [Automaton.add_transition] takes
    the label for an input symbol: the input alphabet of a PDA holds the
    label of each of its transitions, besides their input symbols. *)
Theorem pda_alphabet_holds_labels (p : PDA) :
  pda_built p →
  transitions p = base_transition <$> _pda_transitions (own p)
  ∧ ∀ trans, trans ∈ _pda_transitions (own p) →
      label trans ∈ alphabet p
      ∧ (input_symbol trans ≠ EPS → input_symbol trans ∈ alphabet p)
      ∧ stack_pop trans ∈ stack_alphabet (own p)
      ∧ ∀ x, x ∈ stack_push trans → x ≠ EPS → x ∈ stack_alphabet (own p).
Proof.
  intros Hp. change (pda_inv p).
  induction Hp as [|p name acc st _ [IH1 IH2]|p f t i pop push _ [IH1 IH2]].
  - split; [done|]. intros trans Hin. by apply elem_of_nil in Hin.
  - destruct (ApiFacts.add_state_fields name acc st p) as (Ht & Ha & Ho & _).
    unfold pda_inv. by rewrite Ht, Ha, Ho.
  - rewrite OutputFacts.add_pda_transition_fields.
    set (new := mkPDATransition f t i pop push).
    split; simpl.
    + by rewrite fmap_app, IH1.
    + intros trans [Hin| ->%list_elem_of_singleton]%elem_of_app.
      * destruct (IH2 trans Hin) as (H1 & H2 & H3 & H4). split_and!.
        -- case_bool_decide; set_solver.
        -- intros Hne. specialize (H2 Hne). case_bool_decide; set_solver.
        -- apply OutputFacts.foldl_stack_alphabet. left. set_solver.
        -- intros x Hx Hne. apply OutputFacts.foldl_stack_alphabet. left.
           specialize (H4 x Hx Hne). set_solver.
      * split_and!.
        -- set_solver.
        -- simpl. intros Hne. rewrite bool_decide_eq_true_2 by done. set_solver.
        -- apply OutputFacts.foldl_stack_alphabet. left. set_solver.
        -- simpl. intros x Hx Hne. apply OutputFacts.foldl_stack_alphabet. by right.
Qed.

Lemma pda_alphabet_holds_labels_witness :
  transitions PDASpec.push_loop
  = base_transition <$> _pda_transitions (own PDASpec.push_loop)
  ∧ ∀ trans, trans ∈ _pda_transitions (own PDASpec.push_loop) →
      label trans ∈ alphabet PDASpec.push_loop
      ∧ (input_symbol trans ≠ EPS → input_symbol trans ∈ alphabet PDASpec.push_loop)
      ∧ stack_pop trans ∈ stack_alphabet (own PDASpec.push_loop)
      ∧ ∀ x, x ∈ stack_push trans → x ≠ EPS
             → x ∈ stack_alphabet (own PDASpec.push_loop).
Proof.
  apply (pda_alphabet_holds_labels PDASpec.push_loop). apply push_loop_built.
Defined.

(** ** Acceptance *)

(** X12.  [NFA.accepts] answers [True] exactly when some walk along the
    table from the start state reads the input and ends in an accept
    state. *)
Theorem nfa_accepts_by_path (self : NFA) (w : str) :
  NFA.accepts self w = true
  ↔ ∃ q0 r, start_state self = Some q0 ∧ path self q0 w r
            ∧ r ∈ accept_states self.
Proof.
  unfold NFA.accepts. destruct (start_state self) as [q0|].
  - rewrite RunFacts.nfa_accepts_from_path. split.
    + intros (q & r & Hq%elem_of_singleton & ?). subst q. by exists q0, r.
    + intros (q & r & [= ->] & ?). exists q, r. split; [set_solver|done].
  - split; [done|]. by intros (? & ? & ? & _).
Qed.

(** X13.  [EpsilonNFA.epsilon_closure] ends and returns the set of the
    states that ['ε'] transitions reach from the given ones. *)
Theorem epsilon_closure_is_reachability (self : EpsilonNFA) (X : gset str) :
  ∃ C, EpsilonNFA.epsilon_closure self X = Some C
       ∧ ∀ q, q ∈ C ↔ ∃ p, p ∈ X ∧ rtc (eps_step self) p q.
Proof.
  destruct (EpsilonNFAFacts.epsilon_closure_total self X) as [C HC].
  exists C. split; [done|].
  by destruct (RunFacts.epsilon_closure_closed self X C HC) as [_ ?].
Qed.

(** X14.  [EpsilonNFA.accepts] always answers, and answers [True] exactly
    when some walk from the start state, with ['ε'] transitions taken
    freely, reads the input and ends in an accept state. *)
Theorem enfa_accepts_by_epath (self : EpsilonNFA) (w : str) :
  ∃ b, EpsilonNFA.accepts self w = Some b
       ∧ (b = true ↔ ∃ q0 r, start_state self = Some q0 ∧ epath self q0 w r
                             ∧ r ∈ accept_states self).
Proof. exact (RunFacts.enfa_accepts_iff_epath self w). Qed.

(** X15.  A DFA built through the public methods that [is_complete] and
    passes [validate] reads every word over its alphabet to the end: the
    trace never stops at ["REJECT"], and the verdict is whether the last
    state accepts. *)
Theorem complete_dfa_reads_every_word (d : DFA) (w : str) :
  dfa_built d →
  DFA.is_complete d = true →
  (DFA.validate d).1 = true →
  Forall (λ c, [c] ∈ alphabet d) w →
  length (DFA.simulate_step_by_step d w) = length w
  ∧ Forall (dfa_step_ok d) (DFA.simulate_step_by_step d w)
  ∧ ∃ q0, start_state d = Some q0
          ∧ final_state q0 (DFA.simulate_step_by_step d w) ∈ dom (states d)
          ∧ DFA.accepts d w
            = bool_decide (final_state q0 (DFA.simulate_step_by_step d w)
                           ∈ accept_states d).
Proof.
  intros Hb Hc Hv%ApiFacts.dfa_validate_base Hw.
  pose proof (ApiFacts.dfa_built_inv d Hb) as (Htab & _ & _).
  apply SimFacts.validate_ok in Hv as (_ & (q0 & Hq0 & Hq0s) & Htr).
  pose proof (proj1 (SimFacts.is_complete_spec d) Hc) as Hc'.
  unfold DFA.simulate_step_by_step, DFA.accepts. rewrite Hq0.
  destruct (SimFacts.complete_steps_from d q0 w Hc') as (H1 & H2 & H3); [|done|done|].
  { intros q s t [o Ho]%Htab. by destruct (Htr _ Ho). }
  split_and!; [done|done|]. exists q0. split_and!; [done|done|].
  apply eq_true_iff_eq. rewrite SimFacts.dfa_accepts_from_trace, bool_decide_eq_true.
  naive_solver.
Qed.

Lemma complete_dfa_reads_every_word_witness :
  length (DFA.simulate_step_by_step Tests.dfa_minimal (py "aa")) = length (py "aa")
  ∧ Forall (dfa_step_ok Tests.dfa_minimal)
           (DFA.simulate_step_by_step Tests.dfa_minimal (py "aa"))
  ∧ ∃ q0, start_state Tests.dfa_minimal = Some q0
          ∧ final_state q0 (DFA.simulate_step_by_step Tests.dfa_minimal (py "aa"))
            ∈ dom (states Tests.dfa_minimal)
          ∧ DFA.accepts Tests.dfa_minimal (py "aa")
            = bool_decide
                (final_state q0 (DFA.simulate_step_by_step Tests.dfa_minimal (py "aa"))
                 ∈ accept_states Tests.dfa_minimal).
Proof.
  apply (complete_dfa_reads_every_word Tests.dfa_minimal (py "aa")).
  - apply dfa_minimal_built.
  - reflexivity.
  - reflexivity.
  - apply (bool_decide_unpack _). vm_compute. exact I.
Defined.

(** ** The pushdown automaton *)

(** One move of a PDA: by the transition [trans], the [i]-th of the PDA,
    with [top] on the stack. *)
Ltac pda_move top trans i :=
  eapply rtc_l;
  [exists top, trans; split_and!;
   [reflexivity
   |apply list_elem_of_filter; split;
    [split_and!; [reflexivity|reflexivity
                 |first [left; reflexivity|right; reflexivity]]
    |apply (list_elem_of_lookup_2 _ i); reflexivity]
   |reflexivity]
  |].

(** X16.  A verdict of [PDA.accepts] is right: it is [True] exactly when
    the transitions lead from the initial configuration to an accepting
    one. *)
Theorem pda_accepts_verdict_is_right (n : nat) (self : PDA) (w : str) (b : bool) :
  PDA.accepts n self w = Ok b → b = true ↔ accepted_by self w.
Proof.
  unfold accepted_by. destruct (start_state self) as [q0|] eqn:Hq0.
  - intros Hb. rewrite (PDARunFacts.accepts_Ok_iff n self w q0 b Hq0 Hb).
    naive_solver.
  - unfold PDA.accepts. rewrite Hq0. intros [= <-]. naive_solver.
Qed.

Lemma pda_accepts_verdict_is_right_witness :
  (true = true ↔ accepted_by PDAExamples.anbn (py "aabb"))
  ∧ (false = true ↔ accepted_by PDAExamples.anbn (py "aab")).
Proof.
  split.
  - apply (pda_accepts_verdict_is_right 20 PDAExamples.anbn (py "aabb") true).
    vm_compute. reflexivity.
  - apply (pda_accepts_verdict_is_right 20 PDAExamples.anbn (py "aab") false).
    vm_compute. reflexivity.
Defined.

(** X17.  [PDA.accepts] finds every acceptance: when the transitions lead
    to an accepting configuration, the search ends with [True], also for
    a PDA on which a search that finds none would not end. *)
Theorem pda_accepts_finds_acceptance (self : PDA) (w : str) :
  accepted_by self w → ∃ n, PDA.accepts n self w = Ok true.
Proof.
  intros (q0 & c & Hq0 & Hreach & Hacc). unfold PDA.accepts. rewrite Hq0.
  eapply PDARunFacts.accepts_loop_complete;
    [exact Hreach|exact Hacc|apply PDARunFacts.initial_search_inv|].
  left. by apply list_elem_of_singleton.
Qed.

Lemma pda_accepts_finds_acceptance_witness :
  ∃ n, PDA.accepts n PDAExamples.anbn (py "ab") = Ok true.
Proof.
  apply (pda_accepts_finds_acceptance PDAExamples.anbn (py "ab")).
  exists (py "q0"), (mkPDAConfiguration (py "q2") [] [py "Z"]).
  split_and!; [reflexivity| |reflexivity].
  pda_move (py "Z")
    (mkPDATransition (py "q0") (py "q0") (py "a") (py "Z") [py "A"; py "Z"]) 0.
  pda_move (py "A") (mkPDATransition (py "q0") (py "q1") (py "b") (py "A") []) 2.
  pda_move (py "Z") (mkPDATransition (py "q1") (py "q2") EPS (py "Z") [py "Z"]) 4.
  vm_compute. apply rtc_refl.
Defined.

(** X18.  When the trace of [PDA.simulate_step_by_step] ends in an
    accepting configuration, [PDA.accepts] answers [True]. *)
Theorem pda_trace_acceptance_is_accepted (self : PDA) (w : str) (max_steps : nat)
    (c : PDAConfiguration) (o : option PDATransition) :
  last (PDA.simulate_step_by_step self w max_steps) = Some (c, o) →
  PDA.accepting self c = true →
  ∃ n, PDA.accepts n self w = Ok true.
Proof.
  intros (q0 & Hq0 & Hreach)%PDARunFacts.trace_reachable Hacc.
  unfold PDA.accepts. rewrite Hq0.
  eapply PDARunFacts.accepts_loop_complete;
    [exact Hreach|exact Hacc|apply PDARunFacts.initial_search_inv|].
  left. by apply list_elem_of_singleton.
Qed.

Lemma pda_trace_acceptance_is_accepted_witness :
  ∃ n, PDA.accepts n PDAExamples.anbn (py "aabb") = Ok true.
Proof.
  apply (pda_trace_acceptance_is_accepted PDAExamples.anbn (py "aabb") 100
           (mkPDAConfiguration (py "q2") [] [py "Z"])
           (Some (mkPDATransition (py "q1") (py "q2") EPS (py "Z") [py "Z"]))).
  - vm_compute. reflexivity.
  - vm_compute. reflexivity.
Defined.

(** ** The simulator *)

(** X19.  The verdict and the trace of [_simulate_dfa] agree: the DFA
    accepts exactly when the trace has a step for every character, each a
    transition of the table, and ends in an accept state. *)
Theorem simulate_dfa_agrees (d : DFA) (w : str) :
  let r := Simulator._simulate_dfa d w in
  accepted r = true
  ↔ ∃ q0, start_state d = Some q0
          ∧ length (steps r) = length w
          ∧ Forall (dfa_step_ok d) (steps r)
          ∧ final_state q0 (steps r) ∈ accept_states d.
Proof.
  simpl. unfold DFA.accepts, DFA.simulate_step_by_step.
  destruct (start_state d) as [q0|].
  - rewrite SimFacts.dfa_accepts_from_trace. naive_solver.
  - naive_solver.
Qed.

(** X20.  The verdict and the trace of [_simulate_nfa] agree: the NFA
    accepts exactly when the trace has a step for every character, none
    into the empty set, and the last set holds an accept state. *)
Theorem simulate_nfa_agrees (n : NFA) (w : str) :
  let r := Simulator._simulate_nfa n w in
  accepted r = true
  ↔ ∃ q0, start_state n = Some q0
          ∧ length (steps r) = length w
          ∧ Forall (λ step, step.2 ≠ ∅) (steps r)
          ∧ final_states {[q0]} (steps r) ∩ accept_states n ≠ ∅.
Proof.
  simpl. unfold NFA.accepts, NFA.simulate_step_by_step.
  destruct (start_state n) as [q0|].
  - rewrite OutputFacts.nfa_accepts_from_trace. naive_solver.
  - naive_solver.
Qed.

(** X21.  [_simulate_epsilon_nfa] returns, and its verdict and trace
    agree in the same way, from the ε-closure of the start state. *)
Theorem simulate_enfa_agrees (e : EpsilonNFA) (w : str) :
  ∃ r, Simulator._simulate_epsilon_nfa e w = Some r
       ∧ (accepted r = true
          ↔ ∃ q0 C0, start_state e = Some q0
                     ∧ EpsilonNFA.epsilon_closure e {[q0]} = Some C0
                     ∧ length (steps r) = length w
                     ∧ Forall (λ step, step.2 ≠ ∅) (steps r)
                     ∧ final_states C0 (steps r) ∩ accept_states e ≠ ∅).
Proof.
  unfold Simulator._simulate_epsilon_nfa, EpsilonNFA.accepts,
    EpsilonNFA.simulate_step_by_step.
  destruct (start_state e) as [q0|].
  - destruct (EpsilonNFAFacts.epsilon_closure_total e {[q0]}) as [C0 HC0].
    rewrite HC0.
    destruct (OutputFacts.enfa_accepts_from_trace e C0 w)
      as (b & trace & -> & -> & Hiff).
    eexists. split; [done|]. simpl. rewrite Hiff. naive_solver.
  - eexists. split; [done|]. simpl. naive_solver.
Qed.

(** X22.  When [_simulate_pda] returns, its trace has at most 101
    entries, and a trace that ends in an accepting configuration comes
    with the verdict [True].  The converse fails: on the PDA [detour] the
    verdict is [True] while the trace, which follows the first applicable
    transition, runs to the bound and ends in a configuration that does not
    accept. *)
Theorem simulate_pda_agrees :
  (∀ n p w r,
     Simulator._simulate_pda n p w = Ok r →
     length (steps r) ≤ 101
     ∧ ∀ c o, last (steps r) = Some (c, o) → PDA.accepting p c = true →
              accepted r = true)
  ∧ ∃ r c o,
      Simulator._simulate_pda 3 PDAExamples.detour [] = Ok r
      ∧ accepted r = true
      ∧ length (steps r) = 101
      ∧ last (steps r) = Some (c, o)
      ∧ PDA.accepting PDAExamples.detour c = false.
Proof.
  split.
  - intros n p w r. unfold Simulator._simulate_pda.
    destruct (PDA.accepts n p w) as [b| |] eqn:Hb; [|done..].
    intros [= <-]. simpl. split; [apply PDAFacts.simulate_length|].
    intros c o (q0 & Hq0 & Hreach)%PDARunFacts.trace_reachable Hacc.
    apply (PDARunFacts.accepts_Ok_iff n p w q0 b Hq0 Hb). by exists c.
  - eexists _, (mkPDAConfiguration (py "q0") [] [py "Z"]),
      (Some (mkPDATransition (py "q0") (py "q0") EPS (py "Z") [py "Z"])).
    split; [reflexivity|]. vm_compute. done.
Qed.

Lemma simulate_pda_agrees_witness :
  ∃ r, Simulator._simulate_pda 6 PDAExamples.anbn (py "ab") = Ok r
       ∧ length (steps r) ≤ 101
       ∧ accepted r = true.
Proof.
  destruct simulate_pda_agrees as [H _].
  eexists. split; [reflexivity|].
  destruct (H 6 PDAExamples.anbn (py "ab") _ eq_refl) as [Hlen Hacc].
  split; [exact Hlen|].
  apply (Hacc (mkPDAConfiguration (py "q2") [] [py "Z"])
              (Some (mkPDATransition (py "q1") (py "q2") EPS (py "Z") [py "Z"])));
    vm_compute; reflexivity.
Defined.

(** X23.  The outputs and the trace of [_simulate_mealy] agree: on success
    there is one output for each character, the output column of the
    trace; on failure the outputs are those of the steps before the
    ["ERROR"] step. *)
Theorem simulate_mealy_agrees (m : MealyMachine) (w : str) :
  let r := Simulator._simulate_mealy m w in
  (accepted r = true →
   final_output r = Some (mealy_output <$> steps r) ∧ length (steps r) = length w)
  ∧ (accepted r = false →
     start_state m = None
     ∨ ∃ good q c, steps r = good ++ [(q, c, MealyMachine.ERROR, MealyMachine.ERROR)]
                   ∧ final_output r = Some (mealy_output <$> good)
                   ∧ length good < length w).
Proof.
  unfold Simulator._simulate_mealy, MealyMachine.process_input,
    MealyMachine.simulate_step_by_step.
  destruct (start_state m) as [q0|]; [|simpl; split; [done|by left]].
  pose proof (SimFacts.mealy_process_from_steps m q0 [] w) as H. simpl in H.
  destruct (MealyMachine.process_from m q0 [] w) as [success outputs]. simpl in *.
  destruct H as [H1 H2]. split.
  - intros Hs. destruct (H1 Hs) as [-> ?]. done.
  - intros Hs. right. destruct (H2 Hs) as (good & q & c & -> & -> & ?).
    by exists good, q, c.
Qed.

(** X24.  The outputs and the trace of [_simulate_moore] agree: the output
    of the start state comes first, then the output column of the trace,
    one more output than characters on success. *)
Theorem simulate_moore_agrees (m : MooreMachine) (w : str) :
  let r := Simulator._simulate_moore m w in
  (accepted r = true →
   ∃ q0, start_state m = Some q0
         ∧ final_output r
           = Some (MooreMachine.output_of m q0 :: (moore_output <$> steps r))
         ∧ length (steps r) = length w)
  ∧ (accepted r = false →
     start_state m = None
     ∨ ∃ q0 good q c,
         start_state m = Some q0
         ∧ steps r = good ++ [(q, c, MooreMachine.ERROR, MooreMachine.ERROR)]
         ∧ final_output r
           = Some (MooreMachine.output_of m q0 :: (moore_output <$> good))
         ∧ length good < length w).
Proof.
  unfold Simulator._simulate_moore, MooreMachine.process_input,
    MooreMachine.simulate_step_by_step.
  destruct (start_state m) as [q0|]; [|simpl; split; [done|by left]].
  pose proof (SimFacts.moore_process_from_steps m q0 [MooreMachine.output_of m q0] w)
    as H.
  simpl in H.
  destruct (MooreMachine.process_from m q0 _ w) as [success outputs]. simpl in *.
  destruct H as [H1 H2]. split.
  - intros Hs. destruct (H1 Hs) as [-> ?]. by exists q0.
  - intros Hs. right. destruct (H2 Hs) as (good & q & c & -> & -> & ?).
    by exists q0, good, q, c.
Qed.

(** ** Thompson's construction *)

(** X25.  Thompson's construction is correct: for a regex the parser
    accepts, the ε-NFA of [thompson_construction] accepts an input without
    the character ['ε'] exactly when the AST denotes it. *)
Theorem thompson_accepts_the_language (regex : str) (ast : RegexNode) :
  parse_regex regex = Ok ast →
  ∃ enfa, thompson_construction regex = Ok enfa
          ∧ ∀ w, Ch.epsilon ∉ w →
                 ∃ b, EpsilonNFA.accepts enfa w = Some b
                      ∧ (b = true ↔ matches ast w).
Proof.
  intros Hp. unfold thompson_construction. rewrite Hp.
  destruct (ThompsonFacts.construct_spec ast) as (e & He & _).
  rewrite He. exists (Thompson.nfa e). split; [done|]. intros w Hw.
  eapply ThompsonLangFacts.accepts_matches; [done| |done].
  by eapply ThompsonShapeFacts.parsed_no_epsilon.
Qed.

Lemma thompson_accepts_the_language_witness :
  ∃ enfa, thompson_construction (py "(a|b)*abb") = Ok enfa
          ∧ ∀ w, Ch.epsilon ∉ w →
                 ∃ b, EpsilonNFA.accepts enfa w = Some b
                      ∧ (b = true
                         ↔ matches
                             (CONCAT
                                (CONCAT
                                   (CONCAT (STAR (OR (CHAR 97%N) (CHAR 98%N)))
                                           (CHAR 97%N))
                                   (CHAR 98%N))
                                (CHAR 98%N)) w).
Proof. apply (thompson_accepts_the_language (py "(a|b)*abb")). reflexivity. Defined.

(** X26.  The ε-NFA of [thompson_construction] has two states for every
    node of the AST other than a concatenation, and passes
    [Automaton.validate]. *)
Theorem thompson_state_count_and_validity (regex : str) (ast : RegexNode) :
  parse_regex regex = Ok ast →
  ∃ enfa, thompson_construction regex = Ok enfa
          ∧ get_state_count enfa = 2 * pairs ast
          ∧ validate enfa = (true, Valid).
Proof.
  intros Hp. unfold thompson_construction. rewrite Hp.
  destruct (ThompsonFacts.construct_spec ast) as (e & He & _).
  rewrite He. exists (Thompson.nfa e). split; [done|].
  apply ThompsonLangFacts.construct_layout in He.
  pose proof (LayoutFacts.layout_wf_all ast 0) as Hwf. unfold layout_wf in Hwf.
  pose proof (LayoutFacts.layout_count ast 0) as Hcount.
  destruct (layout ast 0) as [[[s a] k'] G]. simpl in Hcount.
  destruct He as (Hstart & Hacc & Htrans & Hinv & Hdom).
  destruct Hwf as (Hs & Ha & Hsa & HG).
  split.
  - unfold get_state_count. rewrite <- size_dom.
    rewrite (ThompsonShapeFacts.names_size _ k' Hdom). lia.
  - apply ThompsonShapeFacts.validate_true. apply SimFacts.validate_ok. split_and!.
    + intros Hempty.
      assert (Thompson.state_name s ∈ dom (states (Thompson.nfa e))) as Hin.
      { apply Hdom. exists s. split; [lia|done]. }
      rewrite Hempty in Hin. set_solver.
    + exists (Thompson.state_name s). split; [done|].
      apply Hdom. exists s. split; [lia|done].
    + intros trans. rewrite Htrans.
      intros ([[i x] j] & -> & Hin%HG)%list_elem_of_fmap. simpl.
      split; apply Hdom; [exists i|exists j]; split; [lia|done|lia|done].
Qed.

Lemma thompson_state_count_and_validity_witness :
  ∃ enfa, thompson_construction (py "a|b") = Ok enfa
          ∧ get_state_count enfa = 2 * pairs (OR (CHAR 97%N) (CHAR 98%N))
          ∧ validate enfa = (true, Valid).
Proof. apply (thompson_state_count_and_validity (py "a|b")). reflexivity. Defined.

(** X27.  The alphabet of the ε-NFA of [thompson_construction] is the set
    of the characters of the regex's [CHAR] nodes. *)
Theorem thompson_alphabet_is_chars (regex : str) (ast : RegexNode) :
  parse_regex regex = Ok ast →
  ∃ enfa, thompson_construction regex = Ok enfa
          ∧ ∀ x, x ∈ alphabet enfa ↔ ∃ c, c ∈ chars ast ∧ x = [c].
Proof.
  intros Hp. unfold thompson_construction. rewrite Hp.
  destruct (ThompsonFacts.construct_spec ast) as (e & He & _).
  rewrite He. exists (Thompson.nfa e). split; [done|].
  apply ThompsonLangFacts.construct_layout in He.
  pose proof (ThompsonShapeFacts.layout_symbols ast 0) as Hsym.
  destruct (layout ast 0) as [[[s a] k'] G]. simpl in Hsym.
  destruct He as (_ & _ & Htrans & [_ Halpha] & _).
  intros x. rewrite Halpha, Htrans. unfold symbols.
  rewrite elem_of_list_to_set, list_elem_of_filter, <- list_fmap_compose,
    list_elem_of_fmap.
  split.
  - intros [Hx ([[i x'] j] & -> & Hin)]. simpl in *. apply Hsym; [done|]. by exists i, j.
  - intros (c & Hc & ->).
    assert ([c] ≠ EPS) as Hx.
    { intros [= ->]. by apply (ThompsonShapeFacts.parsed_no_epsilon _ _ Hp). }
    split; [done|]. destruct (proj2 (Hsym [c] Hx)) as (i & j & Hin); [by exists c|].
    by exists (i, [c], j).
Qed.

Lemma thompson_alphabet_is_chars_witness :
  ∃ enfa, thompson_construction (py "a|b") = Ok enfa
          ∧ ∀ x, x ∈ alphabet enfa
                 ↔ ∃ c, c ∈ chars (OR (CHAR 97%N) (CHAR 98%N)) ∧ x = [c].
Proof. apply (thompson_alphabet_is_chars (py "a|b")). reflexivity. Defined.

(** ** The text format *)

(** X28.  [parse_text_automaton] never returns an automaton: every text
    ends in an exception, because each [return] calls a constructor with
    five arguments and the constructors take none. *)
Theorem parse_text_automaton_never_returns (strip lower upper : str → str)
    (text : str) :
  ∃ e, TextParser.parse_text_automaton strip lower upper text = TextParser.Raised e.
Proof.
  unfold TextParser.parse_text_automaton, TextParser.construct.
  destruct (TextParser.read_lines _ _ _ _ _) as [e|st]; [by eexists|].
  destruct (TextParser.automaton_type st) as [[|c t]|]; [by eexists| |by eexists].
  repeat case_bool_decide; simpl; by eexists.
Qed.
